(** * sfh: layered annotation canvas (src/App.jsx)

    A shallow embedding of the gesture dispatcher, the per-pane viewport
    transform, the ink history, the render transform and the edge-snap
    analyzer of [App.jsx], followed by the properties of the specification
    that are about them.

    Numbers.  A JavaScript number is modelled by [num]: a real number, one
    of the two infinities, or NaN.  Arithmetic on finite values is exact (no
    rounding, no overflow, a single zero); the special values follow the
    IEEE-754 rules that JavaScript uses, so what a handler does after a
    division by zero is part of the model.  The finite values are the reals
    of the Standard Library because the code takes square roots
    ([Math.hypot]): comparisons are total functions into [bool], and are
    evaluated on sample inputs by rewriting.  Integers that the code uses as
    loop counters, pixel coordinates and array indices are [Z].  A comparison
    with a threshold can come out differently in the doubles of the code
    when its two sides agree up to rounding: the properties that rest on
    the guard around the divider, and the converse of the strength floor of
    the analyzer, are stated with a margin ([dividerMargin],
    [scoreMargin]).

    State.  The refs and the React state of the component are the fields of
    one record, and a handler is a function from the state to the state.
    The arrays of paths are lists; [Refs] models them as objects in a store
    and shows that the lists are what the objects hold. *)

From Stdlib Require Import Reals Lra Lia ZArith List Bool String Permutation.
Import ListNotations.

Open Scope R_scope.

(* ------------------------------------------------------------------ *)
(** ** JavaScript numbers *)

Module JsNum.

Inductive num : Type :=
| Fin (r : R)
| PInf
| NInf
| NaN.

Definition Rlt_b (a b : R) : bool := if Rlt_dec a b then true else false.
Definition Rle_b (a b : R) : bool := if Rle_dec a b then true else false.

(** Sign of a real, and the infinity of that sign (0 * Infinity is NaN). *)
Definition sign_of (r : R) : comparison :=
  if Rlt_dec 0 r then Gt else if Rlt_dec r 0 then Lt else Eq.

Definition inf_of (c : comparison) : num :=
  match c with Gt => PInf | Lt => NInf | Eq => NaN end.

Definition is_finite (a : num) : bool :=
  match a with Fin _ => true | _ => false end.

Definition is_nan (a : num) : bool :=
  match a with NaN => true | _ => false end.

Definition nneg (a : num) : num :=
  match a with
  | Fin r => Fin (- r)
  | PInf => NInf
  | NInf => PInf
  | NaN => NaN
  end.

Definition nadd (a b : num) : num :=
  match a, b with
  | NaN, _ | _, NaN => NaN
  | Fin u, Fin v => Fin (u + v)
  | PInf, NInf | NInf, PInf => NaN
  | PInf, _ | _, PInf => PInf
  | NInf, _ | _, NInf => NInf
  end.

Definition nsub (a b : num) : num := nadd a (nneg b).

Definition nmul (a b : num) : num :=
  match a, b with
  | NaN, _ | _, NaN => NaN
  | Fin u, Fin v => Fin (u * v)
  | Fin u, PInf | PInf, Fin u => inf_of (sign_of u)
  | Fin u, NInf | NInf, Fin u => inf_of (CompOpp (sign_of u))
  | PInf, PInf | NInf, NInf => PInf
  | PInf, NInf | NInf, PInf => NInf
  end.

(** [a / b]: a finite value over zero is an infinity of the sign of [a],
    and [0 / 0] is NaN. *)
Definition ndiv (a b : num) : num :=
  match a, b with
  | NaN, _ | _, NaN => NaN
  | Fin u, Fin v => if Req_dec_T v 0 then inf_of (sign_of u) else Fin (u / v)
  | Fin _, PInf | Fin _, NInf => Fin 0
  | PInf, Fin v => if Rlt_dec v 0 then NInf else PInf
  | NInf, Fin v => if Rlt_dec v 0 then PInf else NInf
  | _, _ => NaN
  end.

(** Comparisons: every comparison with NaN is false. *)
Definition nlt (a b : num) : bool :=
  match a, b with
  | NaN, _ | _, NaN => false
  | Fin u, Fin v => Rlt_b u v
  | NInf, NInf | PInf, _ | _, NInf => false
  | _, _ => true
  end.

Definition nle (a b : num) : bool :=
  match a, b with
  | NaN, _ | _, NaN => false
  | Fin u, Fin v => Rle_b u v
  | NInf, _ | _, PInf => true
  | _, _ => false
  end.

Definition ngt (a b : num) : bool := nlt b a.
Definition nge (a b : num) : bool := nle b a.

(** [Math.max] and [Math.min]: NaN as soon as one argument is NaN. *)
Definition Math_max (a b : num) : num :=
  match a, b with
  | NaN, _ | _, NaN => NaN
  | Fin u, Fin v => Fin (Rmax u v)
  | PInf, _ | _, PInf => PInf
  | NInf, c | c, NInf => c
  end.

Definition Math_min (a b : num) : num :=
  match a, b with
  | NaN, _ | _, NaN => NaN
  | Fin u, Fin v => Fin (Rmin u v)
  | NInf, _ | _, NInf => NInf
  | PInf, c | c, PInf => c
  end.

Definition Math_abs (a : num) : num :=
  match a with
  | Fin r => Fin (Rabs r)
  | PInf | NInf => PInf
  | NaN => NaN
  end.

(** [Math.hypot]: an infinite argument wins over NaN. *)
Definition Math_hypot (a b : num) : num :=
  match a, b with
  | Fin u, Fin v => Fin (sqrt (u * u + v * v))
  | PInf, _ | NInf, _ | _, PInf | _, NInf => PInf
  | _, _ => NaN
  end.

(** [Math.round] on a finite value: the nearest integer, halves upwards. *)
Definition round_half_up (r : R) : Z := Zfloor (r + / 2).

Definition Math_round (a : num) : num :=
  match a with
  | Fin r => Fin (IZR (round_half_up r))
  | other => other
  end.

(** Truthiness of a number, and [a || b] on numbers: 0 and NaN are falsy. *)
Definition truthy (a : num) : bool :=
  match a with
  | Fin r => if Req_dec_T r 0 then false else true
  | NaN => false
  | _ => true
  end.

Definition nor (a b : num) : num := if truthy a then a else b.

Definition of_Z (z : Z) : num := Fin (IZR z).
Definition of_nat (n : nat) : num := Fin (INR n).

End JsNum.
Import JsNum.

Declare Scope num_scope.
Delimit Scope num_scope with num.
Bind Scope num_scope with num.
Infix "+" := nadd : num_scope.
Infix "-" := nsub : num_scope.
Infix "*" := nmul : num_scope.
Infix "/" := ndiv : num_scope.
Infix "<?" := nlt (at level 70, no associativity) : num_scope.
Infix "<=?" := nle (at level 70, no associativity) : num_scope.
Infix ">?" := ngt (at level 70, no associativity) : num_scope.
Infix ">=?" := nge (at level 70, no associativity) : num_scope.
Infix "||" := nor : num_scope.

(* ------------------------------------------------------------------ *)
(** ** Data model *)

(** A point object [{ x, y }]. *)
Module Point.
Record t : Type := mk { x : num; y : num }.
End Point.

(** A viewport transform [{ x, y, k }]: pan offset and scale. *)
Module Transform.
Record t : Type := mk { x : num; y : num; k : num }.
End Transform.

(** An ink path [{ points, color, size, isEraser }]. *)
Module Path.
Record t : Type := mk {
  points : list Point.t;
  color : string;
  size : num;
  isEraser : bool
}.
End Path.

(** A decoded image: its integer size and, for the analysis canvas it is
    drawn on, the byte of channel [c] (0 red, 1 green, 2 blue, 3 alpha) of
    the pixel at [(px, py)]. *)
Module Image.
Record t : Type := mk {
  width : Z;
  height : Z;
  pixel : Z -> Z -> Z -> Z
}.
End Image.

(** The container's bounding rectangle ([getBoundingClientRect]). *)
Module Rect.
Record t : Type := mk { left : num; top : num; width : num; height : num }.
End Rect.

Record PointerEvent : Type := mkPointerEvent {
  pointerId : Z;
  clientX : num;
  clientY : num;
  button : Z
}.

Record WheelEvent : Type := mkWheelEvent {
  wheelX : num;   (* e.clientX *)
  wheelY : num;   (* e.clientY *)
  deltaY : num
}.

Inductive Tool : Type := pen | eraser | magnet | hand.

Inductive Side : Type := sideLeft | sideRight.

Definition Tool_eqb (a b : Tool) : bool :=
  match a, b with
  | pen, pen | eraser, eraser | magnet, magnet | hand, hand => true
  | _, _ => false
  end.

Definition Side_eqb (a b : Side) : bool :=
  match a, b with
  | sideLeft, sideLeft | sideRight, sideRight => true
  | _, _ => false
  end.

Record GestureState : Type := mkGestureState {
  lastDist : num;
  lastCenter : option Point.t;
  lastPos : option Point.t
}.

(** The pointer registry is a JavaScript [Map]: keys are unique and keep
    their insertion order; [set] on a present key replaces the value in
    place. *)
Definition PointerMap : Type := list (Z * PointerEvent).

Fixpoint Map_set (id : Z) (e : PointerEvent) (m : PointerMap) : PointerMap :=
  match m with
  | [] => [(id, e)]
  | (key, v) :: rest =>
      if Z.eqb key id then (key, e) :: rest else (key, v) :: Map_set id e rest
  end.

Definition Map_delete (id : Z) (m : PointerMap) : PointerMap :=
  filter (fun kv => negb (Z.eqb (fst kv) id)) m.

Definition Map_has (id : Z) (m : PointerMap) : bool :=
  existsb (fun kv => Z.eqb (fst kv) id) m.

Definition Map_values (m : PointerMap) : list PointerEvent := map snd m.

(** Arrays used as stacks: [push] appends, [pop] removes the last element. *)
Definition Array_push {A : Type} (a : list A) (v : A) : list A := a ++ [v].

Definition Array_pop {A : Type} (a : list A) : list A * option A :=
  match a with
  | [] => ([], None)
  | v :: rest => (removelast a, Some (last rest v))
  end.

(** The component's mutable state: the refs of [App] and the React state
    its handlers read.  [rect] is the container's bounding rectangle. The
    render counter [version] and the redraw requests carry no data and are
    left out. *)
Record State : Type := mkState {
  image : option Image.t;
  referenceImage : option Image.t;
  tool : Tool;
  color : string;
  size : num;
  isComparing : bool;
  sliderPos : num;
  paths : list Path.t;
  history : list (list Path.t);
  transform : Transform.t;
  currentPath : option Path.t;
  pointers : PointerMap;
  activeSide : Side;
  gestureState : GestureState;
  isMiddleMousePanning : bool;
  middleMouseLastPos : option Point.t;
  redoStack : list (list Path.t);
  refRedoStack : list (list Path.t);
  refPaths : list Path.t;
  refHistory : list (list Path.t);
  refTransform : Transform.t;
  currentRefPath : option Path.t;
  rect : Rect.t
}.

(** The state of the freshly mounted component (the initial values of
    [useState] and [useRef]) in a container of rectangle [r]. *)
Definition initialState (r : Rect.t) : State :=
  mkState None None pen "#FF4444" (Fin 12) false (Fin 0.5)
    [] [] (Transform.mk (Fin 0) (Fin 0) (Fin 1)) None [] sideLeft
    (mkGestureState (Fin 0) None None) false None
    [] [] [] [] (Transform.mk (Fin 0) (Fin 0) (Fin 1)) None r.

(** Assignments to one field of the state. *)
Definition set_image (v : option Image.t) (s : State) : State :=
  mkState v (referenceImage s) (tool s) (color s) (size s) (isComparing s)
    (sliderPos s) (paths s) (history s) (transform s) (currentPath s)
    (pointers s) (activeSide s) (gestureState s) (isMiddleMousePanning s)
    (middleMouseLastPos s) (redoStack s) (refRedoStack s) (refPaths s)
    (refHistory s) (refTransform s) (currentRefPath s) (rect s).

Definition set_referenceImage (v : option Image.t) (s : State) : State :=
  mkState (image s) v (tool s) (color s) (size s) (isComparing s)
    (sliderPos s) (paths s) (history s) (transform s) (currentPath s)
    (pointers s) (activeSide s) (gestureState s) (isMiddleMousePanning s)
    (middleMouseLastPos s) (redoStack s) (refRedoStack s) (refPaths s)
    (refHistory s) (refTransform s) (currentRefPath s) (rect s).

Definition set_isComparing (v : bool) (s : State) : State :=
  mkState (image s) (referenceImage s) (tool s) (color s) (size s) v
    (sliderPos s) (paths s) (history s) (transform s) (currentPath s)
    (pointers s) (activeSide s) (gestureState s) (isMiddleMousePanning s)
    (middleMouseLastPos s) (redoStack s) (refRedoStack s) (refPaths s)
    (refHistory s) (refTransform s) (currentRefPath s) (rect s).

Definition set_paths (v : list Path.t) (s : State) : State :=
  mkState (image s) (referenceImage s) (tool s) (color s) (size s)
    (isComparing s) (sliderPos s) v (history s) (transform s)
    (currentPath s) (pointers s) (activeSide s) (gestureState s)
    (isMiddleMousePanning s) (middleMouseLastPos s) (redoStack s)
    (refRedoStack s) (refPaths s) (refHistory s) (refTransform s)
    (currentRefPath s) (rect s).

Definition set_history (v : list (list Path.t)) (s : State) : State :=
  mkState (image s) (referenceImage s) (tool s) (color s) (size s)
    (isComparing s) (sliderPos s) (paths s) v (transform s) (currentPath s)
    (pointers s) (activeSide s) (gestureState s) (isMiddleMousePanning s)
    (middleMouseLastPos s) (redoStack s) (refRedoStack s) (refPaths s)
    (refHistory s) (refTransform s) (currentRefPath s) (rect s).

Definition set_transform (v : Transform.t) (s : State) : State :=
  mkState (image s) (referenceImage s) (tool s) (color s) (size s)
    (isComparing s) (sliderPos s) (paths s) (history s) v (currentPath s)
    (pointers s) (activeSide s) (gestureState s) (isMiddleMousePanning s)
    (middleMouseLastPos s) (redoStack s) (refRedoStack s) (refPaths s)
    (refHistory s) (refTransform s) (currentRefPath s) (rect s).

Definition set_currentPath (v : option Path.t) (s : State) : State :=
  mkState (image s) (referenceImage s) (tool s) (color s) (size s)
    (isComparing s) (sliderPos s) (paths s) (history s) (transform s) v
    (pointers s) (activeSide s) (gestureState s) (isMiddleMousePanning s)
    (middleMouseLastPos s) (redoStack s) (refRedoStack s) (refPaths s)
    (refHistory s) (refTransform s) (currentRefPath s) (rect s).

Definition set_pointers (v : PointerMap) (s : State) : State :=
  mkState (image s) (referenceImage s) (tool s) (color s) (size s)
    (isComparing s) (sliderPos s) (paths s) (history s) (transform s)
    (currentPath s) v (activeSide s) (gestureState s)
    (isMiddleMousePanning s) (middleMouseLastPos s) (redoStack s)
    (refRedoStack s) (refPaths s) (refHistory s) (refTransform s)
    (currentRefPath s) (rect s).

Definition set_activeSide (v : Side) (s : State) : State :=
  mkState (image s) (referenceImage s) (tool s) (color s) (size s)
    (isComparing s) (sliderPos s) (paths s) (history s) (transform s)
    (currentPath s) (pointers s) v (gestureState s) (isMiddleMousePanning s)
    (middleMouseLastPos s) (redoStack s) (refRedoStack s) (refPaths s)
    (refHistory s) (refTransform s) (currentRefPath s) (rect s).

Definition set_gestureState (v : GestureState) (s : State) : State :=
  mkState (image s) (referenceImage s) (tool s) (color s) (size s)
    (isComparing s) (sliderPos s) (paths s) (history s) (transform s)
    (currentPath s) (pointers s) (activeSide s) v (isMiddleMousePanning s)
    (middleMouseLastPos s) (redoStack s) (refRedoStack s) (refPaths s)
    (refHistory s) (refTransform s) (currentRefPath s) (rect s).

Definition set_isMiddleMousePanning (v : bool) (s : State) : State :=
  mkState (image s) (referenceImage s) (tool s) (color s) (size s)
    (isComparing s) (sliderPos s) (paths s) (history s) (transform s)
    (currentPath s) (pointers s) (activeSide s) (gestureState s) v
    (middleMouseLastPos s) (redoStack s) (refRedoStack s) (refPaths s)
    (refHistory s) (refTransform s) (currentRefPath s) (rect s).

Definition set_middleMouseLastPos (v : option Point.t) (s : State) : State :=
  mkState (image s) (referenceImage s) (tool s) (color s) (size s)
    (isComparing s) (sliderPos s) (paths s) (history s) (transform s)
    (currentPath s) (pointers s) (activeSide s) (gestureState s)
    (isMiddleMousePanning s) v (redoStack s) (refRedoStack s) (refPaths s)
    (refHistory s) (refTransform s) (currentRefPath s) (rect s).

Definition set_redoStack (v : list (list Path.t)) (s : State) : State :=
  mkState (image s) (referenceImage s) (tool s) (color s) (size s)
    (isComparing s) (sliderPos s) (paths s) (history s) (transform s)
    (currentPath s) (pointers s) (activeSide s) (gestureState s)
    (isMiddleMousePanning s) (middleMouseLastPos s) v (refRedoStack s)
    (refPaths s) (refHistory s) (refTransform s) (currentRefPath s) (rect s).

Definition set_refRedoStack (v : list (list Path.t)) (s : State) : State :=
  mkState (image s) (referenceImage s) (tool s) (color s) (size s)
    (isComparing s) (sliderPos s) (paths s) (history s) (transform s)
    (currentPath s) (pointers s) (activeSide s) (gestureState s)
    (isMiddleMousePanning s) (middleMouseLastPos s) (redoStack s) v
    (refPaths s) (refHistory s) (refTransform s) (currentRefPath s) (rect s).

Definition set_refPaths (v : list Path.t) (s : State) : State :=
  mkState (image s) (referenceImage s) (tool s) (color s) (size s)
    (isComparing s) (sliderPos s) (paths s) (history s) (transform s)
    (currentPath s) (pointers s) (activeSide s) (gestureState s)
    (isMiddleMousePanning s) (middleMouseLastPos s) (redoStack s)
    (refRedoStack s) v (refHistory s) (refTransform s) (currentRefPath s)
    (rect s).

Definition set_refHistory (v : list (list Path.t)) (s : State) : State :=
  mkState (image s) (referenceImage s) (tool s) (color s) (size s)
    (isComparing s) (sliderPos s) (paths s) (history s) (transform s)
    (currentPath s) (pointers s) (activeSide s) (gestureState s)
    (isMiddleMousePanning s) (middleMouseLastPos s) (redoStack s)
    (refRedoStack s) (refPaths s) v (refTransform s) (currentRefPath s)
    (rect s).

Definition set_refTransform (v : Transform.t) (s : State) : State :=
  mkState (image s) (referenceImage s) (tool s) (color s) (size s)
    (isComparing s) (sliderPos s) (paths s) (history s) (transform s)
    (currentPath s) (pointers s) (activeSide s) (gestureState s)
    (isMiddleMousePanning s) (middleMouseLastPos s) (redoStack s)
    (refRedoStack s) (refPaths s) (refHistory s) v (currentRefPath s)
    (rect s).

Definition set_currentRefPath (v : option Path.t) (s : State) : State :=
  mkState (image s) (referenceImage s) (tool s) (color s) (size s)
    (isComparing s) (sliderPos s) (paths s) (history s) (transform s)
    (currentPath s) (pointers s) (activeSide s) (gestureState s)
    (isMiddleMousePanning s) (middleMouseLastPos s) (redoStack s)
    (refRedoStack s) (refPaths s) (refHistory s) (refTransform s) v (rect s).

(* ------------------------------------------------------------------ *)
(** ** Edge-snap analyzer ([snapToEdge]) *)

Definition Zrange (lo hi : Z) : list Z :=
  map (fun i => (lo + Z.of_nat i)%Z) (seq 0 (Z.to_nat (hi - lo))).

(** The analysis canvas holds the target image (it is redrawn whenever the
    target image changes); what lies outside it reads as transparent black. *)
Definition canvasPixel (img : Image.t) (px py c : Z) : Z :=
  if ((0 <=? px) && (px <? Image.width img) &&
      (0 <=? py) && (py <? Image.height img))%Z%bool
  then Image.pixel img px py c
  else 0%Z.

(** [ctx.getImageData(sx, sy, sw, sh).data]: the flat RGBA array of the
    window, as the map from an index to its byte; [None] is [undefined]. *)
Definition getImageData (img : Image.t) (sx sy sw sh : Z) (i : Z) : option Z :=
  if ((0 <=? i) && (i <? 4 * sw * sh))%Z%bool
  then Some (canvasPixel img (sx + (i / 4) mod sw) (sy + (i / 4) / sw) (i mod 4))%Z
  else None.

(** An array element used in arithmetic, and [data[i] || 0]. *)
Definition elt (d : option Z) : num :=
  match d with Some b => of_Z b | None => NaN end.

Definition elt_or_0 (d : option Z) : num :=
  match d with Some b => of_Z b | None => Fin 0 end.

(** The weighted direction loop over the trailing points:
    [for (i = len - lookback; i < len - 1; i++)], on the points from index
    [i] on; the accumulator is [(dirX, dirY, totalWeight)]. *)
Fixpoint directionLoop (len i : nat) (pts : list Point.t)
    (acc : num * num * num) : num * num * num :=
  match pts with
  | [] => acc
  | p :: rest =>
      match rest with
      | [] => acc
      | q :: _ =>
          let '(dirX, dirY, totalWeight) := acc in
          let segDx := (Point.x q - Point.x p)%num in
          let segDy := (Point.y q - Point.y p)%num in
          let segLen := Math_hypot segDx segDy in
          let acc' :=
            if (segLen <? Fin 0.5)%num then acc
            else
              let age := of_nat (len - 1 - i) in
              let weight := (Fin 1 + age * Fin 0.3)%num in
              ((dirX + (segDx / segLen) * weight)%num,
               (dirY + (segDy / segLen) * weight)%num,
               (totalWeight + weight)%num) in
          directionLoop len (S i) rest acc'
      end
  end.

(** The drawing direction [(dirX, dirY, hasDirection)] from the points
    already in the stroke. *)
Definition drawingDirection (prevPoints : option (list Point.t))
    : num * num * bool :=
  match prevPoints with
  | None => (Fin 0, Fin 0, false)
  | Some pts =>
      let len := List.length pts in
      if (3 <=? len)%nat then
        let lookback := Nat.min len 25 in
        let '(dirX, dirY, totalWeight) :=
          directionLoop len (len - lookback) (skipn (len - lookback) pts)
            (Fin 0, Fin 0, Fin 0) in
        if (totalWeight >? Fin 0)%num then
          let dirX := (dirX / totalWeight)%num in
          let dirY := (dirY / totalWeight)%num in
          let dirLen := Math_hypot dirX dirY in
          if (dirLen >? Fin 0.1)%num
          then ((dirX / dirLen)%num, (dirY / dirLen)%num, true)
          else (dirX, dirY, false)
        else (dirX, dirY, false)
      else (Fin 0, Fin 0, false)
  end.

Section Scan.

(** The window read from the analysis canvas and the cursor pixel. *)
Variable data : Z -> option Z.
Variables padStartX padStartY padW : Z.
Variables imgX imgY : Z.
Variables dirX dirY perpX perpY : num.
Variable hasDirection : bool.

Definition lum (px py : Z) : num :=
  let lx := (px - padStartX)%Z in
  let ly := (py - padStartY)%Z in
  let i := ((ly * padW + lx) * 4)%Z in
  let a := (elt (data (i + 3)%Z) / Fin 255)%num in
  ((elt (data i) * Fin 0.299 + elt (data (i + 1)%Z) * Fin 0.587
    + elt (data (i + 2)%Z) * Fin 0.114) * a)%num.

Definition gradX (px py : Z) : num := (lum (px + 1) py - lum (px - 1) py)%num.
Definition gradY (px py : Z) : num := (lum px (py + 1) - lum px (py - 1))%num.
Definition gradMag (px py : Z) : num := Math_hypot (gradX px py) (gradY px py).

Definition alphaGrad (px py : Z) : num :=
  let aL := elt_or_0 (data (((py - padStartY) * padW + (px - 1 - padStartX)) * 4 + 3)%Z) in
  let aR := elt_or_0 (data (((py - padStartY) * padW + (px + 1 - padStartX)) * 4 + 3)%Z) in
  let aU := elt_or_0 (data (((py - 1 - padStartY) * padW + (px - padStartX)) * 4 + 3)%Z) in
  let aD := elt_or_0 (data (((py + 1 - padStartY) * padW + (px - padStartX)) * 4 + 3)%Z) in
  (Math_hypot (aR - aL) (aD - aU) / Fin 255)%num.

Definition edgeStrength (px py : Z) : num :=
  (gradMag px py + alphaGrad px py * Fin 80)%num.

(** The score of a candidate that passed the strength floor. *)
Definition score (px py : Z) : num :=
  let dx := of_Z (px - imgX) in
  let dy := of_Z (py - imgY) in
  let dist := Math_hypot dx dy in
  if hasDirection then
    let parallelDist := Math_abs (dx * dirX + dy * dirY) in
    let perpDist := Math_abs (dx * perpX + dy * perpY) in
    let edgeDirX :=
      if (gradMag px py >? Fin 0.1)%num
      then (gradX px py / gradMag px py)%num else Fin 0 in
    let edgeDirY :=
      if (gradMag px py >? Fin 0.1)%num
      then (gradY px py / gradMag px py)%num else Fin 0 in
    let orientationBonus :=
      (Math_abs (edgeDirX * dirX + edgeDirY * dirY) * Fin 15)%num in
    let penalty := (perpDist * Fin 8 + parallelDist * Fin 1.5)%num in
    (edgeStrength px py + orientationBonus - penalty)%num
  else
    let penalty := (dist * Fin 5)%num in
    (edgeStrength px py - penalty)%num.

(** One iteration of the inner loop on [(maxScore, bestX, bestY)]. *)
Definition visit (py : Z) (best : num * Z * Z) (px : Z) : num * Z * Z :=
  let '(maxScore, _, _) := best in
  if (edgeStrength px py <? Fin 5)%num then best
  else if (score px py >? maxScore)%num then (score px py, px, py)
  else best.

Definition scanRow (startX endX : Z) (best : num * Z * Z) (py : Z)
    : num * Z * Z :=
  fold_left (visit py) (Zrange startX endX) best.

Definition scan (startX startY endX endY : Z) : num * Z * Z :=
  fold_left (scanRow startX endX) (Zrange startY endY) (Fin (-1), imgX, imgY).

End Scan.

(** The window of candidate pixels around the cursor pixel [(imgX, imgY)],
    clamped to the image: [(startX, startY, endX, endY)]. *)
Definition snapWindow (img : Image.t) (imgX imgY : Z) : Z * Z * Z * Z :=
  let r := 8%Z in
  (Z.max 1 (imgX - r), Z.max 1 (imgY - r),
   Z.min (Image.width img - 1) (imgX + r),
   Z.min (Image.height img - 1) (imgY + r))%Z.

(** The window read from the canvas, one pixel wider on each side:
    [(padStartX, padStartY, padW, padH)]. *)
Definition snapPad (img : Image.t) (startX startY endX endY : Z)
    : Z * Z * Z * Z :=
  let padStartX := Z.max 0 (startX - 1) in
  let padStartY := Z.max 0 (startY - 1) in
  (padStartX, padStartY,
   Z.min (Image.width img) (endX + 2) - padStartX,
   Z.min (Image.height img) (endY + 2) - padStartY)%Z.

(** [snapToEdge(worldX, worldY, targetImage, prevPoints)].  The cursor pixel
    is an integer when the cursor is finite.  For a cursor that is not, the
    window bounds are infinite or NaN: the window test returns the cursor
    when a bound is infinite; with a NaN bound the test is false and the
    code asks the canvas for a window of NaN size, on which
    [ctx.getImageData] throws.  The last case below returns the cursor in
    both cases: the throw is not modelled, and the properties of the
    magnet are stated for finite cursors. *)
Definition snapToEdge (worldX worldY : num) (targetImage : option Image.t)
    (prevPoints : option (list Point.t)) : Point.t :=
  match targetImage with
  | None => Point.mk worldX worldY
  | Some img =>
      match (worldX + of_Z (Image.width img) / Fin 2)%num,
            (worldY + of_Z (Image.height img) / Fin 2)%num with
      | Fin ax, Fin ay =>
          let imgX := round_half_up ax in
          let imgY := round_half_up ay in
          let '(dirX, dirY, hasDirection) := drawingDirection prevPoints in
          let perpX := if hasDirection then nneg dirY else Fin 0 in
          let perpY := if hasDirection then dirX else Fin 0 in
          let '(startX, startY, endX, endY) := snapWindow img imgX imgY in
          if ((endX - startX <=? 2) || (endY - startY <=? 2))%Z%bool
          then Point.mk worldX worldY
          else
            let '(padStartX, padStartY, padW, padH) :=
              snapPad img startX startY endX endY in
            let data := getImageData img padStartX padStartY padW padH in
            let '(maxScore, bestX, bestY) :=
              scan data padStartX padStartY padW imgX imgY
                   dirX dirY perpX perpY hasDirection
                   startX startY endX endY in
            if (maxScore <? Fin 5)%num then Point.mk worldX worldY
            else
              let maxSnap := Fin 6 in
              let snapX := (of_Z bestX - of_Z (Image.width img) / Fin 2)%num in
              let snapY := (of_Z bestY - of_Z (Image.height img) / Fin 2)%num in
              let snapDx := (snapX - worldX)%num in
              let snapDy := (snapY - worldY)%num in
              let snapDist := Math_hypot snapDx snapDy in
              if (snapDist >? maxSnap)%num then
                let clampScale := (maxSnap / snapDist)%num in
                Point.mk (worldX + snapDx * clampScale)%num
                         (worldY + snapDy * clampScale)%num
              else Point.mk snapX snapY
      | _, _ => Point.mk worldX worldY
      end
  end.

(* ------------------------------------------------------------------ *)
(** ** Viewport transform: screen to world *)

Definition toWorkspaceWorld (s : State) (cX cY : num) : Point.t :=
  let r := rect s in
  let t := transform s in
  let cx := (Rect.width r / Fin 2)%num in
  let cy := (Rect.height r / Fin 2)%num in
  Point.mk ((cX - Rect.left r - cx) / Transform.k t - Transform.x t)%num
           ((cY - Rect.top r - cy) / Transform.k t - Transform.y t)%num.

Definition toReferenceWorld (s : State) (cX cY : num) : Point.t :=
  let r := rect s in
  let availW := (Rect.width r * (Fin 1 - sliderPos s))%num in
  let startX := (Rect.width r * sliderPos s)%num in
  let cx := (startX + availW / Fin 2)%num in
  let cy := (Rect.height r / Fin 2)%num in
  let t := refTransform s in
  Point.mk ((cX - Rect.left r - cx) / Transform.k t - Transform.x t)%num
           ((cY - Rect.top r - cy) / Transform.k t - Transform.y t)%num.

Definition toWorld (side : Side) (s : State) (cX cY : num) : Point.t :=
  match side with
  | sideLeft => toWorkspaceWorld s cX cY
  | sideRight => toReferenceWorld s cX cY
  end.

Definition getDist (p1 p2 : PointerEvent) : num :=
  Math_hypot (clientX p1 - clientX p2) (clientY p1 - clientY p2).

Definition getCenter (p1 p2 : PointerEvent) : Point.t :=
  Point.mk ((clientX p1 + clientX p2) / Fin 2)%num
           ((clientY p1 + clientY p2) / Fin 2)%num.

(** [(e.clientX - rect.left) / rect.width] *)
Definition xPct (s : State) (cX : num) : num :=
  ((cX - Rect.left (rect s)) / Rect.width (rect s))%num.

(** The transform object a gesture works on,
    [activeSide.current === 'left' ? transform.current : refTransform.current],
    and the assignment of its fields. *)
Definition activeTransform (s : State) : Transform.t :=
  match activeSide s with
  | sideLeft => transform s
  | sideRight => refTransform s
  end.

Definition set_activeTransform (t : Transform.t) (s : State) : State :=
  match activeSide s with
  | sideLeft => set_transform t s
  | sideRight => set_refTransform t s
  end.

(** [t.x += dx / t.k; t.y += dy / t.k] *)
Definition addPan (dx dy : num) (t : Transform.t) : Transform.t :=
  Transform.mk (Transform.x t + dx / Transform.k t)%num
               (Transform.y t + dy / Transform.k t)%num
               (Transform.k t).

(** [Math.max(0.1, Math.min(v, 10))] *)
Definition clampK (v : num) : num := Math_max (Fin 0.1) (Math_min v (Fin 10)).

(** [t.k = Math.max(0.1, Math.min(t.k * factor, 10))] *)
Definition scaleBy (factor : num) (t : Transform.t) : Transform.t :=
  Transform.mk (Transform.x t) (Transform.y t)
               (clampK (Transform.k t * factor)).

Definition set_lastDist (v : num) (s : State) : State :=
  let g := gestureState s in
  set_gestureState (mkGestureState v (lastCenter g) (lastPos g)) s.

Definition set_lastCenter (v : option Point.t) (s : State) : State :=
  let g := gestureState s in
  set_gestureState (mkGestureState (lastDist g) v (lastPos g)) s.

Definition set_lastPos (v : option Point.t) (s : State) : State :=
  let g := gestureState s in
  set_gestureState (mkGestureState (lastDist g) (lastCenter g) v) s.

Definition isSome {A : Type} (o : option A) : bool :=
  match o with Some _ => true | None => false end.

Definition lastPoint (pp : list Point.t) : option Point.t :=
  match pp with
  | [] => None
  | p :: rest => Some (last rest p)
  end.

Definition sideOf (s : State) (e : PointerEvent) : Side :=
  if isComparing s && (xPct s (clientX e) >? sliderPos s)%num
  then sideRight else sideLeft.

Definition imageOf (side : Side) (s : State) : option Image.t :=
  match side with
  | sideLeft => image s
  | sideRight => referenceImage s
  end.

(* ------------------------------------------------------------------ *)
(** ** Gesture dispatcher *)

(** The seed point of a stroke: with the magnet tool on an image, 30% raw
    and 70% snapped. *)
Definition seedPoint (side : Side) (s : State) (e : PointerEvent) : Point.t :=
  let targetImg := imageOf side s in
  let wp := toWorld side s (clientX e) (clientY e) in
  if Tool_eqb (tool s) magnet && isSome targetImg then
    let snapped := snapToEdge (Point.x wp) (Point.y wp) targetImg None in
    Point.mk (Point.x wp * Fin 0.3 + Point.x snapped * Fin 0.7)%num
             (Point.y wp * Fin 0.3 + Point.y snapped * Fin 0.7)%num
  else wp.

(** The guard [isComparing && Math.abs(xPct - sliderPos) < 0.05] under
    which a pointer-down is ignored.  The comparison is exact here and in
    doubles in the code: at a distance of 0.05 up to rounding the two can
    differ (see [clearOfDivider] and [insideDividerBand]). *)
Definition nearDivider (e : PointerEvent) (s : State) : bool :=
  isComparing s && (Math_abs (xPct s (clientX e) - sliderPos s) <? Fin 0.05)%num.

Definition handlePointerDown (e : PointerEvent) (s : State) : State :=
  if (button e =? 1)%Z then
    (* middle mouse button panning *)
    set_activeSide (sideOf s e)
      (set_middleMouseLastPos (Some (Point.mk (clientX e) (clientY e)))
         (set_isMiddleMousePanning true s))
  else if nearDivider e s then s
  else
    let side := sideOf s e in
    let s := set_activeSide side s in
    let s := set_pointers (Map_set (pointerId e) e (pointers s)) s in
    match Map_values (pointers s) with
    | [p0; p1] =>
        let s := set_currentPath None s in
        let s := set_currentRefPath None s in
        let s := set_lastDist (getDist p0 p1) s in
        set_lastCenter (Some (getCenter p0 p1)) s
    | [_] =>
        if Tool_eqb (tool s) hand then
          set_lastPos (Some (Point.mk (clientX e) (clientY e))) s
        else
          let wp := seedPoint side s e in
          let newPath :=
            Path.mk [wp] (color s) (size s) (Tool_eqb (tool s) eraser) in
          match side with
          | sideLeft => set_currentPath (Some newPath) s
          | sideRight => set_currentRefPath (Some newPath) s
          end
    | _ => s
    end.

(** The point a magnet-assisted move proposes: 20% raw and 80% snapped,
    then 70% of that and 30% of the stroke's last point, then at most 4
    units away from the raw cursor. *)
Definition magnetPoint (rawWp : Point.t) (targetImg : option Image.t)
    (pp : list Point.t) : Point.t :=
  let snapped := snapToEdge (Point.x rawWp) (Point.y rawWp) targetImg (Some pp) in
  let wp := Point.mk (Point.x rawWp * Fin 0.2 + Point.x snapped * Fin 0.8)%num
                     (Point.y rawWp * Fin 0.2 + Point.y snapped * Fin 0.8)%num in
  let wp :=
    match lastPoint pp with
    | Some l =>
        Point.mk (Point.x wp * Fin 0.7 + Point.x l * Fin 0.3)%num
                 (Point.y wp * Fin 0.7 + Point.y l * Fin 0.3)%num
    | None => wp
    end in
  let driftX := (Point.x wp - Point.x rawWp)%num in
  let driftY := (Point.y wp - Point.y rawWp)%num in
  let driftDist := Math_hypot driftX driftY in
  let maxDrift := Fin 4 in
  if (driftDist >? maxDrift)%num then
    let c := (maxDrift / driftDist)%num in
    Point.mk (Point.x rawWp + driftX * c)%num (Point.y rawWp + driftY * c)%num
  else wp.

(** The draw branch of a move: [pp.push(wp)] on the in-progress path of the
    active side when the point is far enough from the last one.  A path is
    created with one point and only grows, so [pp[pp.length - 1]] is
    defined; the state is left as it is otherwise. *)
Definition drawMove (e : PointerEvent) (s : State) : State :=
  let side := activeSide s in
  let targetPath :=
    match side with
    | sideLeft => currentPath s
    | sideRight => currentRefPath s
    end in
  let targetImg := imageOf side s in
  match targetPath with
  | None => s
  | Some tp =>
      let pp := Path.points tp in
      let wp := toWorld side s (clientX e) (clientY e) in
      let wp :=
        if Tool_eqb (tool s) magnet && isSome targetImg
        then magnetPoint wp targetImg pp else wp in
      match lastPoint pp with
      | None => s
      | Some l =>
          let dist :=
            Math_hypot (Point.x wp - Point.x l) (Point.y wp - Point.y l) in
          let minDistance := if Tool_eqb (tool s) magnet then Fin 3 else Fin 1 in
          if (dist >? minDistance)%num then
            let tp' := Path.mk (Array_push pp wp) (Path.color tp)
                               (Path.size tp) (Path.isEraser tp) in
            match side with
            | sideLeft => set_currentPath (Some tp') s
            | sideRight => set_currentRefPath (Some tp') s
            end
          else s
      end
  end.

(** The two-pointer branch of a move: zoom by the ratio of the distances,
    pan by the displacement of the midpoint. *)
Definition pinchMove (p0 p1 : PointerEvent) (s : State) : State :=
  let dist := getDist p0 p1 in
  let center := getCenter p0 p1 in
  let lastDist := (lastDist (gestureState s) || dist)%num in
  let lastCenter :=
    match lastCenter (gestureState s) with
    | Some c => c
    | None => center
    end in
  let zoom := (dist / lastDist)%num in
  let t := scaleBy zoom (activeTransform s) in
  let dx := (Point.x center - Point.x lastCenter)%num in
  let dy := (Point.y center - Point.y lastCenter)%num in
  let s := set_activeTransform (addPan dx dy t) s in
  let s := set_lastDist dist s in
  set_lastCenter (Some center) s.

(** While the middle button pans, [middleMouseLastPos.current] holds the
    last position (both are set together by the pointer-down); the state is
    left as it is otherwise. *)
Definition handlePointerMove (e : PointerEvent) (s : State) : State :=
  if isMiddleMousePanning s then
    match middleMouseLastPos s with
    | None => s
    | Some l =>
        let dx := (clientX e - Point.x l)%num in
        let dy := (clientY e - Point.y l)%num in
        let s := set_activeTransform (addPan dx dy (activeTransform s)) s in
        set_middleMouseLastPos (Some (Point.mk (clientX e) (clientY e))) s
    end
  else if negb (Map_has (pointerId e) (pointers s)) then s
  else
    let s := set_pointers (Map_set (pointerId e) e (pointers s)) s in
    match Map_values (pointers s) with
    | [p0; p1] => pinchMove p0 p1 s
    | [_] =>
        if Tool_eqb (tool s) hand then
          let l :=
            match lastPos (gestureState s) with
            | Some l => l
            | None => Point.mk (clientX e) (clientY e)
            end in
          let dx := (clientX e - Point.x l)%num in
          let dy := (clientY e - Point.y l)%num in
          let s := set_activeTransform (addPan dx dy (activeTransform s)) s in
          set_lastPos (Some (Point.mk (clientX e) (clientY e))) s
        else drawMove e s
    | _ => s
    end.

(** Committing the in-progress path of the workspace, and of the reference
    pane. *)
Definition commitPath (s : State) : State :=
  match currentPath s with
  | None => s
  | Some p =>
      let s := set_history (Array_push (history s) (paths s)) s in
      let s := set_redoStack [] s in
      let s := set_paths (Array_push (paths s) p) s in
      set_currentPath None s
  end.

Definition commitRefPath (s : State) : State :=
  match currentRefPath s with
  | None => s
  | Some p =>
      let s := set_refHistory (Array_push (refHistory s) (refPaths s)) s in
      let s := set_refRedoStack [] s in
      let s := set_refPaths (Array_push (refPaths s) p) s in
      set_currentRefPath None s
  end.

Definition handlePointerUp (e : PointerEvent) (s : State) : State :=
  if isMiddleMousePanning s && (button e =? 1)%Z then
    set_middleMouseLastPos None (set_isMiddleMousePanning false s)
  else
    let s := set_pointers (Map_delete (pointerId e) (pointers s)) s in
    let s := commitPath s in
    let s := commitRefPath s in
    match Map_values (pointers s) with
    | [p] => set_lastPos (Some (Point.mk (clientX p) (clientY p))) s
    | _ => s
    end.

Definition handleWheel (e : WheelEvent) (s : State) : State :=
  let factor := if (deltaY e <? Fin 0)%num then Fin 1.1 else Fin 0.9 in
  if isComparing s && (xPct s (wheelX e) >? sliderPos s)%num
  then set_refTransform (scaleBy factor (refTransform s)) s
  else set_transform (scaleBy factor (transform s)) s.


(** A stream of pointer events and the state it leads to. *)
Inductive Input : Type :=
| Down (e : PointerEvent)
| Move (e : PointerEvent)
| Up (e : PointerEvent).

Definition step (s : State) (i : Input) : State :=
  match i with
  | Down e => handlePointerDown e s
  | Move e => handlePointerMove e s
  | Up e => handlePointerUp e s
  end.

Definition run (inputs : list Input) (s : State) : State :=
  fold_left step inputs s.

Definition isDown (i : Input) : bool :=
  match i with Down _ => true | _ => false end.

(* ------------------------------------------------------------------ *)
(** ** Ink history *)

Definition handleUndo (s : State) : State :=
  match Array_pop (history s) with
  | (rest, Some top) =>
      let s := set_redoStack (Array_push (redoStack s) (paths s)) s in
      let s := set_history rest s in
      set_paths top s
  | (_, None) => s
  end.

Definition handleRedo (s : State) : State :=
  match Array_pop (redoStack s) with
  | (rest, Some top) =>
      let s := set_history (Array_push (history s) (paths s)) s in
      let s := set_redoStack rest s in
      set_paths top s
  | (_, None) => s
  end.

Definition handleRefUndo (s : State) : State :=
  match Array_pop (refHistory s) with
  | (rest, Some top) =>
      let s := set_refRedoStack (Array_push (refRedoStack s) (refPaths s)) s in
      let s := set_refHistory rest s in
      set_refPaths top s
  | (_, None) => s
  end.

Definition handleRefRedo (s : State) : State :=
  match Array_pop (refRedoStack s) with
  | (rest, Some top) =>
      let s := set_refHistory (Array_push (refHistory s) (refPaths s)) s in
      let s := set_refRedoStack rest s in
      set_refPaths top s
  | (_, None) => s
  end.

Definition handleClear (s : State) : State :=
  let s := set_history (Array_push (history s) (paths s)) s in
  let s := set_redoStack [] s in
  set_paths [] s.

Definition handleRefClear (s : State) : State :=
  let s := set_refHistory (Array_push (refHistory s) (refPaths s)) s in
  let s := set_refRedoStack [] s in
  set_refPaths [] s.

(* ------------------------------------------------------------------ *)
(** ** Image load and recenter *)

(** [Math.min(availW / img.width, availH / img.height) * 0.9] *)
Definition scaleFit (availW availH : num) (img : Image.t) : num :=
  (Math_min (availW / of_Z (Image.width img))
            (availH / of_Z (Image.height img)) * Fin 0.9)%num.

Definition workspaceAvailW (s : State) : num :=
  if isComparing s then (Rect.width (rect s) * sliderPos s)%num
  else Rect.width (rect s).

Definition referenceAvailW (s : State) : num :=
  (Rect.width (rect s) * (Fin 1 - sliderPos s))%num.

(** The [img.onload] callback of [handleFile]. *)
Definition handleFile (img : Image.t) (s : State) : State :=
  let k := scaleFit (workspaceAvailW s) (Rect.height (rect s)) img in
  let s := set_image (Some img) s in
  let s := set_transform (Transform.mk (Fin 0) (Fin 0) k) s in
  let s := set_paths [] s in
  set_history [] s.

(** The [img.onload] callback of [handleReferenceFile]. *)
Definition handleReferenceFile (img : Image.t) (s : State) : State :=
  let k := scaleFit (referenceAvailW s) (Rect.height (rect s)) img in
  let s := set_referenceImage (Some img) s in
  let s := set_refPaths [] s in
  let s := set_refHistory [] s in
  let s := set_refTransform (Transform.mk (Fin 0) (Fin 0) k) s in
  set_isComparing true s.

Definition recenterImage (s : State) : State :=
  match image s with
  | None => s
  | Some img =>
      let k := scaleFit (workspaceAvailW s) (Rect.height (rect s)) img in
      set_transform (Transform.mk (Fin 0) (Fin 0) k) s
  end.

Definition recenterReferenceImage (s : State) : State :=
  match referenceImage s with
  | None => s
  | Some img =>
      let k := scaleFit (referenceAvailW s) (Rect.height (rect s)) img in
      set_refTransform (Transform.mk (Fin 0) (Fin 0) k) s
  end.

(* ------------------------------------------------------------------ *)
(** ** Render compositor: world to screen *)

(** The current transformation matrix of the 2D context, for the calls the
    compositor makes ([scale] and [translate]): a user-space point
    [(u, v)] is painted at canvas pixel [(a * u + e, d * v + f)]. *)
Module Ctx.
Record t : Type := mk { a : num; d : num; e : num; f : num }.

Definition identity : t := mk (Fin 1) (Fin 1) (Fin 0) (Fin 0).

Definition scale (sx sy : num) (m : t) : t :=
  mk (a m * sx)%num (d m * sy)%num (e m) (f m).

Definition translate (tx ty : num) (m : t) : t :=
  mk (a m) (d m) (e m + a m * tx)%num (f m + d m * ty)%num.

Definition apply (m : t) (p : Point.t) : Point.t :=
  Point.mk (a m * Point.x p + e m)%num (d m * Point.y p + f m)%num.
End Ctx.

(** The matrix under which [drawWorkspace(ctx, dpr, rect, sliderPosition)]
    paints the image and the ink paths. *)
Definition drawWorkspace (s : State) (dpr sliderPosition : num) : Ctx.t :=
  let t := transform s in
  let leftPaneWidth := (Rect.width (rect s) * sliderPosition)%num in
  let cx := if isComparing s then (leftPaneWidth / Fin 2)%num
            else (Rect.width (rect s) / Fin 2)%num in
  let cy := (Rect.height (rect s) / Fin 2)%num in
  Ctx.translate (Transform.x t) (Transform.y t)
    (Ctx.scale (Transform.k t) (Transform.k t)
       (Ctx.translate cx cy (Ctx.scale dpr dpr Ctx.identity))).

(** The matrix under which [drawReference(ctx, dpr, rect)] paints, when it
    paints: the image and the ink are painted only [if (referenceImage)],
    and [draw] calls [drawReference] only in comparison mode (see
    [inkIsPainted] and [draw]). *)
Definition drawReference (s : State) (dpr : num) : Ctx.t :=
  let availW := (Rect.width (rect s) * (Fin 1 - sliderPos s))%num in
  let startX := (Rect.width (rect s) * sliderPos s)%num in
  let cx := (startX + availW / Fin 2)%num in
  let cy := (Rect.height (rect s) / Fin 2)%num in
  let t := refTransform s in
  Ctx.translate (Transform.x t) (Transform.y t)
    (Ctx.scale (Transform.k t) (Transform.k t)
       (Ctx.translate cx cy (Ctx.scale dpr dpr Ctx.identity))).

(** [draw]: the workspace is painted with slider position 1 outside
    comparison mode and with [sliderPos] in comparison mode. *)
Definition workspaceMatrix (s : State) (dpr : num) : Ctx.t :=
  if isComparing s then drawWorkspace s dpr (sliderPos s)
  else drawWorkspace s dpr (Fin 1).

(** The canvas fills the container and has [rect.width * dpr] pixels
    across it: canvas pixel [(u, v)] is seen at client position
    [(rect.left + u / dpr, rect.top + v / dpr)]. *)
Definition canvasToClient (s : State) (dpr : num) (p : Point.t) : Point.t :=
  Point.mk (Rect.left (rect s) + Point.x p / dpr)%num
           (Rect.top (rect s) + Point.y p / dpr)%num.

(** Where a world point of the workspace, and of the reference pane, is
    seen on screen. *)
Definition workspaceToClient (s : State) (dpr : num) (w : Point.t) : Point.t :=
  canvasToClient s dpr (Ctx.apply (workspaceMatrix s dpr) w).

Definition referenceToClient (s : State) (dpr : num) (w : Point.t) : Point.t :=
  canvasToClient s dpr (Ctx.apply (drawReference s dpr) w).

(* ------------------------------------------------------------------ *)
(** ** Vocabulary of the statements *)

(** *** The ink of a pane *)

(** A pointer-up that is not the release of a middle-button pan. *)
Definition releases (e : PointerEvent) (s : State) : Prop :=
  isMiddleMousePanning s && (button e =? 1)%Z = false.

(** The stroke list, the history stack and the redo stack of the
    workspace, and of the reference pane. *)
Definition leftInk (s : State) : list Path.t * list (list Path.t) * list (list Path.t) :=
  (paths s, history s, redoStack s).

Definition rightInk (s : State) : list Path.t * list (list Path.t) * list (list Path.t) :=
  (refPaths s, refHistory s, refRedoStack s).

(** The same by pane, with the pane's undo and redo handlers. *)
Definition strokes (side : Side) (s : State) : list Path.t :=
  match side with sideLeft => paths s | sideRight => refPaths s end.

Definition undoStack (side : Side) (s : State) : list (list Path.t) :=
  match side with sideLeft => history s | sideRight => refHistory s end.

Definition redoEntries (side : Side) (s : State) : list (list Path.t) :=
  match side with sideLeft => redoStack s | sideRight => refRedoStack s end.

Definition inProgress (side : Side) (s : State) : option Path.t :=
  match side with sideLeft => currentPath s | sideRight => currentRefPath s end.

Definition undo (side : Side) : State -> State :=
  match side with sideLeft => handleUndo | sideRight => handleRefUndo end.

Definition redo (side : Side) : State -> State :=
  match side with sideLeft => handleRedo | sideRight => handleRefRedo end.

Definition ink (side : Side) (s : State)
    : list Path.t * list (list Path.t) * list (list Path.t) :=
  (strokes side s, undoStack side s, redoEntries side s).

(** No stroke is in progress, in either pane. *)
Definition noStroke (s : State) : Prop :=
  currentPath s = None /\ currentRefPath s = None.

(** *** The transform of a pane *)

Definition transformOf (side : Side) (s : State) : Transform.t :=
  match side with sideLeft => transform s | sideRight => refTransform s end.

(** The scale of a pane is a number within [0.1, 10]. *)
Definition kInRange (side : Side) (s : State) : Prop :=
  exists k, Transform.k (transformOf side s) = Fin k /\ 0.1 <= k <= 10.

(** The pane a wheel event zooms:
    [(isComparing && xPct > sliderPos) ? refTransform : transform]. *)
Definition wheelSide (e : WheelEvent) (s : State) : Side :=
  if isComparing s && (xPct s (wheelX e) >? sliderPos s)%num
  then sideRight else sideLeft.

(** The client position that [toWorkspaceWorld], and [toReferenceWorld],
    take as the centre of the pane: [(rect.left + cx, rect.top + cy)]. *)
Definition paneCentre (side : Side) (s : State) : Point.t :=
  let r := rect s in
  let cx :=
    match side with
    | sideLeft => (Rect.width r / Fin 2)%num
    | sideRight =>
        (Rect.width r * sliderPos s + Rect.width r * (Fin 1 - sliderPos s) / Fin 2)%num
    end in
  Point.mk (Rect.left r + cx)%num (Rect.top r + Rect.height r / Fin 2)%num.

(** The container and the slider position are finite numbers. *)
Definition finiteLayout (s : State) : Prop :=
  exists l t w h sp,
    rect s = Rect.mk (Fin l) (Fin t) (Fin w) (Fin h) /\ sliderPos s = Fin sp.

(** The zoom ratio of a two-pointer move, [dist / (lastDist || dist)], and
    the displacement of the midpoint, [center - (lastCenter || center)]. *)
Definition pinchZoom (p0 p1 : PointerEvent) (s : State) : num :=
  (getDist p0 p1 / (lastDist (gestureState s) || getDist p0 p1))%num.

Definition pinchDelta (p0 p1 : PointerEvent) (s : State) : Point.t :=
  let center := getCenter p0 p1 in
  let lastCenter :=
    match lastCenter (gestureState s) with Some c => c | None => center end in
  Point.mk (Point.x center - Point.x lastCenter)%num
           (Point.y center - Point.y lastCenter)%num.

(** *** The edge-snap analyzer *)

(** The cursor pixel [(imgX, imgY)] of a finite cursor. *)
Definition cursorPixel (img : Image.t) (wx wy : R) : Z * Z :=
  (round_half_up (wx + IZR (Image.width img) / 2),
   round_half_up (wy + IZR (Image.height img) / 2)).

(** The strength of a candidate pixel of the window of an image, as
    [snapToEdge] reads it. *)
Definition candidateStrength (img : Image.t) (startX startY endX endY : Z)
    (px py : Z) : num :=
  let '(padStartX, padStartY, padW, padH) :=
    snapPad img startX startY endX endY in
  edgeStrength (getImageData img padStartX padStartY padW padH)
    padStartX padStartY padW px py.

(** The Euclidean distance between two finite points. *)
Definition distance (x1 y1 x2 y2 : R) : R :=
  sqrt ((x1 - x2) * (x1 - x2) + (y1 - y2) * (y1 - y2)).

(** An image whose pixels all have the channels [rgba], its luminance as
    [lum] computes it, and an image of flat grey. *)
Definition flatImage (w h : Z) (rgba : Z -> Z) : Image.t :=
  Image.mk w h (fun _ _ c => rgba c).

Definition flatLum (rgba : Z -> Z) : R :=
  (IZR (rgba 0%Z) * 0.299 + IZR (rgba 1%Z) * 0.587 + IZR (rgba 2%Z) * 0.114)
  * (IZR (rgba 3%Z) / 255).

Definition greyImage (w h : Z) : Image.t := flatImage w h (fun _ => 128%Z).

(** *** Sample inputs *)

(** An 800 x 600 container at the origin, a three-point pen stroke, a
    one-point stroke, and a pointer event of the primary button. *)
Definition screen : Rect.t := Rect.mk (Fin 0) (Fin 0) (Fin 800) (Fin 600).

Definition stroke3 : Path.t :=
  Path.mk [Point.mk (Fin 0) (Fin 0); Point.mk (Fin 5) (Fin 0); Point.mk (Fin 5) (Fin 5)]
    "#FF4444" (Fin 12) false.

Definition dot : Path.t :=
  Path.mk [Point.mk (Fin 1) (Fin 1)] "#4488FF" (Fin 12) false.

Definition pointerAt (id : Z) (cx cy : R) : PointerEvent :=
  mkPointerEvent id (Fin cx) (Fin cy) 0.

(** The pane [side] while [stroke3] is being drawn by pointer 1. *)
Definition drawing (side : Side) : State :=
  let s := set_pointers [(1%Z, pointerAt 1 405 305)] (initialState screen) in
  match side with
  | sideLeft => set_currentPath (Some stroke3) s
  | sideRight => set_currentRefPath (Some stroke3) s
  end.

(** Comparison mode on, with the slider at its initial position 0.5. *)
Definition comparing : State := set_isComparing true (initialState screen).

(** Two fingers down on the workspace, 200 pixels apart on one line. *)
Definition pinching : State :=
  run [Down (pointerAt 1 300 300); Down (pointerAt 2 500 300)]
      (initialState screen).

(* ------------------------------------------------------------------ *)
(** ** The ink arrays as JavaScript objects

    [paths.current] is an array object: [push] changes it in place, and
    whoever holds the same reference sees the change.  [Refs] models one
    pane's ink with the arrays in a store, addressed by reference, to check
    that the lists of the state above are what the code computes: every
    entry of a stack is a fresh copy ([[...paths.current]]), and the array
    that [pop] hands to [paths.current] leaves its stack.  The path objects
    inside the arrays are shared by the copies, but a path is not written
    to once it is committed ([currentPath.current] is set to [null]). *)
Module Refs.

Record Store : Type := mkStore {
  cell : nat -> list Path.t;   (* the array at an address *)
  next : nat                   (* the next free address *)
}.

(** A new array object with the given elements. *)
Definition alloc (a : list Path.t) (st : Store) : nat * Store :=
  (next st,
   mkStore (fun l => if Nat.eqb l (next st) then a else cell st l)
           (S (next st))).

(** Assignment to the elements of the array at [l]. *)
Definition update (l : nat) (a : list Path.t) (st : Store) : Store :=
  mkStore (fun l' => if Nat.eqb l' l then a else cell st l') (next st).

(** One pane: the store, the reference held by [paths.current], and the
    references held by the history and redo stacks. *)
Record Ink : Type := mkInk {
  store : Store;
  pathsRef : nat;
  historyRefs : list nat;
  redoRefs : list nat
}.

(** [history.current.push([...paths.current]); redoStack.current = [];
    paths.current.push(p)] *)
Definition commit (p : Path.t) (k : Ink) : Ink :=
  let '(copy, st) := alloc (cell (store k) (pathsRef k)) (store k) in
  let st := update (pathsRef k) (Array_push (cell st (pathsRef k)) p) st in
  mkInk st (pathsRef k) (Array_push (historyRefs k) copy) [].

(** [redoStack.current.push([...paths.current]);
    paths.current = history.current.pop()] *)
Definition undo (k : Ink) : Ink :=
  match Array_pop (historyRefs k) with
  | (rest, Some top) =>
      let '(copy, st) := alloc (cell (store k) (pathsRef k)) (store k) in
      mkInk st top rest (Array_push (redoRefs k) copy)
  | (_, None) => k
  end.

(** [history.current.push([...paths.current]);
    paths.current = redoStack.current.pop()] *)
Definition redo (k : Ink) : Ink :=
  match Array_pop (redoRefs k) with
  | (rest, Some top) =>
      let '(copy, st) := alloc (cell (store k) (pathsRef k)) (store k) in
      mkInk st top (Array_push (historyRefs k) copy) rest
  | (_, None) => k
  end.

(** [history.current.push([...paths.current]); redoStack.current = [];
    paths.current = []] *)
Definition clear (k : Ink) : Ink :=
  let '(copy, st) := alloc (cell (store k) (pathsRef k)) (store k) in
  let '(fresh, st) := alloc [] st in
  mkInk st fresh (Array_push (historyRefs k) copy) [].

(** Image load: [paths.current = []; history.current = []]. *)
Definition load (k : Ink) : Ink :=
  let '(fresh, st) := alloc [] (store k) in
  mkInk st fresh [] (redoRefs k).

(** The lists that the references stand for. *)
Definition view (k : Ink)
    : list Path.t * list (list Path.t) * list (list Path.t) :=
  (cell (store k) (pathsRef k),
   map (cell (store k)) (historyRefs k),
   map (cell (store k)) (redoRefs k)).

(** No array is held twice, and every reference is allocated. *)
Definition separate (k : Ink) : Prop :=
  NoDup (pathsRef k :: historyRefs k ++ redoRefs k) /\
  forall l, In l (pathsRef k :: historyRefs k ++ redoRefs k) -> (l < next (store k))%nat.

(** A freshly mounted pane: an empty [paths.current] and empty stacks. *)
Definition initial : Ink := mkInk (mkStore (fun _ => []) 1) 0 [] [].

End Refs.

(** The same operations on the lists themselves. *)
Definition inkCommit (p : Path.t)
    (v : list Path.t * list (list Path.t) * list (list Path.t))
    : list Path.t * list (list Path.t) * list (list Path.t) :=
  let '(ps, h, _) := v in (Array_push ps p, Array_push h ps, []).

Definition inkUndo (v : list Path.t * list (list Path.t) * list (list Path.t))
    : list Path.t * list (list Path.t) * list (list Path.t) :=
  let '(ps, h, r) := v in
  match Array_pop h with
  | (rest, Some top) => (top, rest, Array_push r ps)
  | (_, None) => v
  end.

Definition inkRedo (v : list Path.t * list (list Path.t) * list (list Path.t))
    : list Path.t * list (list Path.t) * list (list Path.t) :=
  let '(ps, h, r) := v in
  match Array_pop r with
  | (rest, Some top) => (top, Array_push h ps, rest)
  | (_, None) => v
  end.

Definition inkClear (v : list Path.t * list (list Path.t) * list (list Path.t))
    : list Path.t * list (list Path.t) * list (list Path.t) :=
  let '(ps, h, _) := v in ([], Array_push h ps, []).

Definition inkLoad (v : list Path.t * list (list Path.t) * list (list Path.t))
    : list Path.t * list (list Path.t) * list (list Path.t) :=
  let '(_, _, r) := v in ([], [], r).

(* ------------------------------------------------------------------ *)
(** ** The rest of the component *)

(** *** React state set from the toolbar, and the container's rectangle *)

Definition set_tool (v : Tool) (s : State) : State :=
  mkState (image s) (referenceImage s) v (color s) (size s) (isComparing s)
    (sliderPos s) (paths s) (history s) (transform s) (currentPath s)
    (pointers s) (activeSide s) (gestureState s) (isMiddleMousePanning s)
    (middleMouseLastPos s) (redoStack s) (refRedoStack s) (refPaths s)
    (refHistory s) (refTransform s) (currentRefPath s) (rect s).

Definition set_color (v : string) (s : State) : State :=
  mkState (image s) (referenceImage s) (tool s) v (size s) (isComparing s)
    (sliderPos s) (paths s) (history s) (transform s) (currentPath s)
    (pointers s) (activeSide s) (gestureState s) (isMiddleMousePanning s)
    (middleMouseLastPos s) (redoStack s) (refRedoStack s) (refPaths s)
    (refHistory s) (refTransform s) (currentRefPath s) (rect s).

Definition set_size (v : num) (s : State) : State :=
  mkState (image s) (referenceImage s) (tool s) (color s) v (isComparing s)
    (sliderPos s) (paths s) (history s) (transform s) (currentPath s)
    (pointers s) (activeSide s) (gestureState s) (isMiddleMousePanning s)
    (middleMouseLastPos s) (redoStack s) (refRedoStack s) (refPaths s)
    (refHistory s) (refTransform s) (currentRefPath s) (rect s).

Definition set_sliderPos (v : num) (s : State) : State :=
  mkState (image s) (referenceImage s) (tool s) (color s) (size s)
    (isComparing s) v (paths s) (history s) (transform s) (currentPath s)
    (pointers s) (activeSide s) (gestureState s) (isMiddleMousePanning s)
    (middleMouseLastPos s) (redoStack s) (refRedoStack s) (refPaths s)
    (refHistory s) (refTransform s) (currentRefPath s) (rect s).

Definition set_rect (v : Rect.t) (s : State) : State :=
  mkState (image s) (referenceImage s) (tool s) (color s) (size s)
    (isComparing s) (sliderPos s) (paths s) (history s) (transform s)
    (currentPath s) (pointers s) (activeSide s) (gestureState s)
    (isMiddleMousePanning s) (middleMouseLastPos s) (redoStack s)
    (refRedoStack s) (refPaths s) (refHistory s) (refTransform s)
    (currentRefPath s) v.

(** *** Comparison slider

    [isDraggingSlider] is a ref of its own; an [App] is the state together
    with it. *)
Record App : Type := mkApp {
  appState : State;
  isDraggingSlider : bool
}.

Definition handleSliderDown (a : App) : App := mkApp (appState a) true.

Definition handleSliderMove (e : PointerEvent) (a : App) : App :=
  if negb (isDraggingSlider a) then a
  else
    let pos := Math_max (Fin 0) (Math_min (Fin 1) (xPct (appState a) (clientX e))) in
    mkApp (set_sliderPos pos (appState a)) (isDraggingSlider a).

Definition handleSliderUp (a : App) : App := mkApp (appState a) false.

Definition toggleCompare (s : State) : State :=
  set_isComparing (negb (isComparing s)) s.

(** *** Double click, resize and keyboard shortcuts *)

(** The [onDoubleClick] handler of the canvas. *)
Definition handleDoubleClick (e : PointerEvent) (s : State) : State :=
  if isComparing s && (xPct s (clientX e) >? sliderPos s)%num
  then recenterReferenceImage s
  else recenterImage s.

(** The [resize] listener; [r] is the rectangle the container has when the
    listener runs. *)
Definition handleResize (r : Rect.t) (s : State) : State :=
  let s := set_rect r s in
  let s :=
    match image s with
    | Some img =>
        let availW := if isComparing s then (Rect.width (rect s) * sliderPos s)%num
                      else Rect.width (rect s) in
        let scaleFit :=
          (Math_min (availW / of_Z (Image.width img))
                    (Rect.height (rect s) / of_Z (Image.height img)) * Fin 0.9)%num in
        set_transform (Transform.mk (Fin 0) (Fin 0) scaleFit) s
    | None => s
    end in
  match referenceImage s with
  | Some img =>
      let availW := (Rect.width (rect s) * (Fin 1 - sliderPos s))%num in
      let availH := Rect.height (rect s) in
      let scaleFit :=
        (Math_min (availW / of_Z (Image.width img))
                  (availH / of_Z (Image.height img)) * Fin 0.9)%num in
      set_refTransform (Transform.mk (Fin 0) (Fin 0) scaleFit) s
  | None => s
  end.

Record KeyEvent : Type := mkKeyEvent {
  ctrlKey : bool;
  metaKey : bool;
  shiftKey : bool;
  key : string
}.

Definition handleKeyDown (e : KeyEvent) (s : State) : State :=
  if (ctrlKey e || metaKey e) && String.eqb (key e) "z" && negb (shiftKey e)
  then handleUndo s
  else if (ctrlKey e || metaKey e) &&
          (String.eqb (key e) "y" || (String.eqb (key e) "z" && shiftKey e))
  then handleRedo s
  else s.

(** *** Everything the user can do

    The events of the canvas, of the slider, of the window and of the
    toolbar.  The undo and redo buttons are disabled on an empty stack,
    where the handlers do nothing either. *)
Inductive Action : Type :=
| Pointer (i : Input)
| Wheel (e : WheelEvent)
| DoubleClick (e : PointerEvent)
| SliderDown
| SliderMove (e : PointerEvent)
| SliderUp
| KeyDown (e : KeyEvent)
| Resize (r : Rect.t)
| ClickUndo (side : Side)
| ClickRedo (side : Side)
| ClickClear (side : Side)
| ImageLoaded (img : Image.t)
| ReferenceImageLoaded (img : Image.t)
| ToggleCompare
| PickTool (t : Tool)
| PickColor (c : string)
| PickSize (v : num).

Definition clear (side : Side) : State -> State :=
  match side with sideLeft => handleClear | sideRight => handleRefClear end.

Definition onState (f : State -> State) (a : App) : App :=
  mkApp (f (appState a)) (isDraggingSlider a).

Definition act (a : App) (x : Action) : App :=
  match x with
  | Pointer i => onState (fun s => step s i) a
  | Wheel e => onState (handleWheel e) a
  | DoubleClick e => onState (handleDoubleClick e) a
  | SliderDown => handleSliderDown a
  | SliderMove e => handleSliderMove e a
  | SliderUp => handleSliderUp a
  | KeyDown e => onState (handleKeyDown e) a
  | Resize r => onState (handleResize r) a
  | ClickUndo side => onState (undo side) a
  | ClickRedo side => onState (redo side) a
  | ClickClear side => onState (clear side) a
  | ImageLoaded img => onState (handleFile img) a
  | ReferenceImageLoaded img => onState (handleReferenceFile img) a
  | ToggleCompare => onState toggleCompare a
  | PickTool t => onState (set_tool t) a
  | PickColor c => onState (fun s => set_tool pen (set_color c s)) a
  | PickSize v => onState (set_size v) a
  end.

Definition perform (actions : list Action) (a : App) : App :=
  fold_left act actions a.

(** The freshly mounted component in a container of rectangle [r]. *)
Definition mounted (r : Rect.t) : App := mkApp (initialState r) false.

(** *** Painting a path ([renderPathToContext])

    The part of a 2D context that the function writes: the compositing
    mode, the stroke style, the line width, the current path, and what
    [stroke()] has painted so far, oldest first. *)
Module Canvas.

Inductive Composite : Type := source_over | destination_out.

Inductive Segment : Type :=
| MoveTo (x y : num)
| LineTo (x y : num)
| QuadraticCurveTo (cpx cpy x y : num)
| RectPath (x y w h : num).

Record Stroke : Type := mkStroke {
  composite : Composite;
  style : string;
  width : num;
  segments : list Segment
}.

Record t : Type := mk {
  globalCompositeOperation : Composite;
  strokeStyle : string;
  lineWidth : num;
  currentSubpath : list Segment;
  painted : list Stroke
}.

(** A fresh context. *)
Definition fresh : t := mk source_over "#000000" (Fin 1) [] [].

(** Where a segment leaves the pen. *)
Definition endOf (g : Segment) : Point.t :=
  match g with
  | MoveTo x y | LineTo x y | QuadraticCurveTo _ _ x y => Point.mk x y
  | RectPath x y _ _ => Point.mk x y
  end.

(** The control point of a curve. *)
Definition controlOf (g : Segment) : option Point.t :=
  match g with
  | QuadraticCurveTo cpx cpy _ _ => Some (Point.mk cpx cpy)
  | _ => None
  end.

(** [ctx.restore()] after a [ctx.save()] made in the state [saved]: the
    compositing mode, the stroke style and the line width are set back;
    the current path and what was painted stay. *)
Definition restore (saved ctx : t) : t :=
  mk (globalCompositeOperation saved) (strokeStyle saved) (lineWidth saved)
     (currentSubpath ctx) (painted ctx).

End Canvas.

(** [pts[i]]; the indices that [renderPathToContext] uses are within the
    array. *)
Definition pointAt (pts : list Point.t) (i : nat) : Point.t :=
  nth i pts (Point.mk NaN NaN).

(** One iteration of the loop of [renderPathToContext]: a curve through
    [pts[i]] to the midpoint of [pts[i]] and [pts[i + 1]]. *)
Definition curveThrough (pts : list Point.t) (i : nat) : Canvas.Segment :=
  let xc := ((Point.x (pointAt pts i) + Point.x (pointAt pts (i + 1))) / Fin 2)%num in
  let yc := ((Point.y (pointAt pts i) + Point.y (pointAt pts (i + 1))) / Fin 2)%num in
  Canvas.QuadraticCurveTo (Point.x (pointAt pts i)) (Point.y (pointAt pts i)) xc yc.

(** The segments that [renderPathToContext] adds to the current path for
    the points [pts] (at least one). *)
Definition pathSegments (pts : list Point.t) : list Canvas.Segment :=
  Canvas.MoveTo (Point.x (pointAt pts 0)) (Point.y (pointAt pts 0)) ::
  if (List.length pts <? 2)%nat then
    [Canvas.LineTo (Point.x (pointAt pts 0)) (Point.y (pointAt pts 0))]
  else
    let last := (List.length pts - 2)%nat in
    map (curveThrough pts) (seq 1 (List.length pts - 2 - 1)) ++
    [Canvas.QuadraticCurveTo
       (Point.x (pointAt pts last)) (Point.y (pointAt pts last))
       (Point.x (pointAt pts (last + 1))) (Point.y (pointAt pts (last + 1)))].

Definition renderPathToContext (ctx : Canvas.t) (p : Path.t) : Canvas.t :=
  if (List.length (Path.points p) <? 1)%nat then ctx
  else
    let op := if Path.isEraser p then Canvas.destination_out
              else Canvas.source_over in
    let style := if Path.isEraser p then "rgba(0,0,0,1)"%string else Path.color p in
    let segs := pathSegments (Path.points p) in
    Canvas.mk Canvas.source_over style (Path.size p) segs
      (Canvas.painted ctx ++ [Canvas.mkStroke op style (Path.size p) segs]).

(** [paths.forEach(p => renderPathToContext(ctx, p));
     if (current) renderPathToContext(ctx, current)] *)
Definition renderInk (ctx : Canvas.t) (ps : list Path.t)
    (current : option Path.t) : Canvas.t :=
  let ctx := fold_left renderPathToContext ps ctx in
  match current with
  | Some p => renderPathToContext ctx p
  | None => ctx
  end.

(** What [stroke()] paints for a path. *)
Definition strokeOf (p : Path.t) : Canvas.Stroke :=
  Canvas.mkStroke
    (if Path.isEraser p then Canvas.destination_out else Canvas.source_over)
    (if Path.isEraser p then "rgba(0,0,0,1)"%string else Path.color p)
    (Path.size p) (pathSegments (Path.points p)).

(** *** Export ([handleSave], [handleSaveRef])

    The paths are painted on a canvas of size [w] x [h] under
    [translate(w / 2, h / 2)]; the image is drawn at [(0, 0)], so that its
    pixel [(u, v)] is at canvas pixel [(u, v)]. *)
Definition exportMatrix (w h : num) : Ctx.t :=
  Ctx.translate (w / Fin 2)%num (h / Fin 2)%num Ctx.identity.

(** [handleSave]: the size of the export, the image drawn under the ink,
    and the paths painted. *)
Definition handleSave (s : State) (innerWidth innerHeight : num)
    : num * num * option Image.t * list Canvas.Stroke :=
  let w := match image s with
           | Some img => of_Z (Image.width img) | None => innerWidth end in
  let h := match image s with
           | Some img => of_Z (Image.height img) | None => innerHeight end in
  (w, h, image s,
   Canvas.painted (fold_left renderPathToContext (paths s) Canvas.fresh)).

(** [handleSaveRef]: nothing without a reference image. *)
Definition handleSaveRef (s : State)
    : option (num * num * Image.t * list Canvas.Stroke) :=
  match referenceImage s with
  | None => None
  | Some img =>
      Some (of_Z (Image.width img), of_Z (Image.height img), img,
            Canvas.painted (fold_left renderPathToContext (refPaths s) Canvas.fresh))
  end.

(** On screen the image is drawn by
    [drawImage(image, -image.width / 2, -image.height / 2, ...)]: its pixel
    [(u, v)] is at the world point [(u - width / 2, v - height / 2)]. *)
Definition imagePixelToWorld (img : Image.t) (px : Point.t) : Point.t :=
  Point.mk (Point.x px + nneg (of_Z (Image.width img)) / Fin 2)%num
           (Point.y px + nneg (of_Z (Image.height img)) / Fin 2)%num.

(** *** Redraw scheduler ([requestRedraw])

    [animFrameRef] holds the handle of the requested animation frame
    (handles are positive) or [null]; [draws] counts the calls of [draw]. *)
Module Redraw.

Record t : Type := mk {
  animFrameRef : option positive;
  nextHandle : positive;
  draws : nat
}.

Definition idle : t := mk None 1%positive 0.

(** [if (animFrameRef.current) return;
     animFrameRef.current = requestAnimationFrame(...)] *)
Definition requestRedraw (r : t) : t :=
  match animFrameRef r with
  | Some _ => r
  | None => mk (Some (nextHandle r)) (Pos.succ (nextHandle r)) (draws r)
  end.

(** The browser reaches the next frame and runs the callback that is
    requested, if there is one: [animFrameRef.current = null; draw()]. *)
Definition frame (r : t) : t :=
  match animFrameRef r with
  | Some _ => mk None (nextHandle r) (S (draws r))
  | None => r
  end.

(** The cleanup of the effect: [cancelAnimationFrame] and
    [animFrameRef.current = null]. *)
Definition cancel (r : t) : t :=
  match animFrameRef r with
  | Some _ => mk None (nextHandle r) (draws r)
  | None => r
  end.

Inductive Event : Type := Request | Frame | Cancel.

Definition step (r : t) (ev : Event) : t :=
  match ev with
  | Request => requestRedraw r
  | Frame => frame r
  | Cancel => cancel r
  end.

Definition run (evs : list Event) (r : t) : t := fold_left step evs r.

(** The number of frames requested and not yet run: 0 or 1. *)
Definition pending (r : t) : nat :=
  match animFrameRef r with Some _ => 1 | None => 0 end.

Definition isRequest (ev : Event) : bool :=
  match ev with Request => true | _ => false end.

Definition isFrame (ev : Event) : bool :=
  match ev with Frame => true | _ => false end.

End Redraw.

(* ------------------------------------------------------------------ *)
(** ** Vocabulary of the further properties *)

(** The other pane. *)
Definition otherSide (side : Side) : Side :=
  match side with sideLeft => sideRight | sideRight => sideLeft end.

(** The states of a pane's strokes that undo and redo move through, oldest
    first: the history, the strokes shown, and the redo stack from its top
    down. *)
Definition timeline (side : Side) (s : State) : list (list Path.t) :=
  undoStack side s ++ [strokes side s] ++ rev (redoEntries side s).

(** Undo and redo clicks on one pane. *)
Inductive HistoryClick : Type := clickUndo | clickRedo.

Definition click (side : Side) (s : State) (c : HistoryClick) : State :=
  match c with
  | clickUndo => undo side s
  | clickRedo => redo side s
  end.

(** A path has at least one point; every path of a pane, shown, on a stack
    or in progress, has. *)
Definition hasPoint (p : Path.t) : Prop := Path.points p <> [].

Definition inkHasPoints (side : Side) (s : State) : Prop :=
  Forall hasPoint (strokes side s) /\
  Forall (Forall hasPoint) (undoStack side s) /\
  Forall (Forall hasPoint) (redoEntries side s) /\
  (forall p, inProgress side s = Some p -> hasPoint p).

(** What a pane holds: its ink, its stroke in progress, its transform and
    its image. *)
Definition paneData (side : Side) (s : State) :=
  (ink side s, inProgress side s, transformOf side s, imageOf side s).

(** The load of an image into a pane, and the refit of a pane. *)
Definition load (side : Side) (img : Image.t) : State -> State :=
  match side with
  | sideLeft => handleFile img
  | sideRight => handleReferenceFile img
  end.

Definition recenter (side : Side) : State -> State :=
  match side with
  | sideLeft => recenterImage
  | sideRight => recenterReferenceImage
  end.

(** The width a pane is fitted to, and the client position of its left
    edge. *)
Definition availWidth (side : Side) (s : State) : num :=
  match side with
  | sideLeft => workspaceAvailW s
  | sideRight => referenceAvailW s
  end.

Definition paneLeft (side : Side) (s : State) : num :=
  match side with
  | sideLeft => Rect.left (rect s)
  | sideRight => (Rect.left (rect s) + Rect.width (rect s) * sliderPos s)%num
  end.

(** Where a world point of a pane is seen on screen. *)
Definition toClient (side : Side) (s : State) (dpr : num) (w : Point.t)
    : Point.t :=
  match side with
  | sideLeft => workspaceToClient s dpr w
  | sideRight => referenceToClient s dpr w
  end.

(** The ids of the registered pointers, in the order of the registry. *)
Definition registered (s : State) : list Z := map fst (pointers s).

(** A stroke as a list: the stroke in progress, if there is one. *)
Definition inProgressList (side : Side) (s : State) : list Path.t :=
  match inProgress side s with Some p => [p] | None => [] end.

(** The layout in real numbers, for a container of width [w] and a slider
    at [sp]: the offset of the pane's centre that the screen-to-world map
    uses, the offset at which the compositor centres the pane, and the
    offset and the width of the part of the container that the pane is
    fitted to. *)
Definition pickCx (side : Side) (w sp : R) : R :=
  match side with
  | sideLeft => w / 2
  | sideRight => w * sp + w * (1 - sp) / 2
  end.

Definition paintCx (side : Side) (comparing : bool) (w sp : R) : R :=
  match side with
  | sideLeft => if comparing then w * sp / 2 else w / 2
  | sideRight => w * sp + w * (1 - sp) / 2
  end.

Definition paneOffset (side : Side) (w sp : R) : R :=
  match side with sideLeft => 0 | sideRight => w * sp end.

Definition paneWidth (side : Side) (comparing : bool) (w sp : R) : R :=
  match side with
  | sideLeft => if comparing then w * sp else w
  | sideRight => w * (1 - sp)
  end.

(** The transform that fits an image into a pane. *)
Definition fit (side : Side) (img : Image.t) (s : State) : Transform.t :=
  Transform.mk (Fin 0) (Fin 0)
    (scaleFit (availWidth side s) (Rect.height (rect s)) img).

(** A point moved by [(dx, dy)]. *)
Definition shifted (dx dy : num) (p : Point.t) : Point.t :=
  Point.mk (Point.x p + dx)%num (Point.y p + dy)%num.

(** The hand tool with one finger down at (100, 100). *)
Definition panning : State :=
  handlePointerDown (pointerAt 1 100 100) (set_tool hand (initialState screen)).

(** A container of finite, non-negative size with the slider between 0
    and 1, and an image of positive size. *)
Definition goodLayout (s : State) : Prop :=
  exists l t w h sp,
    rect s = Rect.mk (Fin l) (Fin t) (Fin w) (Fin h) /\ sliderPos s = Fin sp /\
    0 <= w /\ 0 <= h /\ 0 <= sp <= 1.

Definition goodImage (img : Image.t) : Prop :=
  (0 < Image.width img)%Z /\ (0 < Image.height img)%Z.

(** The whole image is seen inside its pane, with a margin of 5% of the
    pane on each side: every world point of the image is painted within
    the middle 90% of the pane's width and of the container's height. *)
Definition shownWhole (side : Side) (img : Image.t) (s : State) : Prop :=
  exists l t w h sp,
    rect s = Rect.mk (Fin l) (Fin t) (Fin w) (Fin h) /\ sliderPos s = Fin sp /\
    forall dpr u v,
      dpr <> 0 ->
      Rabs u <= IZR (Image.width img) / 2 ->
      Rabs v <= IZR (Image.height img) / 2 ->
      exists X Y,
        toClient side s (Fin dpr) (Point.mk (Fin u) (Fin v)) = Point.mk (Fin X) (Fin Y) /\
        let pl := l + paneOffset side w sp in
        let pw := paneWidth side (isComparing s) w sp in
        pl + 0.05 * pw <= X <= pl + 0.95 * pw /\
        t + 0.05 * h <= Y <= t + 0.95 * h.

(** Two fingers on the workspace, the second one moved to the other side
    of the first at the same distance. *)
Definition swung : PointerEvent := pointerAt 2 100 300.

Definition isMove (i : Input) : bool :=
  match i with Move _ => true | _ => false end.

(** The key presses of a list, one after the other. *)
Definition typeKeys (keys : list KeyEvent) (s : State) : State :=
  fold_left (fun s e => handleKeyDown e s) keys s.

(** The operations on a pane's ink, on the array objects and on the
    lists. *)
Inductive InkOp : Type :=
| opCommit (p : Path.t)
| opUndo
| opRedo
| opClear
| opLoad.

Definition refsApply (k : Refs.Ink) (op : InkOp) : Refs.Ink :=
  match op with
  | opCommit p => Refs.commit p k
  | opUndo => Refs.undo k
  | opRedo => Refs.redo k
  | opClear => Refs.clear k
  | opLoad => Refs.load k
  end.

Definition inkApply
    (v : list Path.t * list (list Path.t) * list (list Path.t)) (op : InkOp)
    : list Path.t * list (list Path.t) * list (list Path.t) :=
  match op with
  | opCommit p => inkCommit p v
  | opUndo => inkUndo v
  | opRedo => inkRedo v
  | opClear => inkClear v
  | opLoad => inkLoad v
  end.

(** The position of a pointer event. *)
Definition positionOf (e : PointerEvent) : Point.t :=
  Point.mk (clientX e) (clientY e).

(** One finger of the hand tool is down on the pane, last seen at [p]. *)
Definition handDragging (e : PointerEvent) (p : Point.t) (s : State) : Prop :=
  isMiddleMousePanning s = false /\
  tool s = hand /\
  (exists e0, pointers s = [(pointerId e, e0)]) /\
  lastPos (gestureState s) = Some p.

(** The middle button is down, last seen at [p]. *)
Definition middleDragging (p : Point.t) (s : State) : Prop :=
  isMiddleMousePanning s = true /\ middleMouseLastPos s = Some p.

(** A state of finite geometry: the layout, and the transform of the
    active pane with a scale that is not zero. *)
Definition finitePane (side : Side) (s : State) : Prop :=
  finiteLayout s /\
  exists x y k, transformOf side s = Transform.mk (Fin x) (Fin y) (Fin k) /\ k <> 0.

(** The distance between two points with finite coordinates is at most
    [d]. *)
Definition within (d : R) (p q : Point.t) : Prop :=
  exists px py qx qy,
    p = Point.mk (Fin px) (Fin py) /\ q = Point.mk (Fin qx) (Fin qy) /\
    distance px py qx qy <= d.

Definition finitePoint (p : Point.t) : Prop :=
  exists x y, p = Point.mk (Fin x) (Fin y).

(** The slider position is a number between 0 and 1. *)
Definition sliderInRange (s : State) : Prop :=
  exists p, sliderPos s = Fin p /\ 0 <= p <= 1.

(** *** What one call of [draw] strokes

    [draw] paints the workspace in every mode; in comparison mode it clips
    the workspace to the left of the divider, then clips to the right of
    it and calls [drawReference], then strokes the divider.
    [drawWorkspace] strokes the paths between a [save] and a [restore];
    [drawReference] does so only [if (referenceImage)].  The canvas and
    the container are mounted (otherwise [draw] returns at once).  The
    fills, the images, the transformation matrix and the clip region are
    not part of [Canvas.t]; [restore] gives back the compositing mode, the
    stroke style and the line width of the matching [save], and leaves
    the current path. *)

(** [ctx.beginPath(); ctx.rect(x, y, w, h); ctx.clip()] *)
Definition clipTo (x y w h : num) (ctx : Canvas.t) : Canvas.t :=
  Canvas.mk (Canvas.globalCompositeOperation ctx) (Canvas.strokeStyle ctx)
    (Canvas.lineWidth ctx) [Canvas.RectPath x y w h] (Canvas.painted ctx).

Definition drawWorkspaceInk (ctx : Canvas.t) (s : State) : Canvas.t :=
  Canvas.restore ctx (renderInk ctx (paths s) (currentPath s)).

Definition drawReferenceInk (ctx : Canvas.t) (s : State) : Canvas.t :=
  match referenceImage s with
  | Some _ => Canvas.restore ctx (renderInk ctx (refPaths s) (currentRefPath s))
  | None => ctx
  end.

(** The divider: [moveTo(splitX, 0); lineTo(splitX, canvas.height)] with
    line width [4 * dpr] and stroke style white. *)
Definition dividerPath (splitX canvasHeight : num) : list Canvas.Segment :=
  [Canvas.MoveTo splitX (Fin 0); Canvas.LineTo splitX canvasHeight].

Definition draw (s : State) (dpr canvasWidth canvasHeight : num)
    (ctx : Canvas.t) : Canvas.t :=
  if negb (isComparing s) then drawWorkspaceInk ctx s
  else
    let splitX := (canvasWidth * sliderPos s)%num in
    let c :=
      Canvas.restore ctx
        (drawWorkspaceInk (clipTo (Fin 0) (Fin 0) splitX canvasHeight ctx) s) in
    let c :=
      Canvas.restore c
        (drawReferenceInk
           (clipTo splitX (Fin 0) (canvasWidth - splitX)%num canvasHeight c) s) in
    Canvas.mk (Canvas.globalCompositeOperation c) "#FFFFFF" (Fin 4 * dpr)%num
      (dividerPath splitX canvasHeight)
      (Canvas.painted c ++
       [Canvas.mkStroke (Canvas.globalCompositeOperation c) "#FFFFFF"
          (Fin 4 * dpr)%num (dividerPath splitX canvasHeight)]).

(** Whether [draw] paints the ink of a pane at all: the workspace always,
    the reference pane in comparison mode with a reference image. *)
Definition inkIsPainted (side : Side) (s : State) : bool :=
  match side with
  | sideLeft => true
  | sideRight => isComparing s && isSome (referenceImage s)
  end.

(** The ink that [draw] paints for a pane, oldest first. *)
Definition paintedInk (side : Side) (s : State) : list Canvas.Stroke :=
  if inkIsPainted side s
  then map strokeOf (strokes side s ++ inProgressList side s)
  else [].

(** The client position at which [draw] places a world point of a pane's
    ink; [None] when the ink of the pane is not painted.  The point is seen
    there when the position lies on the pane's side of the divider, to
    which [draw] clips the pane. *)
Definition paintedAt (side : Side) (s : State) (dpr : num) (w : Point.t)
    : option Point.t :=
  if inkIsPainted side s then Some (toClient side s dpr w) else None.

(** *** The divider guard in the doubles of the code

    [nearDivider] compares in exact arithmetic.  The code computes
    [xPct] and the difference in doubles: with the slider within [0, 1]
    the two agree whenever the exact distance to the divider differs from
    0.05 by more than a millionth.  A pointer is clear of the divider, or
    inside the band around it, when it is so by that margin. *)
Definition dividerMargin : R := 0.000001.

Definition clearOfDivider (e : PointerEvent) (s : State) : Prop :=
  isComparing s = false \/
  exists x sp,
    xPct s (clientX e) = Fin x /\ sliderPos s = Fin sp /\ 0 <= sp <= 1 /\
    0.05 + dividerMargin <= Rabs (x - sp).

Definition insideDividerBand (e : PointerEvent) (s : State) : Prop :=
  isComparing s = true /\
  exists x sp,
    xPct s (clientX e) = Fin x /\ sliderPos s = Fin sp /\ 0 <= sp <= 1 /\
    Rabs (x - sp) <= 0.05 - dividerMargin.

(** An event, and an input, with finite coordinates. *)
Definition finiteEvent (e : PointerEvent) : bool :=
  is_finite (clientX e) && is_finite (clientY e).

Definition finiteInput (i : Input) : bool :=
  match i with Down e | Move e | Up e => finiteEvent e end.

(** *** The scan of [snapToEdge] for a finite cursor

    The result [(maxScore, bestX, bestY)] of the two loops as [snapToEdge]
    runs them for the cursor [(wx, wy)], the score of a candidate in that
    run, and the world point of a pixel,
    [(px - targetImage.width / 2, py - targetImage.height / 2)]. *)
Definition snapScan (img : Image.t) (prevPoints : option (list Point.t))
    (wx wy : R) : num * Z * Z :=
  let '(imgX, imgY) := cursorPixel img wx wy in
  let '(dirX, dirY, hasDirection) := drawingDirection prevPoints in
  let perpX := if hasDirection then nneg dirY else Fin 0 in
  let perpY := if hasDirection then dirX else Fin 0 in
  let '(startX, startY, endX, endY) := snapWindow img imgX imgY in
  let '(padStartX, padStartY, padW, padH) :=
    snapPad img startX startY endX endY in
  scan (getImageData img padStartX padStartY padW padH)
       padStartX padStartY padW imgX imgY
       dirX dirY perpX perpY hasDirection startX startY endX endY.

Definition candidateScore (img : Image.t) (prevPoints : option (list Point.t))
    (wx wy : R) (px py : Z) : num :=
  let '(imgX, imgY) := cursorPixel img wx wy in
  let '(dirX, dirY, hasDirection) := drawingDirection prevPoints in
  let perpX := if hasDirection then nneg dirY else Fin 0 in
  let perpY := if hasDirection then dirX else Fin 0 in
  let '(startX, startY, endX, endY) := snapWindow img imgX imgY in
  let '(padStartX, padStartY, padW, padH) :=
    snapPad img startX startY endX endY in
  score (getImageData img padStartX padStartY padW padH)
        padStartX padStartY padW imgX imgY
        dirX dirY perpX perpY hasDirection px py.

Definition pixelWorld (img : Image.t) (px py : Z) : R * R :=
  (IZR px - IZR (Image.width img) / 2, IZR py - IZR (Image.height img) / 2).

(** The luminance and the edge strength of a pixel of the image in exact
    arithmetic, as [lum] and [edgeStrength] compute them from reads that
    stay inside the image. *)
Definition pixelLum (img : Image.t) (qx qy : Z) : R :=
  (IZR (Image.pixel img qx qy 0) * 0.299
   + IZR (Image.pixel img qx qy 1) * 0.587
   + IZR (Image.pixel img qx qy 2) * 0.114)
  * (IZR (Image.pixel img qx qy 3) / 255).

Definition pixelStrength (img : Image.t) (px py : Z) : R :=
  let gx := pixelLum img (px + 1) py - pixelLum img (px - 1) py in
  let gy := pixelLum img px (py + 1) - pixelLum img px (py - 1) in
  let ax := IZR (Image.pixel img (px + 1) py 3) - IZR (Image.pixel img (px - 1) py 3) in
  let ay := IZR (Image.pixel img px (py + 1) 3) - IZR (Image.pixel img px (py - 1) 3) in
  sqrt (gx * gx + gy * gy) + sqrt (ax * ax + ay * ay) / 255 * 80.

(** The code compares strengths and scores with 5 in doubles.  A
    candidate is taken to reach 5 for certain when it does so by a
    millionth. *)
Definition scoreMargin : R := 0.000001.

(** *** Further sample inputs *)

(** A 5 x 5 opaque image of grey 128 with one pixel of grey 138 on its
    right border, at (4, 2). *)
Definition edgeImage : Image.t :=
  Image.mk 5 5
    (fun px py c =>
       if (c =? 3)%Z then 255%Z
       else if ((px =? 4) && (py =? 2))%Z%bool then 138%Z else 128%Z).

(** Comparison mode, with [stroke3] in progress in the workspace, drawn
    by pointer 1 at (100, 300). *)
Definition drawingCompared : State :=
  set_currentPath (Some stroke3)
    (set_pointers [(1%Z, pointerAt 1 100 300)] comparing).

(** A 400 x 100 reference image loaded into the mounted component. *)
Definition referenceLoaded : State :=
  handleReferenceFile (greyImage 400 100) (initialState screen).

(* ================================================================== *)
(** * Properties *)
(* ------------------------------------------------------------------ *)
(** ** Facts about numbers *)

Lemma Rlt_b_true (a b : R) : a < b -> Rlt_b a b = true.
Proof. intros H. unfold Rlt_b. destruct (Rlt_dec a b); [reflexivity | contradiction]. Qed.

Lemma Rlt_b_false (a b : R) : b <= a -> Rlt_b a b = false.
Proof. intros H. unfold Rlt_b. destruct (Rlt_dec a b); [lra | reflexivity]. Qed.

Lemma Rlt_b_spec (a b : R) : Rlt_b a b = true <-> a < b.
Proof.
  unfold Rlt_b. destruct (Rlt_dec a b); split; intros; auto; discriminate.
Qed.

Lemma Rle_b_true (a b : R) : a <= b -> Rle_b a b = true.
Proof. intros H. unfold Rle_b. destruct (Rle_dec a b); [reflexivity | contradiction]. Qed.

Lemma Rle_b_false (a b : R) : b < a -> Rle_b a b = false.
Proof. intros H. unfold Rle_b. destruct (Rle_dec a b); [lra | reflexivity]. Qed.

Lemma ndiv_fin (a b : R) : b <> 0 -> (Fin a / Fin b)%num = Fin (a / b).
Proof.
  intros H. unfold ndiv. destruct (Req_dec_T b 0); [contradiction | reflexivity].
Qed.

Lemma ndiv_0_0 : (Fin 0 / Fin 0)%num = NaN.
Proof.
  unfold ndiv. destruct (Req_dec_T 0 0) as [_ | H]; [| now elim H].
  unfold sign_of. destruct (Rlt_dec 0 0); [lra | reflexivity].
Qed.

Lemma nsub_fin (a b : R) : (Fin a - Fin b)%num = Fin (a - b).
Proof. reflexivity. Qed.

Lemma nadd_0_r (a : num) : (a + Fin 0)%num = a.
Proof. destruct a; simpl; try reflexivity. now rewrite Rplus_0_r. Qed.

Lemma truthy_fin (r : R) : r <> 0 -> truthy (Fin r) = true.
Proof. intros H. simpl. destruct (Req_dec_T r 0); [contradiction | reflexivity]. Qed.

Lemma truthy_0 : truthy (Fin 0) = false.
Proof. simpl. destruct (Req_dec_T 0 0) as [_ | H]; [reflexivity | now elim H]. Qed.

Lemma nor_fin (r : R) (b : num) : r <> 0 -> (Fin r || b)%num = Fin r.
Proof. intros H. unfold nor. now rewrite truthy_fin. Qed.

Lemma nor_0 (b : num) : (Fin 0 || b)%num = b.
Proof. unfold nor. now rewrite truthy_0. Qed.

Lemma clampK_fin (v : R) : clampK (Fin v) = Fin (Rmax 0.1 (Rmin v 10)).
Proof. reflexivity. Qed.

Lemma Rclamp_bounds (v : R) : 0.1 <= Rmax 0.1 (Rmin v 10) <= 10.
Proof.
  unfold Rmax, Rmin.
  destruct (Rle_dec v 10); destruct (Rle_dec 0.1 _); lra.
Qed.

Lemma clampK_bounds (v : num) :
  v <> NaN -> exists c, clampK v = Fin c /\ 0.1 <= c <= 10.
Proof.
  intros Hv. destruct v as [r | | |].
  - exists (Rmax 0.1 (Rmin r 10)). split; [reflexivity | apply Rclamp_bounds].
  - exists 10. split; [| lra]. unfold clampK. simpl. f_equal.
    unfold Rmax. destruct (Rle_dec 0.1 10); lra.
  - exists 0.1. split; [reflexivity | lra].
  - contradiction.
Qed.

Lemma clampK_NaN : clampK NaN = NaN.
Proof. reflexivity. Qed.

Lemma hypot_fin (a b : R) : Math_hypot (Fin a) (Fin b) = Fin (sqrt (a * a + b * b)).
Proof. reflexivity. Qed.

Lemma sqrt_sum_sq_0 : sqrt (0 * 0 + 0 * 0) = 0.
Proof. replace (0 * 0 + 0 * 0) with 0 by ring. apply sqrt_0. Qed.

Lemma sqrt_sq_0_r (a : R) : 0 <= a -> sqrt (a * a + 0 * 0) = a.
Proof.
  intros H. replace (a * a + 0 * 0) with (a * a) by ring. now apply sqrt_square.
Qed.

Lemma sqrt_sum_sq_scale (a b c : R) :
  0 <= c -> sqrt ((a * c) * (a * c) + (b * c) * (b * c)) = c * sqrt (a * a + b * b).
Proof.
  intros Hc.
  replace ((a * c) * (a * c) + (b * c) * (b * c)) with ((c * c) * (a * a + b * b)) by ring.
  rewrite sqrt_mult_alt by nra.
  now rewrite sqrt_square.
Qed.

(* ------------------------------------------------------------------ *)
(** ** Ink history: commit, undo, redo *)

Lemma Array_pop_push {A : Type} (a : list A) (v : A) :
  Array_pop (Array_push a v) = (a, Some v).
Proof.
  unfold Array_push. destruct a as [| u a']; [reflexivity |].
  change ((u :: a') ++ [v]) with (u :: (a' ++ [v])) at 1.
  unfold Array_pop. rewrite last_last.
  change (u :: (a' ++ [v])) with ((u :: a') ++ [v]).
  now rewrite removelast_last.
Qed.

Lemma handlePointerUp_leftInk (e : PointerEvent) (s : State) :
  releases e s ->
  leftInk (handlePointerUp e s) =
  match currentPath s with
  | Some p => (Array_push (paths s) p, Array_push (history s) (paths s), [])
  | None => leftInk s
  end.
Proof.
  unfold releases, handlePointerUp. intros ->.
  unfold commitPath, commitRefPath. cbn.
  destruct (currentPath s); cbn; destruct (currentRefPath s); cbn;
    match goal with
    | |- context [map snd ?m] => destruct (map snd m) as [| ? [| ? ?]]
    end; reflexivity.
Qed.

Lemma handlePointerUp_rightInk (e : PointerEvent) (s : State) :
  releases e s ->
  rightInk (handlePointerUp e s) =
  match currentRefPath s with
  | Some p => (Array_push (refPaths s) p, Array_push (refHistory s) (refPaths s), [])
  | None => rightInk s
  end.
Proof.
  unfold releases, handlePointerUp. intros ->.
  unfold commitPath, commitRefPath. cbn.
  destruct (currentPath s); cbn; destruct (currentRefPath s); cbn;
    match goal with
    | |- context [map snd ?m] => destruct (map snd m) as [| ? [| ? ?]]
    end; reflexivity.
Qed.

Lemma handleUndo_top (s : State) (h : list (list Path.t)) (top : list Path.t) :
  history s = Array_push h top ->
  handleUndo s =
  set_paths top (set_history h (set_redoStack (Array_push (redoStack s) (paths s)) s)).
Proof. intros H. unfold handleUndo. now rewrite H, Array_pop_push. Qed.

Lemma handleRedo_top (s : State) (r : list (list Path.t)) (top : list Path.t) :
  redoStack s = Array_push r top ->
  handleRedo s =
  set_paths top (set_redoStack r (set_history (Array_push (history s) (paths s)) s)).
Proof. intros H. unfold handleRedo. now rewrite H, Array_pop_push. Qed.

Lemma handleRedo_empty (s : State) : redoStack s = [] -> handleRedo s = s.
Proof. intros H. unfold handleRedo. now rewrite H. Qed.

Lemma handleRefUndo_top (s : State) (h : list (list Path.t)) (top : list Path.t) :
  refHistory s = Array_push h top ->
  handleRefUndo s =
  set_refPaths top
    (set_refHistory h (set_refRedoStack (Array_push (refRedoStack s) (refPaths s)) s)).
Proof. intros H. unfold handleRefUndo. now rewrite H, Array_pop_push. Qed.

Lemma handleRefRedo_top (s : State) (r : list (list Path.t)) (top : list Path.t) :
  refRedoStack s = Array_push r top ->
  handleRefRedo s =
  set_refPaths top
    (set_refRedoStack r (set_refHistory (Array_push (refHistory s) (refPaths s)) s)).
Proof. intros H. unfold handleRefRedo. now rewrite H, Array_pop_push. Qed.

Lemma handleRefRedo_empty (s : State) : refRedoStack s = [] -> handleRefRedo s = s.
Proof. intros H. unfold handleRefRedo. now rewrite H. Qed.

Lemma ink_inv {A B C : Type} (a a' : A) (b b' : B) (c c' : C) :
  (a, b, c) = (a', b', c') -> a = a' /\ b = b' /\ c = c'.
Proof. intros H. now inversion H. Qed.

Lemma undo_redo_after_commit (s1 : State) (ps : list Path.t)
    (h : list (list Path.t)) (p : Path.t) :
  leftInk s1 = (Array_push ps p, Array_push h ps, []) ->
  leftInk (handleUndo s1) = (ps, h, [Array_push ps p]) /\
  handleRedo (handleUndo s1) = s1.
Proof.
  intros H. destruct s1. unfold leftInk in H. cbn in H.
  apply ink_inv in H as (-> & -> & ->).
  rewrite (handleUndo_top _ h ps) by reflexivity. split; [reflexivity |].
  rewrite (handleRedo_top _ [] (Array_push ps p)) by reflexivity.
  reflexivity.
Qed.

Lemma ref_undo_redo_after_commit (s1 : State) (ps : list Path.t)
    (h : list (list Path.t)) (p : Path.t) :
  rightInk s1 = (Array_push ps p, Array_push h ps, []) ->
  rightInk (handleRefUndo s1) = (ps, h, [Array_push ps p]) /\
  handleRefRedo (handleRefUndo s1) = s1.
Proof.
  intros H. destruct s1. unfold rightInk in H. cbn in H.
  apply ink_inv in H as (-> & -> & ->).
  rewrite (handleRefUndo_top _ h ps) by reflexivity. split; [reflexivity |].
  rewrite (handleRefRedo_top _ [] (Array_push ps p)) by reflexivity.
  reflexivity.
Qed.

Lemma ink_left (s : State) : ink sideLeft s = leftInk s.
Proof. reflexivity. Qed.

Lemma ink_right (s : State) : ink sideRight s = rightInk s.
Proof. reflexivity. Qed.

Lemma handlePointerUp_commit (side : Side) (e : PointerEvent) (s : State) (p : Path.t) :
  releases e s -> inProgress side s = Some p ->
  ink side (handlePointerUp e s) =
  (Array_push (strokes side s) p, Array_push (undoStack side s) (strokes side s), []).
Proof.
  intros Hrel Hcur. destruct side; cbn in Hcur.
  - rewrite ink_left, handlePointerUp_leftInk by assumption. now rewrite Hcur.
  - rewrite ink_right, handlePointerUp_rightInk by assumption. now rewrite Hcur.
Qed.

Lemma undo_redo_pair (side : Side) (s1 : State) (ps : list Path.t)
    (h : list (list Path.t)) (p : Path.t) :
  ink side s1 = (Array_push ps p, Array_push h ps, []) ->
  ink side (undo side s1) = (ps, h, [Array_push ps p]) /\
  redo side (undo side s1) = s1.
Proof.
  destruct side; intros H.
  - now apply undo_redo_after_commit.
  - now apply ref_undo_redo_after_commit.
Qed.

Lemma redo_empty (side : Side) (s : State) :
  redoEntries side s = [] -> redo side s = s.
Proof.
  destruct side; [apply handleRedo_empty | apply handleRefRedo_empty].
Qed.

(** C1.  Inverse-pair law of the ink history, for each pane.  When a
    pointer-up commits the in-progress stroke [p] of a pane, the pane's
    stroke list becomes the old list followed by [p]; an undo then gives
    back the stroke list (and the history stack) from before the commit;
    and a redo after that undo restores the state after the commit
    exactly. *)
Theorem commit_undo_redo_inverse (side : Side) (e : PointerEvent) (s : State)
    (p : Path.t) :
  releases e s -> inProgress side s = Some p ->
  let s1 := handlePointerUp e s in
  strokes side s1 = Array_push (strokes side s) p /\
  strokes side (undo side s1) = strokes side s /\
  undoStack side (undo side s1) = undoStack side s /\
  redo side (undo side s1) = s1.
Proof.
  intros Hrel Hcur s1.
  pose proof (handlePointerUp_commit side e s p Hrel Hcur) as HC. fold s1 in HC.
  destruct (undo_redo_pair side s1 _ _ _ HC) as [HU HR].
  apply ink_inv in HC as (HC & _). apply ink_inv in HU as (HU1 & HU2 & _).
  auto.
Qed.

(** C3.  Committing a stroke empties the pane's redo stack, so a redo
    right after a commit changes nothing.  In particular after commit,
    undo, and the commit of a new stroke [p'] from any state [s'] that
    still holds the stroke list left by the undo, the stroke list is the
    original one followed by [p'] and a redo leaves the state as it is. *)
Theorem commit_clears_redo (side : Side) (e : PointerEvent) (s : State)
    (p : Path.t) :
  releases e s -> inProgress side s = Some p ->
  let s1 := handlePointerUp e s in
  redoEntries side s1 = [] /\
  redo side s1 = s1 /\
  forall (s' : State) (e' : PointerEvent) (p' : Path.t),
    strokes side s' = strokes side (undo side s1) ->
    inProgress side s' = Some p' ->
    releases e' s' ->
    let s3 := handlePointerUp e' s' in
    redoEntries side s3 = [] /\
    strokes side s3 = Array_push (strokes side s) p' /\
    redo side s3 = s3.
Proof.
  intros Hrel Hcur s1.
  pose proof (handlePointerUp_commit side e s p Hrel Hcur) as HC. fold s1 in HC.
  destruct (undo_redo_pair side s1 _ _ _ HC) as [HU _].
  apply ink_inv in HC as (_ & _ & HC). apply ink_inv in HU as (HU & _ & _).
  split; [assumption |]. split; [now apply redo_empty |].
  intros s' e' p' Hs' Hcur' Hrel' s3.
  pose proof (handlePointerUp_commit side e' s' p' Hrel' Hcur') as HC'.
  fold s3 in HC'. apply ink_inv in HC' as (HC1 & _ & HC3).
  split; [assumption |]. split; [| now apply redo_empty].
  now rewrite HC1, Hs', HU.
Qed.

(** The law on the workspace, for the three-point stroke in progress. *)
Lemma commit_undo_redo_inverse_witness :
  let s := drawing sideLeft in
  let s1 := handlePointerUp (pointerAt 1 405 305) s in
  (strokes sideLeft s1 = Array_push (strokes sideLeft s) stroke3 /\
   strokes sideLeft (undo sideLeft s1) = strokes sideLeft s /\
   undoStack sideLeft (undo sideLeft s1) = undoStack sideLeft s /\
   redo sideLeft (undo sideLeft s1) = s1) /\
  paths s1 = [stroke3] /\ paths (handleUndo s1) = [].
Proof.
  split.
  - exact (commit_undo_redo_inverse sideLeft (pointerAt 1 405 305)
             (drawing sideLeft) stroke3 eq_refl eq_refl).
  - split; reflexivity.
Defined.

(** Commit, undo, commit of another stroke, redo, on the reference pane. *)
Lemma commit_clears_redo_witness :
  let s := drawing sideRight in
  let s1 := handlePointerUp (pointerAt 1 405 305) s in
  let s' := set_currentRefPath (Some dot) (handleRefUndo s1) in
  let s3 := handlePointerUp (pointerAt 2 10 10) s' in
  redoEntries sideRight s1 = [] /\
  redoEntries sideRight s3 = [] /\
  strokes sideRight s3 = Array_push (strokes sideRight s) dot /\
  redo sideRight s3 = s3.
Proof.
  intros s s1 s' s3.
  destruct (commit_clears_redo sideRight (pointerAt 1 405 305)
              s stroke3 eq_refl eq_refl) as (H1 & H2 & H3).
  split; [exact H1 |].
  exact (H3 s' (pointerAt 2 10 10) dot eq_refl eq_refl eq_refl).
Defined.

(* ------------------------------------------------------------------ *)
(** ** Image load *)

Lemma handleFile_ink (img : Image.t) (s : State) :
  ink sideLeft (handleFile img s) = ([], [], redoStack s).
Proof. reflexivity. Qed.

Lemma handleReferenceFile_ink (img : Image.t) (s : State) :
  ink sideRight (handleReferenceFile img s) = ([], [], refRedoStack s).
Proof. reflexivity. Qed.

(** C5.  What the code does on the failing input: the workspace has one
    committed stroke that was undone, so its redo stack holds one entry;
    loading a new image empties the stroke list and the history stack but
    leaves the redo stack as it was, and a redo then brings the stroke of
    the previous image back over the new one.  The reference pane does
    the same. *)
Theorem image_load_keeps_redo_stack :
  let before := fun side =>
    undo side (handlePointerUp (pointerAt 1 405 305) (drawing side)) in
  let s := handleFile (greyImage 100 100) (before sideLeft) in
  let r := handleReferenceFile (greyImage 100 100) (before sideRight) in
  (paths s = [] /\ history s = [] /\ redoStack s = [[stroke3]] /\
   paths (handleRedo s) = [stroke3]) /\
  (refPaths r = [] /\ refHistory r = [] /\ refRedoStack r = [[stroke3]] /\
   refPaths (handleRefRedo r) = [stroke3]).
Proof. repeat split; reflexivity. Qed.

(* ------------------------------------------------------------------ *)
(** ** Gesture dispatcher and the ink *)

Ltac case_scrutinee :=
  match goal with
  | |- context [if ?c then _ else _] => destruct c eqn:?
  | |- context [match ?x with _ => _ end] => destruct x eqn:?
  end.

Lemma set_activeTransform_ink (side : Side) (t : Transform.t) (s : State) :
  ink side (set_activeTransform t s) = ink side s.
Proof. unfold set_activeTransform. destruct side, (activeSide s); reflexivity. Qed.

Lemma handlePointerDown_ink (side : Side) (e : PointerEvent) (s : State) :
  ink side (handlePointerDown e s) = ink side s.
Proof.
  unfold handlePointerDown.
  repeat case_scrutinee; destruct side; reflexivity.
Qed.

Lemma drawMove_ink (side : Side) (e : PointerEvent) (s : State) :
  ink side (drawMove e s) = ink side s.
Proof.
  unfold drawMove.
  repeat case_scrutinee; destruct side; reflexivity.
Qed.

Lemma pinchMove_ink (side : Side) (p0 p1 : PointerEvent) (s : State) :
  ink side (pinchMove p0 p1 s) = ink side s.
Proof.
  unfold pinchMove, set_activeTransform.
  destruct side, (activeSide s); reflexivity.
Qed.

Lemma handlePointerMove_ink (side : Side) (e : PointerEvent) (s : State) :
  ink side (handlePointerMove e s) = ink side s.
Proof.
  unfold handlePointerMove.
  repeat case_scrutinee; try reflexivity.
  all: try (rewrite pinchMove_ink); try (rewrite drawMove_ink);
    unfold set_activeTransform; cbn [activeSide set_pointers];
    destruct side, (activeSide s); reflexivity.
Qed.

Lemma set_activeTransform_noStroke (t : Transform.t) (s : State) :
  noStroke s -> noStroke (set_activeTransform t s).
Proof. unfold set_activeTransform. destruct (activeSide s); auto. Qed.

Lemma handlePointerMove_noStroke (e : PointerEvent) (s : State) :
  noStroke s -> noStroke (handlePointerMove e s).
Proof.
  intros [HL HR]. unfold handlePointerMove.
  destruct (isMiddleMousePanning s).
  { destruct (middleMouseLastPos s); [| now split].
    unfold set_activeTransform. destruct (activeSide s); now split. }
  destruct (negb _); [now split |].
  cbn [pointers set_pointers].
  destruct (Map_values _) as [| p0 [| p1 [| ? ?]]]; try now split.
  - destruct (Tool_eqb _ hand).
    + unfold set_activeTransform. cbn [activeSide set_pointers].
      destruct (activeSide s); now split.
    + unfold drawMove. cbn [activeSide set_pointers currentPath currentRefPath].
      rewrite HL, HR. destruct (activeSide s); now split.
  - unfold pinchMove, set_activeTransform. cbn [activeSide set_pointers].
    destruct (activeSide s); now split.
Qed.

Lemma handlePointerUp_noStroke (e : PointerEvent) (s : State) :
  noStroke s ->
  noStroke (handlePointerUp e s) /\
  forall side, ink side (handlePointerUp e s) = ink side s.
Proof.
  intros [HL HR]. unfold handlePointerUp.
  destruct (isMiddleMousePanning s && _).
  { split; [now split | now intros []]. }
  unfold commitPath, commitRefPath.
  cbn [currentPath currentRefPath set_pointers]. rewrite HL.
  cbn [currentPath currentRefPath set_pointers]. rewrite HR.
  cbn [pointers set_pointers].
  destruct (Map_values _) as [| p0 [| ? ?]];
    (split; [now split | now intros []]).
Qed.

Lemma run_keeps_ink (later : list Input) (s : State) :
  forallb (fun i => negb (isDown i)) later = true ->
  noStroke s ->
  forall side, ink side (run later s) = ink side s.
Proof.
  revert s. induction later as [| i later IH]; intros s Hl Hs side.
  - reflexivity.
  - cbn in Hl. apply andb_true_iff in Hl as [Hi Hl].
    cbn [run fold_left]. fold (run later (step s i)).
    destruct i as [e | e | e]; [discriminate | |]; cbn [step].
    + rewrite IH by auto using handlePointerMove_noStroke.
      apply handlePointerMove_ink.
    + destruct (handlePointerUp_noStroke e s Hs) as [Hn Hk].
      rewrite IH by auto. apply Hk.
Qed.

Lemma handlePointerDown_second (e : PointerEvent) (s : State)
    (id1 : Z) (e1 : PointerEvent) :
  pointers s = [(id1, e1)] ->
  id1 <> pointerId e ->
  (button e =? 1)%Z = false ->
  nearDivider e s = false ->
  noStroke (handlePointerDown e s) /\
  Map_values (pointers (handlePointerDown e s)) = [e1; e].
Proof.
  intros Hp Hid Hb Hn. unfold handlePointerDown. rewrite Hb, Hn.
  cbn [pointers set_pointers set_activeSide]. rewrite Hp.
  cbn [Map_set]. apply Z.eqb_neq in Hid. rewrite Hid.
  cbn [Map_values map snd]. split; [now split | reflexivity].
Qed.

Lemma Rabs_lt_b (a b : R) : - b < a < b -> Rlt_b (Rabs a) b = true.
Proof. intros H. apply Rlt_b_true. apply Rabs_def1; lra. Qed.

Lemma Rabs_ge_b (a b : R) : a <= - b \/ b <= a -> Rlt_b (Rabs a) b = false.
Proof.
  intros H. apply Rlt_b_false. unfold Rabs. destruct (Rcase_abs a); lra.
Qed.

Lemma xPct_screen (s : State) (x : R) :
  rect s = screen -> xPct s (Fin x) = Fin (x / 800).
Proof.
  intros H. unfold xPct. rewrite H. cbn [Rect.left Rect.width screen].
  rewrite nsub_fin, ndiv_fin by lra. f_equal. lra.
Qed.

Lemma nearDivider_screen (s : State) (e : PointerEvent) (x sp : R) :
  rect s = screen -> sliderPos s = Fin sp -> clientX e = Fin x ->
  nearDivider e s = isComparing s && Rlt_b (Rabs (x / 800 - sp)) 0.05.
Proof.
  intros Hr Hs Hx. unfold nearDivider.
  rewrite Hx, (xPct_screen s x Hr), Hs. reflexivity.
Qed.

Lemma sideOf_screen (s : State) (e : PointerEvent) (x sp : R) :
  rect s = screen -> sliderPos s = Fin sp -> clientX e = Fin x ->
  sideOf s e = if isComparing s && Rlt_b sp (x / 800) then sideRight else sideLeft.
Proof.
  intros Hr Hs Hx. unfold sideOf.
  rewrite Hx, (xPct_screen s x Hr), Hs. reflexivity.
Qed.

(** C10, as stated, fails in comparison mode.  The slider is at 0.5 of an
    800-pixel container; pointer 1 goes down at x = 100 and begins a stroke
    in the workspace; pointer 2 goes down on the canvas at x = 365, within
    0.05 of the divider (0.04375 from it) and to the left of the slider
    handle, and is ignored: it is not registered and the stroke stays in
    progress.  The release of pointer 1 then commits the stroke and pushes
    a history entry. *)
Lemma second_pointer_near_divider_commits :
  let s1 := handlePointerDown (pointerAt 1 100 300) comparing in
  let final :=
    run [Down (pointerAt 2 365 300); Up (pointerAt 1 100 300);
         Up (pointerAt 2 365 300)] s1 in
  isSome (currentPath s1) = true /\
  paths s1 = [] /\ history s1 = [] /\
  List.length (paths final) = 1%nat /\ history final = [[]].
Proof.
  assert (H1 : handlePointerDown (pointerAt 1 100 300) comparing =
    set_currentPath
      (Some (Path.mk [seedPoint sideLeft
                        (set_pointers [(1%Z, pointerAt 1 100 300)]
                           (set_activeSide sideLeft comparing))
                        (pointerAt 1 100 300)]
               "#FF4444" (Fin 12) false))
      (set_pointers [(1%Z, pointerAt 1 100 300)]
         (set_activeSide sideLeft comparing))).
  { unfold handlePointerDown.
    rewrite (nearDivider_screen _ _ 100 0.5) by reflexivity.
    rewrite (sideOf_screen _ _ 100 0.5) by reflexivity.
    rewrite Rabs_ge_b by lra. rewrite Rlt_b_false by lra.
    reflexivity. }
  cbv zeta. rewrite H1. clear H1.
  set (s1 := set_currentPath _ _).
  assert (H2 : handlePointerDown (pointerAt 2 365 300) s1 = s1).
  { unfold handlePointerDown.
    rewrite (nearDivider_screen _ _ 365 0.5) by reflexivity.
    rewrite Rabs_lt_b by lra. reflexivity. }
  unfold run. cbn [fold_left step]. rewrite H2.
  repeat split; reflexivity.
Qed.

Lemma clearOfDivider_far (e : PointerEvent) (s : State) :
  clearOfDivider e s -> nearDivider e s = false.
Proof.
  unfold clearOfDivider, nearDivider, dividerMargin.
  intros [-> | (x & sp & Hx & Hs & _ & Hd)]; [reflexivity |].
  rewrite Hx, Hs, nsub_fin. cbn [Math_abs nlt].
  rewrite Rlt_b_false by lra. apply andb_false_r.
Qed.

Lemma insideDividerBand_near (e : PointerEvent) (s : State) :
  insideDividerBand e s -> nearDivider e s = true.
Proof.
  unfold insideDividerBand, nearDivider, dividerMargin.
  intros [-> (x & sp & Hx & Hs & _ & Hd)].
  rewrite Hx, Hs, nsub_fin. cbn [Math_abs nlt andb].
  apply Rlt_b_true. lra.
Qed.

(** C10, amended.  A state whose registry holds exactly one pointer is
    given, whatever is in progress in either pane, and a second
    pointer-down that is not of the middle button.  If it is clear of the
    divider (outside comparison mode, or with the slider within [0, 1]
    at least 0.05 and a millionth away from the divider's x-fraction), it
    leaves no stroke in progress in either pane, and after it no sequence
    of moves and releases changes the stroke list, the history stack or
    the redo stack of either pane: nothing is committed and no history
    entry is pushed.  If it is inside the band around the divider (in
    comparison mode, at most 0.05 less a millionth away from it), it is
    ignored as a whole, the state is as it was, and the next release that
    is not the release of a middle-button pan commits the stroke in
    progress of a pane and pushes the strokes as they were on its
    history. *)
Theorem second_pointer_discards_strokes (s : State) (id1 : Z)
    (e1 e2 : PointerEvent) (later : list Input) :
  pointers s = [(id1, e1)] ->
  id1 <> pointerId e2 ->
  (button e2 =? 1)%Z = false ->
  forallb (fun i => negb (isDown i)) later = true ->
  let s2 := handlePointerDown e2 s in
  (clearOfDivider e2 s ->
   noStroke s2 /\
   forall side, ink side (run later s2) = ink side s) /\
  (insideDividerBand e2 s ->
   s2 = s /\
   forall side p e,
     inProgress side s = Some p -> releases e s ->
     ink side (handlePointerUp e s2) =
     (Array_push (strokes side s) p,
      Array_push (undoStack side s) (strokes side s), [])).
Proof.
  intros Hp Hid Hb Hl s2. split.
  - intros Hclear. pose proof (clearOfDivider_far e2 s Hclear) as Hn.
    destruct (handlePointerDown_second e2 s id1 e1 Hp Hid Hb Hn) as [Hs _].
    split; [exact Hs |]. intros side.
    unfold s2. rewrite run_keeps_ink by assumption.
    apply handlePointerDown_ink.
  - intros Hband. pose proof (insideDividerBand_near e2 s Hband) as Hn.
    assert (Hs2 : s2 = s).
    { unfold s2, handlePointerDown. now rewrite Hb, Hn. }
    split; [exact Hs2 |]. intros side p e Hip Hrel. rewrite Hs2.
    now apply handlePointerUp_commit.
Qed.

(** In comparison mode, with [stroke3] in progress in the workspace: a
    second finger lands at x = 600, clear of the divider, moves, and both
    fingers lift; or the second finger lands at x = 365, inside the band,
    and the first finger lifts. *)
Lemma second_pointer_discards_strokes_witness :
  let s := drawingCompared in
  let later := [Move (pointerAt 2 620 300); Up (pointerAt 1 100 300);
                Up (pointerAt 2 620 300)] in
  currentPath s = Some stroke3 /\
  (let s2 := handlePointerDown (pointerAt 2 600 300) s in
   noStroke s2 /\
   forall side, ink side (run later s2) = ink side s) /\
  (let s2 := handlePointerDown (pointerAt 2 365 300) s in
   s2 = s /\
   ink sideLeft (handlePointerUp (pointerAt 1 100 300) s2) =
     ([stroke3], [[]], [])).
Proof.
  assert (Hx : forall x, xPct drawingCompared (clientX (pointerAt 2 x 300))
                         = Fin (x / 800)).
  { intros x. now apply xPct_screen. }
  split; [reflexivity | split].
  - apply (proj1 (second_pointer_discards_strokes drawingCompared 1
                    (pointerAt 1 100 300) (pointerAt 2 600 300)
                    [Move (pointerAt 2 620 300); Up (pointerAt 1 100 300);
                     Up (pointerAt 2 620 300)]
                    eq_refl ltac:(discriminate) eq_refl eq_refl)).
    right. exists (600 / 800), 0.5. rewrite Hx.
    repeat split; try reflexivity; try lra.
    unfold dividerMargin, Rabs. destruct (Rcase_abs _); lra.
  - destruct (proj2 (second_pointer_discards_strokes drawingCompared 1
                       (pointerAt 1 100 300) (pointerAt 2 365 300) []
                       eq_refl ltac:(discriminate) eq_refl eq_refl))
      as [Hsame Hcommit].
    + split; [reflexivity |]. exists (365 / 800), 0.5. rewrite Hx.
      repeat split; try reflexivity; try lra.
      unfold dividerMargin, Rabs. destruct (Rcase_abs _); lra.
    + split; [exact Hsame |].
      exact (Hcommit sideLeft stroke3 (pointerAt 1 100 300) eq_refl eq_refl).
Defined.

(* ------------------------------------------------------------------ *)
(** ** Viewport transform under zoom *)

Lemma handleWheel_transformOf (e : WheelEvent) (s : State) (side : Side) :
  transformOf side (handleWheel e s) =
  if Side_eqb side (wheelSide e s)
  then scaleBy (if (deltaY e <? Fin 0)%num then Fin 1.1 else Fin 0.9)
               (transformOf side s)
  else transformOf side s.
Proof.
  unfold handleWheel, wheelSide.
  destruct (isComparing s && _); destruct side; reflexivity.
Qed.

Lemma handleWheel_layout (e : WheelEvent) (s : State) :
  rect (handleWheel e s) = rect s /\
  sliderPos (handleWheel e s) = sliderPos s /\
  isComparing (handleWheel e s) = isComparing s.
Proof.
  unfold handleWheel. destruct (isComparing s && _); repeat split; reflexivity.
Qed.

Lemma wheelSide_handleWheel (e e' : WheelEvent) (s : State) :
  wheelSide e (handleWheel e' s) = wheelSide e s.
Proof.
  destruct (handleWheel_layout e' s) as (Hr & Hs & Hc).
  unfold wheelSide, xPct. now rewrite Hr, Hs, Hc.
Qed.

Lemma scaleBy_k_range (f : R) (t : Transform.t) (k : R) :
  Transform.k t = Fin k ->
  exists k', Transform.k (scaleBy (Fin f) t) = Fin k' /\ 0.1 <= k' <= 10.
Proof.
  intros H. unfold scaleBy. cbn [Transform.k]. rewrite H.
  apply clampK_bounds. discriminate.
Qed.

Lemma wheel_factor_fin (e : WheelEvent) :
  exists f, (if (deltaY e <? Fin 0)%num then Fin 1.1 else Fin 0.9) = Fin f /\ 0 < f.
Proof.
  destruct (deltaY e <? Fin 0)%num; [exists 1.1 | exists 0.9]; split; (reflexivity || lra).
Qed.

Lemma handleWheel_kInRange (e : WheelEvent) (s : State) (side : Side) :
  kInRange side s -> kInRange side (handleWheel e s).
Proof.
  intros (k & Hk & Hr). unfold kInRange. rewrite handleWheel_transformOf.
  destruct (Side_eqb side (wheelSide e s)); [| now exists k].
  destruct (wheel_factor_fin e) as (f & -> & _).
  now apply scaleBy_k_range with (k := k).
Qed.

(** Zooming in at most leaves the scale where it is at the upper bound. *)
Lemma zoom_in_step (k : R) :
  0.1 <= k <= 10 ->
  Rmax 0.1 (Rmin (k * 1.1) 10) = Rmin (k * 1.1) 10 /\
  k <= Rmin (k * 1.1) 10.
Proof.
  intros H. unfold Rmax, Rmin.
  destruct (Rle_dec (k * 1.1) 10); destruct (Rle_dec 0.1 _); split; lra.
Qed.

Lemma pow_1_1_100 : 100 <= 1.1 ^ 100.
Proof.
  assert (H25 : 10 <= 1.1 ^ 25) by (cbn [pow]; lra).
  replace 100%nat with (25 + 25 + (25 + 25))%nat by reflexivity.
  rewrite !pow_add.
  assert (H50 : 100 <= 1.1 ^ 25 * 1.1 ^ 25) by nra.
  nra.
Qed.

Lemma wheel_zoom_in_iter (e : WheelEvent) (s : State) (k : R) (n : nat) :
  (deltaY e <? Fin 0)%num = true ->
  Transform.k (transformOf (wheelSide e s) s) = Fin k ->
  0.1 <= k <= 10 ->
  exists kn,
    Transform.k (transformOf (wheelSide e s) (Nat.iter n (handleWheel e) s)) = Fin kn /\
    Rmin (k * 1.1 ^ n) 10 <= kn <= 10 /\ 0.1 <= kn.
Proof.
  intros Hd Hk Hr. induction n as [| n (kn & Hn & Hb & Hl)].
  - exists k. split; [exact Hk |]. cbn [pow]. unfold Rmin.
    destruct (Rle_dec _ _); lra.
  - rewrite Nat.iter_succ.
    assert (Hside : forall m, wheelSide e (Nat.iter m (handleWheel e) s) = wheelSide e s).
    { induction m as [| m IHm]; [reflexivity |].
      rewrite Nat.iter_succ. now rewrite wheelSide_handleWheel. }
    rewrite handleWheel_transformOf, Hside, Hd.
    replace (Side_eqb (wheelSide e s) (wheelSide e s)) with true
      by (now destruct (wheelSide e s)).
    unfold scaleBy. cbn [Transform.k]. rewrite Hn.
    cbn [nmul]. rewrite clampK_fin.
    destruct (zoom_in_step kn) as [-> Hge]; [lra |].
    exists (Rmin (kn * 1.1) 10). split; [reflexivity |].
    assert (Hp : 1 <= 1.1 ^ n) by (apply pow_R1_Rle; lra).
    replace (k * 1.1 ^ S n) with (k * 1.1 ^ n * 1.1) by (cbn; ring).
    revert Hb. set (p := 1.1 ^ n) in *. clearbody p.
    unfold Rmin. repeat destruct (Rle_dec _ _); intros; try lra; nra.
Qed.

Lemma wheel_zoom_in_100 (e : WheelEvent) (s : State) :
  (deltaY e <? Fin 0)%num = true ->
  kInRange (wheelSide e s) s ->
  Transform.k (transformOf (wheelSide e s) (Nat.iter 100 (handleWheel e) s)) = Fin 10.
Proof.
  intros Hd (k & Hk & Hr).
  destruct (wheel_zoom_in_iter e s k 100 Hd Hk Hr) as (kn & -> & Hb & _).
  f_equal. pose proof pow_1_1_100 as Hp.
  revert Hb. unfold Rmin. destruct (Rle_dec _ _); intros; nra.
Qed.

Lemma transformOf_set_active (side : Side) (t : Transform.t) (s : State) :
  transformOf side (set_activeTransform t s) =
  if Side_eqb side (activeSide s) then t else transformOf side s.
Proof. unfold set_activeTransform. destruct side, (activeSide s); reflexivity. Qed.

Lemma transformOf_active (s : State) :
  activeTransform s = transformOf (activeSide s) s.
Proof. reflexivity. Qed.

Lemma pinchMove_transformOf (side : Side) (p0 p1 : PointerEvent) (s : State) :
  transformOf side (pinchMove p0 p1 s) =
  if Side_eqb side (activeSide s) then
    addPan (Point.x (pinchDelta p0 p1 s)) (Point.y (pinchDelta p0 p1 s))
      (scaleBy (pinchZoom p0 p1 s) (transformOf side s))
  else transformOf side s.
Proof.
  unfold pinchMove, set_activeTransform, activeTransform.
  destruct side, (activeSide s); reflexivity.
Qed.

Lemma handlePointerMove_pinch (e : PointerEvent) (s : State) (p0 p1 : PointerEvent) :
  isMiddleMousePanning s = false ->
  Map_has (pointerId e) (pointers s) = true ->
  Map_values (Map_set (pointerId e) e (pointers s)) = [p0; p1] ->
  handlePointerMove e s =
  pinchMove p0 p1 (set_pointers (Map_set (pointerId e) e (pointers s)) s).
Proof.
  intros Hm Hh Hv. unfold handlePointerMove. rewrite Hm, Hh.
  cbn [negb pointers set_pointers]. now rewrite Hv.
Qed.

Lemma pinchZoom_fin (p0 p1 : PointerEvent) (s : State) (d : R) :
  getDist p0 p1 = Fin d -> d <> 0 -> exists z, pinchZoom p0 p1 s = Fin z.
Proof.
  intros Hd Hne. unfold pinchZoom. rewrite Hd.
  destruct (lastDist (gestureState s)) as [l | | |].
  - destruct (Req_dec_T l 0) as [-> | Hl].
    + rewrite nor_0, ndiv_fin by assumption. eauto.
    + rewrite nor_fin, ndiv_fin by assumption. eauto.
  - exists 0. reflexivity.
  - exists 0. reflexivity.
  - unfold nor. cbn [truthy]. rewrite ndiv_fin by assumption. eauto.
Qed.

(** What a pointer-move does to the scale of a pane: nothing, or the
    clamped product with the zoom ratio of the two registered pointers. *)
Lemma handlePointerMove_scale (e : PointerEvent) (s : State) (side : Side) :
  Transform.k (transformOf side (handlePointerMove e s)) =
    Transform.k (transformOf side s) \/
  exists p0 p1,
    Map_values (Map_set (pointerId e) e (pointers s)) = [p0; p1] /\
    Transform.k (transformOf side (handlePointerMove e s)) =
    clampK (Transform.k (transformOf side s)
            * pinchZoom p0 p1 (set_pointers (Map_set (pointerId e) e (pointers s)) s)).
Proof.
  unfold handlePointerMove.
  destruct (isMiddleMousePanning s).
  { left. destruct (middleMouseLastPos s); [| reflexivity].
    unfold set_activeTransform, activeTransform.
    destruct side, (activeSide s); reflexivity. }
  destruct (negb _); [now left |].
  cbn [pointers set_pointers].
  destruct (Map_values _) as [| p0 [| p1 [| ? ?]]] eqn:Hv; try now left.
  - left. destruct (Tool_eqb _ hand).
    + unfold set_activeTransform, activeTransform. cbn [activeSide set_pointers].
      destruct side, (activeSide s); reflexivity.
    + unfold drawMove. repeat case_scrutinee; destruct side; reflexivity.
  - rewrite pinchMove_transformOf. cbn [activeSide set_pointers].
    destruct (Side_eqb side (activeSide s)); [| now left].
    right. exists p0, p1. split; reflexivity.
Qed.

Lemma handlePointerMove_kInRange (e : PointerEvent) (s : State) (side : Side) :
  kInRange side s ->
  (forall p0 p1,
     Map_values (Map_set (pointerId e) e (pointers s)) = [p0; p1] ->
     exists d, getDist p0 p1 = Fin d /\ d <> 0) ->
  kInRange side (handlePointerMove e s).
Proof.
  intros (k & Hk & Hr) Hapart. unfold kInRange.
  destruct (handlePointerMove_scale e s side) as [-> | (p0 & p1 & Hv & ->)].
  - now exists k.
  - destruct (Hapart p0 p1 Hv) as (d & Hd & Hne).
    destruct (pinchZoom_fin p0 p1 (set_pointers (Map_set (pointerId e) e (pointers s)) s)
                d Hd Hne) as (z & ->).
    rewrite Hk. apply clampK_bounds. discriminate.
Qed.

Lemma getDist_level (a b : Z) (x0 x1 y : R) :
  getDist (pointerAt a x0 y) (pointerAt b x1 y) = Fin (Rabs (x0 - x1)).
Proof.
  unfold getDist, pointerAt. cbn [clientX clientY].
  rewrite !nsub_fin, hypot_fin. f_equal.
  replace ((x0 - x1) * (x0 - x1) + (y - y) * (y - y)) with (Rsqr (x0 - x1))
    by (unfold Rsqr; ring).
  apply sqrt_Rsqr_abs.
Qed.

Lemma pinching_apart (p0 p1 : PointerEvent) :
  Map_values (Map_set 2 (pointerAt 2 600 300) (pointers pinching)) = [p0; p1] ->
  exists d, getDist p0 p1 = Fin d /\ d <> 0.
Proof.
  change (Map_values (Map_set 2 (pointerAt 2 600 300) (pointers pinching)))
    with [pointerAt 1 300 300; pointerAt 2 600 300].
  intros H. injection H as <- <-. exists 300. split; [| lra].
  rewrite getDist_level. f_equal. unfold Rabs.
  destruct (Rcase_abs _); lra.
Qed.

(** C4, as stated, fails for the fit on image load: a 10000 x 10000 image
    loaded into the 800 x 600 container gets the scale
    [min(800 / 10000, 600 / 10000) * 0.9 = 0.054], below 0.1. *)
Lemma fit_on_load_leaves_range :
  let s := handleFile (greyImage 10000 10000) (initialState screen) in
  Transform.k (transform s) = Fin 0.054 /\ ~ kInRange sideLeft s.
Proof.
  assert (H : Transform.k (transform (handleFile (greyImage 10000 10000)
                                       (initialState screen))) = Fin 0.054).
  { unfold handleFile. cbn [transform set_history set_paths set_transform Transform.k].
    unfold scaleFit, workspaceAvailW, of_Z.
    cbn [isComparing initialState set_image rect Rect.width Rect.height screen
         Image.width Image.height greyImage flatImage].
    rewrite !ndiv_fin by lra. cbn [Math_min nmul]. f_equal.
    unfold Rmin. destruct (Rle_dec _ _); lra. }
  cbv zeta. split; [exact H |].
  intros (k & Hk & Hr). cbn [transformOf] in Hk. rewrite H in Hk.
  injection Hk as <-. lra.
Qed.

(** C4, amended.  Zoom keeps the scale of a pane within [0.1, 10]: a wheel
    zoom always, and a pointer-move (pan, draw, or pinch) whenever the two
    registered pointers, if there are two, are a finite non-zero distance
    apart.  One hundred zoom-in steps of the wheel over a pane end at
    exactly 10.  The fit on image load and the recenter set the scale to
    [min(availW / w, availH / h) * 0.9], which is not clamped. *)
Theorem zoom_keeps_scale_in_range (side : Side) (s : State) :
  kInRange side s ->
  (forall e, kInRange side (handleWheel e s)) /\
  (forall e,
     (forall p0 p1,
        Map_values (Map_set (pointerId e) e (pointers s)) = [p0; p1] ->
        exists d, getDist p0 p1 = Fin d /\ d <> 0) ->
     kInRange side (handlePointerMove e s)) /\
  (forall e,
     (deltaY e <? Fin 0)%num = true -> wheelSide e s = side ->
     Transform.k (transformOf side (Nat.iter 100 (handleWheel e) s)) = Fin 10) /\
  (forall img,
     Transform.k (transform (handleFile img s)) =
       scaleFit (workspaceAvailW s) (Rect.height (rect s)) img /\
     Transform.k (refTransform (handleReferenceFile img s)) =
       scaleFit (referenceAvailW s) (Rect.height (rect s)) img /\
     (image s = Some img ->
      Transform.k (transform (recenterImage s)) =
        scaleFit (workspaceAvailW s) (Rect.height (rect s)) img) /\
     (referenceImage s = Some img ->
      Transform.k (refTransform (recenterReferenceImage s)) =
        scaleFit (referenceAvailW s) (Rect.height (rect s)) img)).
Proof.
  intros Hk. split; [| split; [| split]].
  - intros e. now apply handleWheel_kInRange.
  - intros e Hapart. now apply handlePointerMove_kInRange.
  - intros e Hd <-. now apply wheel_zoom_in_100.
  - intros img. repeat split.
    + unfold recenterImage. now intros ->.
    + unfold recenterReferenceImage. now intros ->.
Qed.

(** One wheel step and one hundred of them from the initial scale 1, and
    a pinch that moves the second finger from 200 to 300 pixels away. *)
Lemma zoom_keeps_scale_in_range_witness :
  let s := initialState screen in
  let e := mkWheelEvent (Fin 400) (Fin 300) (Fin (-100)) in
  kInRange sideLeft (handleWheel e s) /\
  Transform.k (transformOf sideLeft (Nat.iter 100 (handleWheel e) s)) = Fin 10 /\
  kInRange sideLeft (handlePointerMove (pointerAt 2 600 300) pinching).
Proof.
  assert (Hk : kInRange sideLeft (initialState screen)).
  { exists 1. split; [reflexivity | lra]. }
  assert (Hp : kInRange sideLeft pinching).
  { exists 1. split; [reflexivity | lra]. }
  destruct (zoom_keeps_scale_in_range sideLeft (initialState screen) Hk)
    as (Hw & _ & H100 & _).
  destruct (zoom_keeps_scale_in_range sideLeft pinching Hp) as (_ & Hm & _).
  split; [apply Hw |]. split.
  - apply (H100 (mkWheelEvent (Fin 400) (Fin 300) (Fin (-100)))).
    + apply Rlt_b_true. lra.
    + reflexivity.
  - apply Hm. exact pinching_apart.
Defined.

(* ------------------------------------------------------------------ *)
(** ** Pinch with coincident pointers *)

Lemma getDist_same (p0 p1 : PointerEvent) (x y : R) :
  clientX p0 = Fin x -> clientX p1 = Fin x ->
  clientY p0 = Fin y -> clientY p1 = Fin y ->
  getDist p0 p1 = Fin 0.
Proof.
  intros H0 H1 H2 H3. unfold getDist.
  rewrite H0, H1, H2, H3, !nsub_fin, hypot_fin. f_equal.
  replace (x - x) with 0 by ring. replace (y - y) with 0 by ring.
  apply sqrt_sum_sq_0.
Qed.

(** When the two pointers coincide and the remembered distance is zero as
    well, the zoom ratio is [0 / 0] and every field of the active
    transform becomes NaN, whatever it was. *)
Lemma pinchMove_degenerate (p0 p1 : PointerEvent) (s : State) :
  getDist p0 p1 = Fin 0 ->
  lastDist (gestureState s) = Fin 0 ->
  transformOf (activeSide s) (pinchMove p0 p1 s) = Transform.mk NaN NaN NaN.
Proof.
  intros Hd Hl. rewrite pinchMove_transformOf.
  replace (Side_eqb (activeSide s) (activeSide s)) with true
    by (now destruct (activeSide s)).
  unfold pinchZoom. rewrite Hd, Hl, nor_0, ndiv_0_0.
  unfold addPan, scaleBy. cbn [Transform.k Transform.x Transform.y].
  assert (Hk : clampK (Transform.k (transformOf (activeSide s) s) * NaN) = NaN).
  { now destruct (Transform.k _). }
  rewrite Hk.
  assert (Hn : forall a b : num, (a + b / NaN)%num = NaN).
  { intros a b. now destruct a, b. }
  now rewrite !Hn.
Qed.

(** C6.  What the code does on the failing input.  Two pointers go down
    at the same client position (100, 100), so the remembered distance is
    0; a move event of one of them with the position unchanged then
    computes the zoom ratio [0 / 0]: the scale and both pan offsets of the
    workspace transform become NaN.  When instead the pointers start 10
    pixels apart and one moves onto the other, the zoom ratio is 0 and the
    scale jumps from 1 to the lower bound 0.1. *)
Theorem pinch_coincident_pointers :
  let both := [Down (pointerAt 1 100 100); Down (pointerAt 2 100 100);
               Move (pointerAt 2 100 100)] in
  let onto := [Down (pointerAt 1 100 100); Down (pointerAt 2 110 100);
               Move (pointerAt 2 100 100)] in
  transform (run both (initialState screen)) = Transform.mk NaN NaN NaN /\
  Transform.k (transform (run onto (initialState screen))) = Fin 0.1.
Proof.
  cbv zeta. unfold run. cbn [fold_left step]. split.
  - set (s2 := handlePointerDown (pointerAt 2 100 100)
                 (handlePointerDown (pointerAt 1 100 100) (initialState screen))).
    assert (Hs : isMiddleMousePanning s2 = false /\ activeSide s2 = sideLeft /\
                 pointers s2 = [(1%Z, pointerAt 1 100 100); (2%Z, pointerAt 2 100 100)] /\
                 lastDist (gestureState s2) =
                   getDist (pointerAt 1 100 100) (pointerAt 2 100 100)).
    { repeat split; reflexivity. }
    destruct Hs as (Hm & Ha & Hp & Hl).
    rewrite (handlePointerMove_pinch _ s2 (pointerAt 1 100 100) (pointerAt 2 100 100));
      [| exact Hm | now rewrite Hp | now rewrite Hp].
    set (s3 := set_pointers _ s2).
    change (transform (pinchMove (pointerAt 1 100 100) (pointerAt 2 100 100) s3))
      with (transformOf (activeSide s3) (pinchMove (pointerAt 1 100 100) (pointerAt 2 100 100) s3)).
    apply pinchMove_degenerate.
    + now apply getDist_same with (x := 100) (y := 100).
    + change (lastDist (gestureState s3)) with (lastDist (gestureState s2)).
      rewrite Hl. now apply getDist_same with (x := 100) (y := 100).
  - set (s2 := handlePointerDown (pointerAt 2 110 100)
                 (handlePointerDown (pointerAt 1 100 100) (initialState screen))).
    assert (Hs : isMiddleMousePanning s2 = false /\ activeSide s2 = sideLeft /\
                 pointers s2 = [(1%Z, pointerAt 1 100 100); (2%Z, pointerAt 2 110 100)] /\
                 lastDist (gestureState s2) =
                   getDist (pointerAt 1 100 100) (pointerAt 2 110 100) /\
                 transform s2 = Transform.mk (Fin 0) (Fin 0) (Fin 1)).
    { repeat split; reflexivity. }
    destruct Hs as (Hm & Ha & Hp & Hl & Ht).
    rewrite (handlePointerMove_pinch _ s2 (pointerAt 1 100 100) (pointerAt 2 100 100));
      [| exact Hm | now rewrite Hp | now rewrite Hp].
    set (s3 := set_pointers _ s2).
    change (transform (pinchMove (pointerAt 1 100 100) (pointerAt 2 100 100) s3))
      with (transformOf (activeSide s3) (pinchMove (pointerAt 1 100 100) (pointerAt 2 100 100) s3)).
    rewrite pinchMove_transformOf.
    change (activeSide s3) with sideLeft. cbn [Side_eqb transformOf].
    change (transform s3) with (transform s2). rewrite Ht.
    unfold pinchZoom.
    change (lastDist (gestureState s3)) with (lastDist (gestureState s2)).
    rewrite Hl, (getDist_same _ _ 100 100) by reflexivity.
    assert (Hd : getDist (pointerAt 1 100 100) (pointerAt 2 110 100) = Fin 10).
    { unfold getDist, pointerAt. cbn [clientX clientY].
      rewrite !nsub_fin, hypot_fin. f_equal.
      replace ((100 - 110) * (100 - 110) + (100 - 100) * (100 - 100))
        with (10 * 10) by ring.
      apply sqrt_square. lra. }
    rewrite Hd, nor_fin, ndiv_fin by lra.
    unfold addPan, scaleBy. cbn [Transform.k nmul]. rewrite clampK_fin. f_equal.
    unfold Rmax, Rmin. destruct (Rle_dec _ _); destruct (Rle_dec _ _); lra.
Qed.

(* ------------------------------------------------------------------ *)
(** ** Zoom and the world point under an anchor *)

Lemma toWorld_centre (side : Side) (s : State) (k : R) :
  finiteLayout s ->
  Transform.k (transformOf side s) = Fin k -> k <> 0 ->
  toWorld side s (Point.x (paneCentre side s)) (Point.y (paneCentre side s)) =
  Point.mk (Fin 0 - Transform.x (transformOf side s))%num
           (Fin 0 - Transform.y (transformOf side s))%num.
Proof.
  intros (l & t & w & h & sp & Hr & Hs) Hk Hne.
  destruct side; unfold toWorld, toWorkspaceWorld, toReferenceWorld, paneCentre;
    cbn [transformOf] in Hk; rewrite Hr, ?Hs, Hk;
    cbn [Rect.left Rect.top Rect.width Rect.height Point.x Point.y];
    cbn [nmul nsub nadd nneg]; rewrite !ndiv_fin by lra;
    cbn [nmul nsub nadd nneg]; rewrite !ndiv_fin by assumption;
    repeat match goal with
           | |- context [Fin (?a / k)] =>
               progress replace (a / k) with 0 by (field; assumption)
           end;
    reflexivity.
Qed.

Lemma paneCentre_layout (side : Side) (s s' : State) :
  rect s' = rect s -> sliderPos s' = sliderPos s ->
  paneCentre side s' = paneCentre side s.
Proof. intros Hr Hs. unfold paneCentre. now rewrite Hr, Hs. Qed.

Lemma finiteLayout_layout (s s' : State) :
  rect s' = rect s -> sliderPos s' = sliderPos s ->
  finiteLayout s -> finiteLayout s'.
Proof. intros Hr Hs. unfold finiteLayout. now rewrite Hr, Hs. Qed.

Lemma nsub_nadd_distr (a d : num) :
  (Fin 0 - (a + d))%num = (Fin 0 - a - d)%num.
Proof.
  destruct a, d; cbn; try reflexivity. f_equal. ring.
Qed.

Lemma handlePointerMove_layout (e : PointerEvent) (s : State) :
  rect (handlePointerMove e s) = rect s /\
  sliderPos (handlePointerMove e s) = sliderPos s.
Proof.
  unfold handlePointerMove, pinchMove, drawMove, set_activeTransform.
  repeat case_scrutinee; split; reflexivity.
Qed.

(** C2, as stated, fails for the wheel.  With the scale at 1 and the
    cursor at (500, 300) of the 800 x 600 container, the cursor is over
    world point (100, 0); after one zoom-in step the scale is 1.1, within
    bounds, and the cursor is over (100 / 1.1, 0). *)
Lemma wheel_zoom_moves_anchor :
  let s := initialState screen in
  let e := mkWheelEvent (Fin 500) (Fin 300) (Fin (-100)) in
  toWorld sideLeft s (wheelX e) (wheelY e) = Point.mk (Fin 100) (Fin 0) /\
  Transform.k (transform (handleWheel e s)) = Fin 1.1 /\
  toWorld sideLeft (handleWheel e s) (wheelX e) (wheelY e) =
    Point.mk (Fin (100 / 1.1)) (Fin 0) /\
  toWorld sideLeft (handleWheel e s) (wheelX e) (wheelY e) <>
    toWorld sideLeft s (wheelX e) (wheelY e).
Proof.
  cbv zeta.
  assert (Hw : handleWheel (mkWheelEvent (Fin 500) (Fin 300) (Fin (-100)))
                 (initialState screen) =
               set_transform (Transform.mk (Fin 0) (Fin 0) (Fin 1.1))
                 (initialState screen)).
  { unfold handleWheel. cbn [isComparing initialState andb deltaY].
    cbn [nlt]. rewrite Rlt_b_true by lra.
    unfold scaleBy. cbn [transform initialState Transform.x Transform.y Transform.k nmul].
    rewrite clampK_fin. do 3 f_equal.
    unfold Rmax, Rmin. destruct (Rle_dec _ _); destruct (Rle_dec _ _); lra. }
  rewrite Hw.
  assert (H0 : toWorld sideLeft (initialState screen) (Fin 500) (Fin 300) =
               Point.mk (Fin 100) (Fin 0)).
  { unfold toWorld, toWorkspaceWorld.
    cbn [rect transform initialState screen Rect.left Rect.top Rect.width
         Rect.height Transform.x Transform.y Transform.k].
    rewrite !ndiv_fin by lra. cbn [nsub nadd nneg]. rewrite !ndiv_fin by lra.
    cbn [nsub nadd nneg]. f_equal; f_equal; lra. }
  assert (H1 : toWorld sideLeft
                 (set_transform (Transform.mk (Fin 0) (Fin 0) (Fin 1.1))
                    (initialState screen)) (Fin 500) (Fin 300) =
               Point.mk (Fin (100 / 1.1)) (Fin 0)).
  { unfold toWorld, toWorkspaceWorld.
    cbn [rect transform set_transform initialState screen Rect.left Rect.top
         Rect.width Rect.height Transform.x Transform.y Transform.k].
    rewrite !ndiv_fin by lra. cbn [nsub nadd nneg]. rewrite !ndiv_fin by lra.
    cbn [nsub nadd nneg]. f_equal; f_equal; lra. }
  cbn [wheelX wheelY]. rewrite H0, H1.
  repeat split; try reflexivity.
  intros H. injection H as H. lra.
Qed.

Lemma toWorld_fin (side : Side) (s : State) (l t w h sp x y k cX cY : R) :
  rect s = Rect.mk (Fin l) (Fin t) (Fin w) (Fin h) ->
  sliderPos s = Fin sp ->
  transformOf side s = Transform.mk (Fin x) (Fin y) (Fin k) -> k <> 0 ->
  toWorld side s (Fin cX) (Fin cY) =
  Point.mk (Fin ((cX - l - pickCx side w sp) / k - x))
           (Fin ((cY - t - h / 2) / k - y)).
Proof.
  intros Hr Hs Ht Hk.
  destruct side; unfold toWorld, toWorkspaceWorld, toReferenceWorld, pickCx;
    cbn [transformOf] in Ht; rewrite Hr, ?Hs, Ht;
    cbn [Rect.left Rect.top Rect.width Rect.height
         Transform.x Transform.y Transform.k];
    cbn [nmul nsub nadd nneg]; rewrite !ndiv_fin by lra;
    cbn [nmul nsub nadd nneg]; rewrite !ndiv_fin by assumption;
    cbn [nmul nsub nadd nneg]; f_equal; f_equal; field; assumption.
Qed.

Lemma paneCentre_fin (side : Side) (s : State) (l t w h sp : R) :
  rect s = Rect.mk (Fin l) (Fin t) (Fin w) (Fin h) ->
  sliderPos s = Fin sp ->
  paneCentre side s =
  Point.mk (Fin (l + pickCx side w sp)) (Fin (t + h / 2)).
Proof.
  intros Hr Hs. unfold paneCentre, pickCx. rewrite Hr, Hs.
  cbn [Rect.left Rect.top Rect.width Rect.height].
  destruct side; cbn [nmul nsub nadd nneg]; rewrite !ndiv_fin by lra;
    cbn [nmul nsub nadd nneg]; reflexivity.
Qed.

(** Two quotients of one number by non-zero divisors agree exactly when
    the number is zero or the divisors agree. *)
Lemma same_quotient (a x k k' : R) :
  k <> 0 -> k' <> 0 ->
  a / k' - x = a / k - x <-> k' = k \/ a = 0.
Proof.
  intros Hk Hk'. split.
  - intros H. destruct (Req_dec a 0) as [Ha | Ha]; [now right | left].
    assert (Hq : a / k' * (k * k') = a / k * (k * k')) by (f_equal; lra).
    replace (a / k' * (k * k')) with (a * k) in Hq by (field; assumption).
    replace (a / k * (k * k')) with (a * k') in Hq by (field; assumption).
    symmetry. now apply (Rmult_eq_reg_l a).
  - intros [-> | ->]; [reflexivity |]. unfold Rdiv. now rewrite !Rmult_0_l.
Qed.

Lemma handleWheel_fields (e : WheelEvent) (s : State) (side : Side) (k : R) :
  Transform.k (transformOf side s) = Fin k -> k <> 0 ->
  Transform.x (transformOf side (handleWheel e s)) =
    Transform.x (transformOf side s) /\
  Transform.y (transformOf side (handleWheel e s)) =
    Transform.y (transformOf side s) /\
  Transform.k (transformOf side (handleWheel e s)) =
    (if Side_eqb side (wheelSide e s)
     then clampK (Fin k * (if (deltaY e <? Fin 0)%num then Fin 1.1 else Fin 0.9))
     else Fin k) /\
  exists k', Transform.k (transformOf side (handleWheel e s)) = Fin k' /\ k' <> 0.
Proof.
  intros Hk Hne. rewrite handleWheel_transformOf.
  destruct (Side_eqb side (wheelSide e s)).
  - unfold scaleBy. cbn [Transform.x Transform.y Transform.k]. rewrite Hk.
    repeat split.
    destruct (wheel_factor_fin e) as (f & -> & _).
    destruct (clampK_bounds (Fin k * Fin f)) as (c & Hc & Hb); [discriminate |].
    exists c. split; [exact Hc | lra].
  - repeat split; [exact Hk |]. now exists k.
Qed.

Lemma point_fin_eq (a b c d : R) :
  Point.mk (Fin a) (Fin b) = Point.mk (Fin c) (Fin d) <-> a = c /\ b = d.
Proof.
  split; [intros H; injection H as -> ->; now split | now intros [-> ->]].
Qed.

(** C2, amended.  The zoom handlers scale about the centre of the pane,
    not about the cursor or the midpoint.  For a pane with a finite
    non-zero scale [k] in a finite layout:

    - a wheel zoom keeps the pan of the pane and sets its scale to
      [clamp(k * 1.1)] or [clamp(k * 0.9)] when the cursor is over the
      pane (and keeps the scale otherwise), so the world point under the
      pane's centre is where it was; with a finite pan, the world point
      under a finite cursor position is where it was exactly when the
      scale has not changed or the cursor is at the pane's centre;
    - a two-pointer move whose zoom ratio [dist / (lastDist || dist)] is
      a number sets the scale to [k' = clamp(k * ratio)] and then adds
      [d / k'] to the pan, where [d] is the displacement of the midpoint,
      so the world point under the pane's centre moves by [- d / k']:
      with a finite pan and a finite [d], it is where it was exactly when
      [d] is zero. *)
Theorem zoom_fixes_pane_centre (side : Side) (s : State) (k : R) :
  finiteLayout s ->
  Transform.k (transformOf side s) = Fin k -> k <> 0 ->
  let cx := Point.x (paneCentre side s) in
  let cy := Point.y (paneCentre side s) in
  (forall e,
     let s' := handleWheel e s in
     Transform.x (transformOf side s') = Transform.x (transformOf side s) /\
     Transform.y (transformOf side s') = Transform.y (transformOf side s) /\
     Transform.k (transformOf side s') =
       (if Side_eqb side (wheelSide e s)
        then clampK (Fin k * (if (deltaY e <? Fin 0)%num then Fin 1.1 else Fin 0.9))
        else Fin k) /\
     toWorld side s' cx cy = toWorld side s cx cy /\
     (forall x y cX cY,
        Transform.x (transformOf side s) = Fin x ->
        Transform.y (transformOf side s) = Fin y ->
        (toWorld side s' (Fin cX) (Fin cY) = toWorld side s (Fin cX) (Fin cY) <->
         Transform.k (transformOf side s') = Fin k \/
         Point.mk (Fin cX) (Fin cY) = paneCentre side s))) /\
  (forall e p0 p1,
     isMiddleMousePanning s = false ->
     Map_has (pointerId e) (pointers s) = true ->
     Map_values (Map_set (pointerId e) e (pointers s)) = [p0; p1] ->
     activeSide s = side ->
     pinchZoom p0 p1 s <> NaN ->
     let s' := handlePointerMove e s in
     let d := pinchDelta p0 p1 s in
     let k' := Transform.k (transformOf side s') in
     k' = clampK (Fin k * pinchZoom p0 p1 s) /\
     Transform.x (transformOf side s') =
       (Transform.x (transformOf side s) + Point.x d / k')%num /\
     Transform.y (transformOf side s') =
       (Transform.y (transformOf side s) + Point.y d / k')%num /\
     toWorld side s' cx cy =
       Point.mk (Point.x (toWorld side s cx cy) - Point.x d / k')%num
                (Point.y (toWorld side s cx cy) - Point.y d / k')%num /\
     (forall x y dx dy,
        Transform.x (transformOf side s) = Fin x ->
        Transform.y (transformOf side s) = Fin y ->
        d = Point.mk (Fin dx) (Fin dy) ->
        (toWorld side s' cx cy = toWorld side s cx cy <-> dx = 0 /\ dy = 0))).
Proof.
  intros Hlay Hk Hne cx cy. subst cx cy. split.
  - intros e s'.
    destruct (handleWheel_layout e s) as (Hr & Hs & _).
    destruct (handleWheel_fields e s side k Hk Hne) as (Hx & Hy & Hkf & k' & Hk' & Hne').
    fold s' in Hr, Hs, Hx, Hy, Hkf, Hk'.
    split; [exact Hx |]. split; [exact Hy |]. split; [exact Hkf |]. split.
    + rewrite (toWorld_centre side s k Hlay Hk Hne).
      rewrite <- (paneCentre_layout side s s' Hr Hs).
      rewrite (toWorld_centre side s' k' (finiteLayout_layout _ _ Hr Hs Hlay) Hk' Hne').
      now rewrite Hx, Hy.
    + intros x y cX cY Hxs Hys.
      destruct Hlay as (l & t & w & h & sp & Hrs & Hss).
      assert (Ht : transformOf side s = Transform.mk (Fin x) (Fin y) (Fin k)).
      { destruct (transformOf side s); cbn in *; congruence. }
      assert (Ht' : transformOf side s' = Transform.mk (Fin x) (Fin y) (Fin k')).
      { rewrite Hxs in Hx. rewrite Hys in Hy.
        destruct (transformOf side s'); cbn in *; congruence. }
      rewrite (toWorld_fin side s' l t w h sp x y k' cX cY)
        by (congruence || assumption).
      rewrite (toWorld_fin side s l t w h sp x y k cX cY Hrs Hss Ht Hne).
      rewrite (paneCentre_fin side s l t w h sp Hrs Hss).
      rewrite Hk', !point_fin_eq.
      rewrite (same_quotient _ x k k' Hne Hne'), (same_quotient _ y k k' Hne Hne').
      split.
      * intros [[-> | Ha] [Hb | Hb]]; try (left; reflexivity || now f_equal).
        right. split; lra.
      * intros [H | [Ha Hb]].
        -- injection H as ->. split; now left.
        -- split; right; lra.
  - intros e p0 p1 Hm Hh Hv Ha Hz s' d k'.
    pose proof (toWorld_centre side s k Hlay Hk Hne) as Hw0.
    destruct (handlePointerMove_layout e s) as (Hr & Hs).
    fold s' in Hr, Hs.
    assert (Ht : transformOf side s' =
                 addPan (Point.x d) (Point.y d)
                   (scaleBy (pinchZoom p0 p1 s) (transformOf side s))).
    { unfold s'. rewrite (handlePointerMove_pinch e s p0 p1 Hm Hh Hv).
      rewrite pinchMove_transformOf. cbn [activeSide set_pointers].
      rewrite Ha. now destruct side. }
    assert (Hk2 : k' = clampK (Fin k * pinchZoom p0 p1 s)).
    { unfold k'. rewrite Ht. unfold addPan, scaleBy. cbn [Transform.k].
      now rewrite Hk. }
    assert (Hk' : exists kv, k' = Fin kv /\ 0.1 <= kv <= 10).
    { rewrite Hk2. apply clampK_bounds.
      destruct (pinchZoom p0 p1 s) eqn:Ez; [discriminate | | | now elim Hz];
        unfold nmul, inf_of, sign_of;
        repeat destruct (Rlt_dec _ _); cbn; try discriminate; lra. }
    destruct Hk' as (kv & Hkv & Hb).
    assert (Hxs : Transform.x (transformOf side s') =
                  (Transform.x (transformOf side s) + Point.x d / k')%num).
    { unfold k'. rewrite Ht. reflexivity. }
    assert (Hys : Transform.y (transformOf side s') =
                  (Transform.y (transformOf side s) + Point.y d / k')%num).
    { unfold k'. rewrite Ht. reflexivity. }
    assert (Hc : toWorld side s' (Point.x (paneCentre side s))
                   (Point.y (paneCentre side s)) =
                 Point.mk (Fin 0 - Transform.x (transformOf side s) - Point.x d / k')%num
                          (Fin 0 - Transform.y (transformOf side s) - Point.y d / k')%num).
    { rewrite <- (paneCentre_layout side s s' Hr Hs).
      rewrite (toWorld_centre side s' kv (finiteLayout_layout _ _ Hr Hs Hlay));
        [| exact Hkv | lra].
      rewrite Hxs, Hys. now rewrite !nsub_nadd_distr. }
    split; [exact Hk2 |]. split; [exact Hxs |]. split; [exact Hys |].
    split; [rewrite Hw0; exact Hc |].
    intros x y dx dy Hx Hy Hd. rewrite Hc, Hw0, Hx, Hy, Hd, Hkv.
    cbn [Point.x Point.y]. rewrite !ndiv_fin by lra. cbn [nsub nadd nneg].
    rewrite point_fin_eq.
    assert (Hq : forall u, u / kv = 0 <-> u = 0).
    { intros u. split; [| intros ->; unfold Rdiv; now rewrite Rmult_0_l].
      intros H. replace u with (u / kv * kv) by (field; lra). rewrite H. ring. }
    split.
    + intros [H1 H2]. split; apply Hq; lra.
    + intros [-> ->]. unfold Rdiv. rewrite !Rmult_0_l. split; ring.
Qed.

(** A wheel step with the cursor at (500, 300), which changes the scale
    and so moves the world point under the cursor, and the pinch that
    moves the second finger from x = 500 to x = 600. *)
Lemma zoom_fixes_pane_centre_witness :
  let cx := Point.x (paneCentre sideLeft (initialState screen)) in
  let cy := Point.y (paneCentre sideLeft (initialState screen)) in
  (let s := initialState screen in
   let e := mkWheelEvent (Fin 500) (Fin 300) (Fin (-100)) in
   let s' := handleWheel e s in
   Transform.k (transformOf sideLeft s') = clampK (Fin 1 * Fin 1.1) /\
   toWorld sideLeft s' cx cy = toWorld sideLeft s cx cy /\
   (toWorld sideLeft s' (Fin 500) (Fin 300) = toWorld sideLeft s (Fin 500) (Fin 300) <->
    Transform.k (transformOf sideLeft s') = Fin 1 \/
    Point.mk (Fin 500) (Fin 300) = paneCentre sideLeft s)) /\
  (let s := pinching in
   let p0 := pointerAt 1 300 300 in
   let p1 := pointerAt 2 600 300 in
   let s' := handlePointerMove p1 s in
   let d := pinchDelta p0 p1 s in
   let k' := Transform.k (transformOf sideLeft s') in
   k' = clampK (Fin 1 * pinchZoom p0 p1 s) /\
   toWorld sideLeft s' cx cy =
   Point.mk (Point.x (toWorld sideLeft s cx cy) - Point.x d / k')%num
            (Point.y (toWorld sideLeft s cx cy) - Point.y d / k')%num).
Proof.
  assert (Hlay : finiteLayout (initialState screen)).
  { exists 0, 0, 800, 600, 0.5. split; reflexivity. }
  assert (Hlay' : finiteLayout pinching).
  { exists 0, 0, 800, 600, 0.5. split; reflexivity. }
  assert (Hne : 1 <> 0) by lra.
  split.
  - destruct (proj1 (zoom_fixes_pane_centre sideLeft (initialState screen) 1
                       Hlay eq_refl Hne)
                (mkWheelEvent (Fin 500) (Fin 300) (Fin (-100))))
      as (_ & _ & Hk & Hc & Hiff).
    cbv zeta. split; [| split].
    + rewrite Hk.
      change (wheelSide (mkWheelEvent (Fin 500) (Fin 300) (Fin (-100)))
                (initialState screen)) with sideLeft.
      cbn [Side_eqb deltaY nlt]. now rewrite Rlt_b_true by lra.
    + exact Hc.
    + exact (Hiff 0 0 500 300 eq_refl eq_refl).
  - destruct (proj2 (zoom_fixes_pane_centre sideLeft pinching 1 Hlay' eq_refl Hne)
                (pointerAt 2 600 300) (pointerAt 1 300 300) (pointerAt 2 600 300))
      as (Hk & _ & _ & Hc & _); try reflexivity.
    + destruct (pinchZoom_fin (pointerAt 1 300 300) (pointerAt 2 600 300) pinching 300)
        as (z & ->); [| lra | discriminate].
      rewrite getDist_level. f_equal. unfold Rabs. destruct (Rcase_abs _); lra.
    + split; [exact Hk | exact Hc].
Defined.

(* ------------------------------------------------------------------ *)
(** ** Screen to world and back *)

Lemma Ctx_apply_pane (dpr cx cy k x y wx wy : R) :
  Ctx.apply
    (Ctx.translate (Fin x) (Fin y)
       (Ctx.scale (Fin k) (Fin k)
          (Ctx.translate (Fin cx) (Fin cy)
             (Ctx.scale (Fin dpr) (Fin dpr) Ctx.identity))))
    (Point.mk (Fin wx) (Fin wy)) =
  Point.mk (Fin (dpr * (cx + k * (wx + x)))) (Fin (dpr * (cy + k * (wy + y)))).
Proof.
  unfold Ctx.apply, Ctx.translate, Ctx.scale, Ctx.identity.
  cbn [Ctx.a Ctx.d Ctx.e Ctx.f Point.x Point.y nmul nadd].
  f_equal; f_equal; ring.
Qed.

(** Where the point under the cursor is painted.  Outside comparison mode
    the workspace paints it under the cursor.  In comparison mode
    [toWorkspaceWorld] still measures from the middle of the whole
    container while [drawWorkspace] centres on the middle of the left
    pane: the point is painted [width * (1 - sliderPos) / 2] to the left
    of the cursor.  The reference pane paints it under the cursor. *)
Lemma workspace_round_trip (s : State) (l t w h sp x y k dpr cX cY : R) :
  rect s = Rect.mk (Fin l) (Fin t) (Fin w) (Fin h) ->
  sliderPos s = Fin sp ->
  transform s = Transform.mk (Fin x) (Fin y) (Fin k) ->
  k <> 0 -> dpr <> 0 ->
  workspaceToClient s (Fin dpr) (toWorkspaceWorld s (Fin cX) (Fin cY)) =
  Point.mk (Fin (if isComparing s then cX - w * (1 - sp) / 2 else cX)) (Fin cY).
Proof.
  intros Hr Hs Ht Hk Hd.
  unfold workspaceToClient, canvasToClient, workspaceMatrix, drawWorkspace,
    toWorkspaceWorld.
  rewrite Hr, Hs, Ht.
  cbn [Rect.left Rect.top Rect.width Rect.height
       Transform.x Transform.y Transform.k].
  destruct (isComparing s);
    cbn [nmul nsub nadd nneg]; rewrite !ndiv_fin by lra;
    cbn [nmul nsub nadd nneg]; rewrite !ndiv_fin by assumption;
    cbn [nmul nsub nadd nneg]; rewrite Ctx_apply_pane;
    cbn [Point.x Point.y]; rewrite !ndiv_fin by assumption;
    cbn [nadd]; f_equal; f_equal; field; auto.
Qed.

Lemma reference_round_trip (s : State) (l t w h sp x y k dpr cX cY : R) :
  rect s = Rect.mk (Fin l) (Fin t) (Fin w) (Fin h) ->
  sliderPos s = Fin sp ->
  refTransform s = Transform.mk (Fin x) (Fin y) (Fin k) ->
  k <> 0 -> dpr <> 0 ->
  referenceToClient s (Fin dpr) (toReferenceWorld s (Fin cX) (Fin cY)) =
  Point.mk (Fin cX) (Fin cY).
Proof.
  intros Hr Hs Ht Hk Hd.
  unfold referenceToClient, canvasToClient, drawReference, toReferenceWorld.
  rewrite Hr, Hs, Ht.
  cbn [Rect.left Rect.top Rect.width Rect.height
       Transform.x Transform.y Transform.k].
  cbn [nmul nsub nadd nneg]; rewrite !ndiv_fin by lra;
    cbn [nmul nsub nadd nneg]; rewrite !ndiv_fin by assumption;
    cbn [nmul nsub nadd nneg]; rewrite Ctx_apply_pane;
    cbn [Point.x Point.y]; rewrite !ndiv_fin by assumption;
    cbn [nadd]; f_equal; f_equal; field; auto.
Qed.

(** C7.  What the code does on the failing input: comparison mode, the
    slider at 0.5 of the 800 x 600 container, the workspace transform at
    its initial value.  The cursor at client (100, 300) is converted to the
    world point (-300, 0), which the compositor paints at client
    (-100, 300): 200 pixels to the left of the cursor, outside the
    canvas.  The reference pane, whose two conversions agree, paints the
    point under the cursor at (700, 300) back at (700, 300). *)
Theorem workspace_stroke_offset_in_comparison :
  let s := comparing in
  toWorkspaceWorld s (Fin 100) (Fin 300) = Point.mk (Fin (-300)) (Fin 0) /\
  workspaceToClient s (Fin 1) (toWorkspaceWorld s (Fin 100) (Fin 300)) =
    Point.mk (Fin (-100)) (Fin 300) /\
  referenceToClient s (Fin 1) (toReferenceWorld s (Fin 700) (Fin 300)) =
    Point.mk (Fin 700) (Fin 300).
Proof.
  cbv zeta. split; [| split].
  - unfold toWorkspaceWorld.
    cbn [rect transform comparing set_isComparing initialState screen
         Rect.left Rect.top Rect.width Rect.height
         Transform.x Transform.y Transform.k].
    rewrite !ndiv_fin by lra. cbn [nsub nadd nneg]. rewrite !ndiv_fin by lra.
    cbn [nsub nadd nneg]. f_equal; f_equal; lra.
  - rewrite (workspace_round_trip comparing 0 0 800 600 0.5 0 0 1 1 100 300)
      by (reflexivity || lra).
    cbn [isComparing comparing set_isComparing]. f_equal; f_equal; lra.
  - apply (reference_round_trip comparing 0 0 800 600 0.5 0 0 1 1 700 300);
      (reflexivity || lra).
Qed.

(* ------------------------------------------------------------------ *)
(** ** Edge-snap analyzer *)

Lemma In_Zrange (lo hi z : Z) : In z (Zrange lo hi) <-> (lo <= z < hi)%Z.
Proof.
  unfold Zrange. rewrite in_map_iff. split.
  - intros (i & <- & Hi). apply in_seq in Hi. lia.
  - intros H. exists (Z.to_nat (z - lo)). split; [lia |].
    apply in_seq. lia.
Qed.

Lemma fold_left_fixed {A B : Type} (f : A -> B -> A) (l : list B) (a : A) :
  (forall b, In b l -> f a b = a) -> fold_left f l a = a.
Proof.
  induction l as [| b l IH]; intros H; [reflexivity |].
  cbn. rewrite (H b) by now left. apply IH. intros b' Hb'. apply H. now right.
Qed.

Section ScanFacts.

Variable data : Z -> option Z.
Variables padStartX padStartY padW imgX imgY : Z.
Variables dirX dirY perpX perpY : num.
Variable hasDirection : bool.

Let strength := edgeStrength data padStartX padStartY padW.
Let scanOf :=
  scan data padStartX padStartY padW imgX imgY dirX dirY perpX perpY hasDirection.

(** When every candidate of the window is below the strength floor, the
    scan ends as it started: [maxScore = -1] and the cursor pixel. *)
Lemma scan_all_weak (startX startY endX endY : Z) :
  (forall px py,
     (startX <= px < endX)%Z -> (startY <= py < endY)%Z ->
     (strength px py <? Fin 5)%num = true) ->
  scanOf startX startY endX endY = (Fin (-1), imgX, imgY).
Proof.
  intros Hweak. unfold scanOf, scan.
  apply fold_left_fixed. intros py Hpy. apply In_Zrange in Hpy.
  unfold scanRow. apply fold_left_fixed. intros px Hpx. apply In_Zrange in Hpx.
  unfold visit. fold strength. now rewrite Hweak.
Qed.

End ScanFacts.

Lemma snapToEdge_fin (wx wy : R) (img : Image.t) (prev : option (list Point.t)) :
  snapToEdge (Fin wx) (Fin wy) (Some img) prev =
  let '(imgX, imgY) := cursorPixel img wx wy in
  let '(dirX, dirY, hasDirection) := drawingDirection prev in
  let perpX := if hasDirection then nneg dirY else Fin 0 in
  let perpY := if hasDirection then dirX else Fin 0 in
  let '(startX, startY, endX, endY) := snapWindow img imgX imgY in
  if ((endX - startX <=? 2) || (endY - startY <=? 2))%Z%bool
  then Point.mk (Fin wx) (Fin wy)
  else
    let '(padStartX, padStartY, padW, padH) :=
      snapPad img startX startY endX endY in
    let data := getImageData img padStartX padStartY padW padH in
    let '(maxScore, bestX, bestY) :=
      scan data padStartX padStartY padW imgX imgY
           dirX dirY perpX perpY hasDirection startX startY endX endY in
    if (maxScore <? Fin 5)%num then Point.mk (Fin wx) (Fin wy)
    else
      let snapX := IZR bestX - IZR (Image.width img) / 2 in
      let snapY := IZR bestY - IZR (Image.height img) / 2 in
      let snapDx := snapX - wx in
      let snapDy := snapY - wy in
      let snapDist := sqrt (snapDx * snapDx + snapDy * snapDy) in
      if Rlt_b 6 snapDist then
        Point.mk (Fin (wx + snapDx * (6 / snapDist)))
                 (Fin (wy + snapDy * (6 / snapDist)))
      else Point.mk (Fin snapX) (Fin snapY).
Proof.
  unfold snapToEdge, cursorPixel, of_Z.
  rewrite !ndiv_fin by lra. cbn [nadd].
  destruct (drawingDirection prev) as [[dirX dirY] hasDirection].
  destruct (snapWindow _ _ _) as [[[startX startY] endX] endY].
  destruct (_ || _)%bool; [reflexivity |].
  destruct (snapPad _ _ _ _ _) as [[[padStartX padStartY] padW] padH].
  destruct (scan _ _ _ _ _ _ _ _ _ _ _ _ _ _ _) as [[maxScore bestX] bestY].
  destruct (maxScore <? Fin 5)%num; [reflexivity |].
  cbn [nsub nadd nneg Math_hypot ngt nlt].
  unfold Rlt_b. destruct (Rlt_dec 6 _) as [Hlt | Hge]; [| reflexivity].
  rewrite ndiv_fin; [reflexivity |].
  intros H0. unfold Rminus in H0. rewrite H0 in Hlt. lra.
Qed.

Lemma distance_self (ax ay : R) : distance ax ay ax ay = 0.
Proof.
  unfold distance. replace (ax - ax) with 0 by ring.
  replace (ay - ay) with 0 by ring. apply sqrt_sum_sq_0.
Qed.

Lemma distance_clamped (wx wy dx dy : R) :
  6 < sqrt (dx * dx + dy * dy) ->
  distance (wx + dx * (6 / sqrt (dx * dx + dy * dy)))
           (wy + dy * (6 / sqrt (dx * dx + dy * dy))) wx wy = 6.
Proof.
  intros H. set (d := sqrt (dx * dx + dy * dy)) in *. unfold distance.
  replace (wx + dx * (6 / d) - wx) with (dx * (6 / d)) by ring.
  replace (wy + dy * (6 / d) - wy) with (dy * (6 / d)) by ring.
  rewrite sqrt_sum_sq_scale.
  - fold d. field. lra.
  - apply Rlt_le, Rdiv_lt_0_compat; lra.
Qed.

(** C8.  For every finite cursor, every image (or none) and every list of
    previous points, the point that [snapToEdge] returns is finite and at
    Euclidean distance at most 6 from the cursor. *)
Theorem snapToEdge_within_clamp (wx wy : R) (targetImage : option Image.t)
    (prevPoints : option (list Point.t)) :
  exists rx ry,
    snapToEdge (Fin wx) (Fin wy) targetImage prevPoints = Point.mk (Fin rx) (Fin ry) /\
    distance rx ry wx wy <= 6.
Proof.
  assert (Hraw : exists rx ry,
             Point.mk (Fin wx) (Fin wy) = Point.mk (Fin rx) (Fin ry) /\
             distance rx ry wx wy <= 6).
  { exists wx, wy. split; [reflexivity |]. rewrite distance_self. lra. }
  destruct targetImage as [img |]; [| exact Hraw].
  rewrite snapToEdge_fin.
  destruct (cursorPixel img wx wy) as [imgX imgY].
  destruct (drawingDirection prevPoints) as [[dirX dirY] hasDirection].
  destruct (snapWindow _ _ _) as [[[startX startY] endX] endY].
  destruct (_ || _)%bool; [exact Hraw |].
  destruct (snapPad _ _ _ _ _) as [[[padStartX padStartY] padW] padH].
  cbv zeta.
  destruct (scan _ _ _ _ _ _ _ _ _ _ _ _ _ _ _) as [[maxScore bestX] bestY].
  destruct (maxScore <? Fin 5)%num; [exact Hraw |].
  unfold Rlt_b. destruct (Rlt_dec 6 _) as [Hlt | Hge].
  - eexists _, _. split; [reflexivity |].
    rewrite distance_clamped by exact Hlt. lra.
  - eexists _, _. split; [reflexivity |].
    unfold distance. lra.
Qed.

(** *** A flat image has no edge *)

Lemma getImageData_flat (w h : Z) (rgba : Z -> Z) (sx sy sw sh lx ly c : Z) :
  (0 <= sx)%Z -> (0 <= sy)%Z -> (sx + sw <= w)%Z -> (sy + sh <= h)%Z ->
  (0 <= lx < sw)%Z -> (0 <= ly < sh)%Z -> (0 <= c < 4)%Z ->
  getImageData (flatImage w h rgba) sx sy sw sh ((ly * sw + lx) * 4 + c)%Z
  = Some (rgba c).
Proof.
  intros Hsx Hsy Hw Hh Hlx Hly Hc. unfold getImageData.
  assert (Hq : (((ly * sw + lx) * 4 + c) / 4 = ly * sw + lx)%Z).
  { rewrite Z.div_add_l by lia. rewrite Z.div_small by lia. lia. }
  assert (Hr : (((ly * sw + lx) * 4 + c) mod 4 = c)%Z).
  { rewrite Z.add_comm, Z.mod_add by lia. apply Z.mod_small. lia. }
  assert (Hqq : ((ly * sw + lx) / sw = ly)%Z).
  { rewrite Z.div_add_l by lia. rewrite Z.div_small by lia. lia. }
  assert (Hqr : ((ly * sw + lx) mod sw = lx)%Z).
  { rewrite Z.add_comm, Z.mod_add by lia. apply Z.mod_small. lia. }
  rewrite Hq, Hr, Hqq, Hqr.
  assert (Hin : ((0 <=? (ly * sw + lx) * 4 + c)
                 && ((ly * sw + lx) * 4 + c <? 4 * sw * sh))%Z%bool = true).
  { apply andb_true_iff. split; [apply Z.leb_le | apply Z.ltb_lt]; nia. }
  rewrite Hin. unfold canvasPixel, flatImage. cbn [Image.width Image.height Image.pixel].
  assert (Hb : ((0 <=? sx + lx) && (sx + lx <? w)
                && (0 <=? sy + ly) && (sy + ly <? h))%Z%bool = true).
  { repeat (apply andb_true_iff; split);
      (apply Z.leb_le || apply Z.ltb_lt); lia. }
  now rewrite Hb.
Qed.

Section FlatWindow.

Variables (w h : Z) (rgba : Z -> Z).
Variables sx sy sw sh : Z.
Hypothesis Hsx : (0 <= sx)%Z.
Hypothesis Hsy : (0 <= sy)%Z.
Hypothesis Hw : (sx + sw <= w)%Z.
Hypothesis Hh : (sy + sh <= h)%Z.

Let data := getImageData (flatImage w h rgba) sx sy sw sh.

Lemma flat_data (qx qy c : Z) :
  (sx <= qx < sx + sw)%Z -> (sy <= qy < sy + sh)%Z -> (0 <= c < 4)%Z ->
  data (((qy - sy) * sw + (qx - sx)) * 4 + c)%Z = Some (rgba c).
Proof.
  intros Hx Hy Hc. unfold data. apply getImageData_flat; lia.
Qed.

Lemma flat_lum (qx qy : Z) :
  (sx <= qx < sx + sw)%Z -> (sy <= qy < sy + sh)%Z ->
  lum data sx sy sw qx qy = Fin (flatLum rgba).
Proof.
  intros Hx Hy. unfold lum. cbv zeta.
  pose proof (flat_data qx qy 0 Hx Hy ltac:(lia)) as H0.
  rewrite Z.add_0_r in H0.
  rewrite H0, !flat_data by lia.
  unfold elt, of_Z. rewrite ndiv_fin by lra. reflexivity.
Qed.

Lemma flat_edgeStrength (px py : Z) :
  (sx < px < sx + sw - 1)%Z -> (sy < py < sy + sh - 1)%Z ->
  edgeStrength data sx sy sw px py = Fin 0.
Proof.
  intros Hx Hy. unfold edgeStrength, gradMag, gradX, gradY, alphaGrad.
  rewrite !flat_lum by lia. cbv zeta.
  replace (px - 1 - sx)%Z with ((px - 1) - sx)%Z by lia.
  replace (px + 1 - sx)%Z with ((px + 1) - sx)%Z by lia.
  replace (py - 1 - sy)%Z with ((py - 1) - sy)%Z by lia.
  replace (py + 1 - sy)%Z with ((py + 1) - sy)%Z by lia.
  rewrite !flat_data by lia.
  unfold elt_or_0, of_Z. rewrite !nsub_fin, !hypot_fin, ndiv_fin by lra.
  cbn [nmul nadd]. f_equal.
  replace (flatLum rgba - flatLum rgba) with 0 by ring.
  replace (IZR (rgba 3%Z) - IZR (rgba 3%Z)) with 0 by ring.
  rewrite sqrt_sum_sq_0. lra.
Qed.

End FlatWindow.

(** On a flat image no candidate reaches the strength floor. *)
Lemma flat_candidateStrength (w h : Z) (rgba : Z -> Z)
    (imgX imgY startX startY endX endY px py : Z) :
  snapWindow (flatImage w h rgba) imgX imgY = (startX, startY, endX, endY) ->
  (startX <= px < endX)%Z -> (startY <= py < endY)%Z ->
  (candidateStrength (flatImage w h rgba) startX startY endX endY px py
     <? Fin 5)%num = true.
Proof.
  unfold snapWindow. cbn [Image.width Image.height flatImage].
  intros Hwin Hx Hy. injection Hwin as <- <- <- <-.
  unfold candidateStrength, snapPad. cbn [Image.width Image.height flatImage].
  rewrite (flat_edgeStrength w h rgba) by lia.
  cbn [nlt]. apply Rlt_b_true. lra.
Qed.

Lemma round_half_up_IZR (z : Z) : round_half_up (IZR z) = z.
Proof. unfold round_half_up. apply Zfloor_eq. lra. Qed.

(* ------------------------------------------------------------------ *)
(** ** The ink lists are what the array objects hold *)

Lemma handlers_on_ink (side : Side) (s : State) :
  ink side (undo side s) = inkUndo (ink side s) /\
  ink side (redo side s) = inkRedo (ink side s) /\
  ink sideLeft (handleClear s) = inkClear (ink sideLeft s) /\
  ink sideRight (handleRefClear s) = inkClear (ink sideRight s) /\
  (forall img, ink sideLeft (handleFile img s) = inkLoad (ink sideLeft s)) /\
  (forall img,
     ink sideRight (handleReferenceFile img s) = inkLoad (ink sideRight s)).
Proof.
  repeat split; try reflexivity; destruct side;
    unfold undo, redo, handleUndo, handleRedo, handleRefUndo, handleRefRedo,
      ink, inkUndo, inkRedo, strokes, undoStack, redoEntries;
    match goal with
    | |- context [Array_pop ?a] => destruct (Array_pop a) as [rest [top |]]
    end; reflexivity.
Qed.

Lemma commit_on_ink (side : Side) (e : PointerEvent) (s : State) (p : Path.t) :
  releases e s -> inProgress side s = Some p ->
  ink side (handlePointerUp e s) = inkCommit p (ink side s).
Proof. intros Hr Hc. now rewrite (handlePointerUp_commit side e s p). Qed.

Lemma last_cons_default {A : Type} (a : list A) (v d : A) :
  last (v :: a) d = last a v.
Proof.
  revert v d. induction a as [| u a IH]; intros v d; [reflexivity |].
  change (last (v :: u :: a) d) with (last (u :: a) d).
  now rewrite !IH.
Qed.

Lemma Array_pop_In {A : Type} (a rest : list A) (top : A) :
  Array_pop a = (rest, Some top) -> a = Array_push rest top.
Proof.
  unfold Array_pop, Array_push. destruct a as [| v a']; [discriminate |].
  intros H. injection H as <- <-. rewrite <- (last_cons_default a' v v).
  apply app_removelast_last. discriminate.
Qed.

Lemma Array_pop_map {A B : Type} (f : A -> B) (a : list A) :
  Array_pop (map f a) =
  (map f (fst (Array_pop a)), option_map f (snd (Array_pop a))).
Proof.
  destruct (Array_pop a) as [rest [top |]] eqn:E.
  - apply Array_pop_In in E. subst a. unfold Array_push.
    rewrite map_app. cbn [map]. apply (Array_pop_push (map f rest) (f top)).
  - destruct a; [| discriminate]. cbn in E. now injection E as <-.
Qed.

Lemma NoDup_push (l : list nat) (n : nat) :
  NoDup l -> ~ In n l -> NoDup (Array_push l n).
Proof.
  unfold Array_push. induction 1 as [| a l Ha Hl IH]; intros Hn.
  - repeat constructor. intros [].
  - cbn. constructor.
    + intros Hin. apply in_app_or in Hin as [Hin | [<- | []]]; [now apply Ha |].
      apply Hn. now left.
    + apply IH. intros Hin. apply Hn. now right.
Qed.

(** Pushing the reference of a newly allocated array keeps the references
    distinct and allocated. *)
Lemma separate_push (refs : list nat) (n : nat) :
  NoDup refs -> (forall l, In l refs -> (l < n)%nat) ->
  NoDup (Array_push refs n) /\
  forall l, In l (Array_push refs n) -> (l < S n)%nat.
Proof.
  intros Hnd Hb. split.
  - apply NoDup_push; [assumption |]. intros Hin. specialize (Hb n Hin). lia.
  - unfold Array_push. intros l Hl.
    apply in_app_or in Hl as [Hl | [<- | []]]; [| lia].
    specialize (Hb l Hl). lia.
Qed.

Section Separation.

Variable k : Refs.Ink.
Hypothesis Hsep : Refs.separate k.

Let st := Refs.store k.
Let Hfresh : forall l,
  In l (Refs.pathsRef k :: Refs.historyRefs k ++ Refs.redoRefs k) ->
  Nat.eqb l (Refs.next st) = false.
Proof.
  intros l Hl. apply Nat.eqb_neq. destruct Hsep as [_ Hb].
  specialize (Hb l Hl). unfold st. lia.
Qed.

Lemma alloc_keeps (a : list Path.t) (refs : list nat) :
  incl refs (Refs.pathsRef k :: Refs.historyRefs k ++ Refs.redoRefs k) ->
  map (Refs.cell (snd (Refs.alloc a st))) refs = map (Refs.cell st) refs.
Proof.
  intros Hincl. apply map_ext_in. intros l Hl. cbn.
  now rewrite Hfresh by auto.
Qed.

Lemma Refs_commit_view (p : Path.t) :
  Refs.view (Refs.commit p k) = inkCommit p (Refs.view k) /\
  Refs.separate (Refs.commit p k).
Proof.
  destruct Hsep as [Hnd Hb].
  unfold Refs.commit, Refs.view, inkCommit, Refs.alloc, Refs.update. cbn.
  fold st. rewrite Nat.eqb_refl.
  rewrite (Hfresh (Refs.pathsRef k)) by now left.
  split.
  - unfold Array_push. rewrite map_app. cbn [map].
    assert (Hh : forall l, In l (Refs.historyRefs k) ->
                   Nat.eqb l (Refs.pathsRef k) = false).
    { intros l Hl. apply Nat.eqb_neq. intros ->.
      inversion Hnd as [| ? ? Hnot _]. apply Hnot. apply in_or_app. now left. }
    assert (Hn : Nat.eqb (Refs.next st) (Refs.pathsRef k) = false).
    { rewrite Nat.eqb_sym. apply Hfresh. now left. }
    rewrite Hn, Nat.eqb_refl. do 3 f_equal.
    apply map_ext_in. intros l Hl. rewrite (Hh l Hl).
    rewrite Hfresh; [reflexivity |]. right. apply in_or_app. now left.
  - unfold Refs.separate. cbn. rewrite app_nil_r. fold st.
    change (Refs.pathsRef k :: Array_push (Refs.historyRefs k) (Refs.next st))
      with (Array_push (Refs.pathsRef k :: Refs.historyRefs k) (Refs.next st)).
    apply separate_push.
    + change (NoDup ((Refs.pathsRef k :: Refs.historyRefs k) ++ Refs.redoRefs k)) in Hnd.
      now apply NoDup_app_remove_r in Hnd.
    + intros l Hl. apply Hb. destruct Hl as [<- | Hl]; [now left |].
      right. apply in_or_app. now left.
Qed.

Lemma Refs_pop_view (refs rest : list nat) (top : nat) :
  Array_pop refs = (rest, Some top) ->
  Array_pop (map (Refs.cell st) refs) =
  (map (Refs.cell st) rest, Some (Refs.cell st top)).
Proof. intros H. rewrite Array_pop_map, H. reflexivity. Qed.

Lemma Refs_pop_none (refs rest : list nat) :
  Array_pop refs = (rest, None) ->
  Array_pop (map (Refs.cell st) refs) = ([], None).
Proof. destruct refs; [reflexivity | discriminate]. Qed.

(** Every reference but the one of [paths.current], with the address of a
    new array pushed: distinct and allocated once the array is. *)
Lemma separate_stacks_push :
  NoDup (Array_push (Refs.historyRefs k ++ Refs.redoRefs k) (Refs.next st)) /\
  forall l, In l (Array_push (Refs.historyRefs k ++ Refs.redoRefs k) (Refs.next st)) ->
            (l < S (Refs.next st))%nat.
Proof.
  destruct Hsep as [Hnd Hb]. apply separate_push.
  - now inversion Hnd.
  - intros l Hl. apply Hb. now right.
Qed.

Lemma Refs_undo_view :
  Refs.view (Refs.undo k) = inkUndo (Refs.view k) /\
  Refs.separate (Refs.undo k).
Proof.
  unfold Refs.undo, Refs.view, inkUndo. fold st.
  destruct (Array_pop (Refs.historyRefs k)) as [rest [top |]] eqn:E.
  - rewrite (Refs_pop_view _ _ _ E). pose proof (Array_pop_In _ _ _ E) as Hh.
    cbn [Refs.alloc Refs.store Refs.pathsRef Refs.historyRefs Refs.redoRefs].
    split.
    + change (fun l => if Nat.eqb l (Refs.next st)
                       then Refs.cell st (Refs.pathsRef k) else Refs.cell st l)
        with (Refs.cell (snd (Refs.alloc (Refs.cell st (Refs.pathsRef k)) st))).
      cbn [Refs.cell]. unfold Array_push. rewrite map_app.
      rewrite (alloc_keeps _ rest), (alloc_keeps _ (Refs.redoRefs k)).
      * cbn. rewrite Nat.eqb_refl.
        rewrite Hfresh; [reflexivity |].
        right. apply in_or_app. left. rewrite Hh. apply in_or_app. right. now left.
      * intros l Hl. right. apply in_or_app. now right.
      * intros l Hl. right. apply in_or_app. left. rewrite Hh.
        apply in_or_app. now left.
    + destruct separate_stacks_push as [Hnd Hb].
      assert (Hp : Permutation
                     (top :: rest ++ Array_push (Refs.redoRefs k) (Refs.next st))
                     (Array_push (Refs.historyRefs k ++ Refs.redoRefs k) (Refs.next st))).
      { rewrite Hh. unfold Array_push. rewrite <- !app_assoc.
        change (top :: rest ++ Refs.redoRefs k ++ [Refs.next st])
          with ((top :: rest) ++ Refs.redoRefs k ++ [Refs.next st]).
        rewrite (app_assoc rest [top]).
        apply Permutation_app_tail, Permutation_cons_append. }
      split; cbn [Refs.store Refs.pathsRef Refs.historyRefs Refs.redoRefs Refs.next].
      * apply (Permutation_NoDup (Permutation_sym Hp) Hnd).
      * intros l Hl. apply Hb. apply (Permutation_in _ Hp Hl).
  - rewrite (Refs_pop_none _ _ E). split; [reflexivity | exact Hsep].
Qed.

Lemma Refs_redo_view :
  Refs.view (Refs.redo k) = inkRedo (Refs.view k) /\
  Refs.separate (Refs.redo k).
Proof.
  unfold Refs.redo, Refs.view, inkRedo. fold st.
  destruct (Array_pop (Refs.redoRefs k)) as [rest [top |]] eqn:E.
  - rewrite (Refs_pop_view _ _ _ E). pose proof (Array_pop_In _ _ _ E) as Hh.
    cbn [Refs.alloc Refs.store Refs.pathsRef Refs.historyRefs Refs.redoRefs].
    split.
    + change (fun l => if Nat.eqb l (Refs.next st)
                       then Refs.cell st (Refs.pathsRef k) else Refs.cell st l)
        with (Refs.cell (snd (Refs.alloc (Refs.cell st (Refs.pathsRef k)) st))).
      cbn [Refs.cell]. unfold Array_push. rewrite map_app.
      rewrite (alloc_keeps _ rest), (alloc_keeps _ (Refs.historyRefs k)).
      * cbn. rewrite Nat.eqb_refl.
        rewrite Hfresh; [reflexivity |].
        right. apply in_or_app. right. rewrite Hh. apply in_or_app. right. now left.
      * intros l Hl. right. apply in_or_app. now left.
      * intros l Hl. right. apply in_or_app. right. rewrite Hh.
        apply in_or_app. now left.
    + destruct separate_stacks_push as [Hnd Hb].
      assert (Hp : Permutation
                     (top :: Array_push (Refs.historyRefs k) (Refs.next st) ++ rest)
                     (Array_push (Refs.historyRefs k ++ Refs.redoRefs k) (Refs.next st))).
      { rewrite Hh. unfold Array_push.
        transitivity (top :: Refs.next st :: Refs.historyRefs k ++ rest).
        - apply perm_skip. rewrite <- app_assoc. cbn [app].
          symmetry. apply Permutation_middle.
        - transitivity (Refs.next st :: top :: Refs.historyRefs k ++ rest);
            [apply perm_swap |].
          etransitivity; [| apply Permutation_cons_append].
          apply perm_skip. rewrite app_assoc. apply Permutation_cons_append. }
      split; cbn [Refs.store Refs.pathsRef Refs.historyRefs Refs.redoRefs Refs.next].
      * apply (Permutation_NoDup (Permutation_sym Hp) Hnd).
      * intros l Hl. apply Hb. apply (Permutation_in _ Hp Hl).
  - rewrite (Refs_pop_none _ _ E). split; [reflexivity | exact Hsep].
Qed.

Lemma Refs_clear_view :
  Refs.view (Refs.clear k) = inkClear (Refs.view k) /\
  Refs.separate (Refs.clear k).
Proof.
  destruct Hsep as [Hnd Hb].
  assert (Hlt : forall l, In l (Refs.historyRefs k) -> (l < Refs.next st)%nat).
  { intros l Hl. apply Hb. right. apply in_or_app. now left. }
  unfold Refs.clear, Refs.view, inkClear, Refs.alloc. cbn. fold st. split.
  - rewrite Nat.eqb_refl. f_equal. f_equal.
    unfold Array_push. rewrite map_app. cbn [map].
    replace (Nat.eqb (Refs.next st) (S (Refs.next st))) with false
      by (symmetry; apply Nat.eqb_neq; lia).
    rewrite Nat.eqb_refl. f_equal.
    apply map_ext_in. intros l Hl. specialize (Hlt l Hl).
    replace (Nat.eqb l (S (Refs.next st))) with false
      by (symmetry; apply Nat.eqb_neq; lia).
    replace (Nat.eqb l (Refs.next st)) with false
      by (symmetry; apply Nat.eqb_neq; lia).
    reflexivity.
  - unfold Refs.separate. cbn. rewrite app_nil_r. fold st.
    assert (Hh : NoDup (Refs.historyRefs k)).
    { inversion Hnd as [| ? ? _ Hnd']. now apply NoDup_app_remove_r in Hnd'. }
    destruct (separate_push (Refs.historyRefs k) (Refs.next st) Hh Hlt) as [Hnd2 Hb2].
    split.
    + constructor; [| exact Hnd2].
      intros Hin. specialize (Hb2 _ Hin). lia.
    + intros l [<- | Hl]; [lia |]. specialize (Hb2 l Hl). lia.
Qed.

Lemma Refs_load_view :
  Refs.view (Refs.load k) = inkLoad (Refs.view k) /\
  Refs.separate (Refs.load k).
Proof.
  destruct Hsep as [Hnd Hb].
  assert (Hlt : forall l, In l (Refs.redoRefs k) -> (l < Refs.next st)%nat).
  { intros l Hl. apply Hb. right. apply in_or_app. now right. }
  unfold Refs.load, Refs.view, inkLoad, Refs.alloc. cbn. fold st. split.
  - rewrite Nat.eqb_refl. f_equal.
    apply map_ext_in. intros l Hl. specialize (Hlt l Hl).
    replace (Nat.eqb l (Refs.next st)) with false
      by (symmetry; apply Nat.eqb_neq; lia).
    reflexivity.
  - unfold Refs.separate. cbn. fold st. split.
    + constructor.
      * intros Hin. specialize (Hlt _ Hin). lia.
      * inversion Hnd as [| ? ? _ Hnd']. now apply NoDup_app_remove_l in Hnd'.
    + intros l [<- | Hl]; [lia |]. specialize (Hlt l Hl). lia.
Qed.

End Separation.

(** The lists of the state are the contents of the array objects: from
    the freshly mounted pane on, no array is held twice, and commit, undo,
    redo, clear and image load on the references compute what the same
    operations compute on the lists. *)
Lemma Refs_simulation (k : Refs.Ink) (p : Path.t) :
  Refs.separate Refs.initial /\
  (Refs.separate k ->
   (Refs.view (Refs.commit p k) = inkCommit p (Refs.view k) /\
    Refs.separate (Refs.commit p k)) /\
   (Refs.view (Refs.undo k) = inkUndo (Refs.view k) /\
    Refs.separate (Refs.undo k)) /\
   (Refs.view (Refs.redo k) = inkRedo (Refs.view k) /\
    Refs.separate (Refs.redo k)) /\
   (Refs.view (Refs.clear k) = inkClear (Refs.view k) /\
    Refs.separate (Refs.clear k)) /\
   (Refs.view (Refs.load k) = inkLoad (Refs.view k) /\
    Refs.separate (Refs.load k))).
Proof.
  split.
  - split; cbn; [repeat constructor; intros [] |].
    intros l [<- | []]. lia.
  - intros Hsep.
    auto 6 using Refs_commit_view, Refs_undo_view, Refs_redo_view,
      Refs_clear_view, Refs_load_view.
Qed.

(* ================================================================== *)
(** * Further properties *)
(* ------------------------------------------------------------------ *)
(** ** Undo, redo and clear *)

Lemma Array_pop_nil {A : Type} (a rest : list A) :
  Array_pop a = (rest, None) -> a = [].
Proof. destruct a; [reflexivity | discriminate]. Qed.

Lemma nth_length_middle {A : Type} (l r : list A) (v d : A) :
  nth (List.length l) (l ++ v :: r) d = v.
Proof. induction l as [| a l IH]; [reflexivity | exact IH]. Qed.

Lemma ink_timeline (side : Side) (s : State) (ps : list Path.t)
    (h r : list (list Path.t)) :
  ink side s = (ps, h, r) -> timeline side s = h ++ [ps] ++ rev r.
Proof.
  unfold ink, timeline. intros H. apply ink_inv in H as (-> & -> & ->).
  reflexivity.
Qed.

Lemma timeline_undo (side : Side) (s : State) :
  timeline side (undo side s) = timeline side s.
Proof.
  destruct (handlers_on_ink side s) as (Hu & _).
  unfold inkUndo, ink in Hu.
  destruct (Array_pop (undoStack side s)) as [rest [top |]] eqn:E.
  - rewrite (ink_timeline _ _ _ _ _ Hu). unfold timeline.
    apply Array_pop_In in E. rewrite E. unfold Array_push.
    rewrite rev_unit. cbn [app]. rewrite <- app_assoc. reflexivity.
  - rewrite (ink_timeline _ _ _ _ _ Hu). reflexivity.
Qed.

Lemma timeline_redo (side : Side) (s : State) :
  timeline side (redo side s) = timeline side s.
Proof.
  destruct (handlers_on_ink side s) as (_ & Hr & _).
  unfold inkRedo, ink in Hr.
  destruct (Array_pop (redoEntries side s)) as [rest [top |]] eqn:E.
  - rewrite (ink_timeline _ _ _ _ _ Hr). unfold timeline.
    apply Array_pop_In in E. rewrite E. unfold Array_push.
    rewrite rev_unit. cbn [app]. rewrite <- app_assoc. reflexivity.
  - rewrite (ink_timeline _ _ _ _ _ Hr). reflexivity.
Qed.

(** X1.  Undo and redo only move along a pane's timeline (the history,
    the strokes shown, and the redo stack from its top down): after any
    sequence of undo and redo clicks the timeline is what it was, and the
    strokes shown are its entry at the height of the history stack.  No
    state is lost or made up by undo and redo. *)
Theorem undo_redo_walk_timeline (side : Side) (s : State)
    (clicks : list HistoryClick) :
  let s' := fold_left (click side) clicks s in
  timeline side s' = timeline side s /\
  nth (List.length (undoStack side s')) (timeline side s) [] = strokes side s'.
Proof.
  cbv zeta.
  assert (H : timeline side (fold_left (click side) clicks s) = timeline side s).
  { revert s. induction clicks as [| c clicks IH]; intros s; [reflexivity |].
    cbn [fold_left]. rewrite IH.
    destruct c; [apply timeline_undo | apply timeline_redo]. }
  split; [exact H |].
  rewrite <- H. unfold timeline. apply nth_length_middle.
Qed.

(** X2.  Clearing a pane can be undone: it empties the strokes and the
    redo stack, one undo brings back the strokes and the history as they
    were, and a redo after that clears again. *)
Theorem clear_can_be_undone (side : Side) (s : State) :
  let c := clear side s in
  strokes side c = [] /\ redoEntries side c = [] /\
  ink side (undo side c) = (strokes side s, undoStack side s, [[]]) /\
  redo side (undo side c) = c.
Proof.
  destruct side; cbv zeta; unfold clear, undo, redo.
  - split; [reflexivity | split; [reflexivity |]].
    rewrite (handleUndo_top (handleClear s) (history s) (paths s)) by reflexivity.
    split; [reflexivity |].
    rewrite (handleRedo_top _ [] []) by reflexivity. reflexivity.
  - split; [reflexivity | split; [reflexivity |]].
    rewrite (handleRefUndo_top (handleRefClear s) (refHistory s) (refPaths s))
      by reflexivity.
    split; [reflexivity |].
    rewrite (handleRefRedo_top _ [] []) by reflexivity. reflexivity.
Qed.

(** X3.  The history buttons, the image load and the refit of one pane
    leave the other pane as it is: its strokes, its two stacks, its stroke
    in progress, its transform and its image. *)
Theorem panes_are_independent (side : Side) (s : State) (img : Image.t) :
  let other := otherSide side in
  paneData other (undo side s) = paneData other s /\
  paneData other (redo side s) = paneData other s /\
  paneData other (clear side s) = paneData other s /\
  paneData other (load side img s) = paneData other s /\
  paneData other (recenter side s) = paneData other s.
Proof.
  destruct side; cbv zeta;
    unfold undo, redo, clear, load, recenter, otherSide, paneData,
      handleUndo, handleRedo, handleRefUndo, handleRefRedo,
      recenterImage, recenterReferenceImage.
  - destruct (Array_pop (history s)) as [? [? |]],
      (Array_pop (redoStack s)) as [? [? |]], (image s); repeat split.
  - destruct (Array_pop (refHistory s)) as [? [? |]],
      (Array_pop (refRedoStack s)) as [? [? |]], (referenceImage s);
      repeat split.
Qed.

(* ------------------------------------------------------------------ *)
(** ** What every reachable state satisfies *)

(** Reading a field of an updated state. *)
Ltac fields :=
  cbn [image referenceImage tool color size isComparing sliderPos paths
       history transform currentPath pointers activeSide gestureState
       isMiddleMousePanning middleMouseLastPos redoStack refRedoStack
       refPaths refHistory refTransform currentRefPath rect
       set_image set_referenceImage set_isComparing set_paths set_history
       set_transform set_currentPath set_pointers set_activeSide
       set_gestureState set_isMiddleMousePanning set_middleMouseLastPos
       set_redoStack set_refRedoStack set_refPaths set_refHistory
       set_refTransform set_currentRefPath set_tool set_color set_size
       set_sliderPos set_rect set_lastDist set_lastCenter set_lastPos
       lastDist lastCenter lastPos
       inProgress strokes undoStack redoEntries transformOf imageOf
       appState isDraggingSlider onState] in *.

Lemma Forall_push {A : Type} (P : A -> Prop) (l : list A) (v : A) :
  Forall P l -> P v -> Forall P (Array_push l v).
Proof. intros Hl Hv. apply Forall_app. split; [exact Hl | now constructor]. Qed.

Lemma Forall_pop {A : Type} (P : A -> Prop) (a rest : list A) (top : A) :
  Array_pop a = (rest, Some top) -> Forall P a -> Forall P rest /\ P top.
Proof.
  intros E H. apply Array_pop_In in E. subst a.
  apply Forall_app in H as [Hr Ht]. split; [exact Hr | now inversion Ht].
Qed.

Lemma inkHasPoints_ext (side : Side) (s s' : State) :
  ink side s' = ink side s -> inProgress side s' = inProgress side s ->
  inkHasPoints side s -> inkHasPoints side s'.
Proof.
  unfold ink, inkHasPoints. intros Hi Hp (H1 & H2 & H3 & H4).
  apply ink_inv in Hi as (-> & -> & ->). rewrite Hp. auto.
Qed.

Lemma handlePointerDown_inProgress (side : Side) (e : PointerEvent)
    (s : State) (p : Path.t) :
  inProgress side (handlePointerDown e s) = Some p ->
  inProgress side s = Some p \/ exists wp, Path.points p = [wp].
Proof.
  unfold handlePointerDown.
  repeat case_scrutinee; destruct side; fields; intros H;
    try (left; exact H); try discriminate;
    right; injection H as <-; eexists; reflexivity.
Qed.

(** A move leaves a stroke in progress as it is or appends one point to
    it, farther from its last point than the minimal spacing. *)
Lemma handlePointerMove_inProgress (side : Side) (e : PointerEvent) (s : State) :
  inProgress side (handlePointerMove e s) = inProgress side s \/
  exists p wp l,
    inProgress side s = Some p /\
    lastPoint (Path.points p) = Some l /\
    (Math_hypot (Point.x wp - Point.x l) (Point.y wp - Point.y l)
       >? (if Tool_eqb (tool s) magnet then Fin 3 else Fin 1))%num = true /\
    inProgress side (handlePointerMove e s) =
      Some (Path.mk (Array_push (Path.points p) wp) (Path.color p)
                    (Path.size p) (Path.isEraser p)).
Proof.
  unfold handlePointerMove.
  destruct (isMiddleMousePanning s).
  { destruct (middleMouseLastPos s); [| now left].
    left. unfold set_activeTransform. destruct side, (activeSide s); reflexivity. }
  destruct (negb _); [now left |].
  fields.
  destruct (Map_values _) as [| p0 [| p1 [| ? ?]]]; try now left.
  - destruct (Tool_eqb _ hand).
    + left. unfold set_activeTransform. fields.
      destruct side, (activeSide s); reflexivity.
    + unfold drawMove. fields.
      destruct (activeSide s) eqn:Ha.
      * destruct (currentPath s) as [tp |] eqn:Hc; [| now left].
        destruct (lastPoint (Path.points tp)) as [l |] eqn:Hl; [| now left].
        match goal with |- context [if (?d >? ?m)%num then _ else _] =>
          destruct (d >? m)%num eqn:Hd end; [| now left].
        destruct side; fields; [| now left].
        right. eexists tp, _, l. repeat split; assumption.
      * destruct (currentRefPath s) as [tp |] eqn:Hc; [| now left].
        destruct (lastPoint (Path.points tp)) as [l |] eqn:Hl; [| now left].
        match goal with |- context [if (?d >? ?m)%num then _ else _] =>
          destruct (d >? m)%num eqn:Hd end; [| now left].
        destruct side; fields; [now left |].
        right. eexists tp, _, l. repeat split; assumption.
  - left. unfold pinchMove, set_activeTransform. fields.
    destruct side, (activeSide s); reflexivity.
Qed.

Lemma handlePointerMove_inkHasPoints (side : Side) (e : PointerEvent) (s : State) :
  inkHasPoints side s -> inkHasPoints side (handlePointerMove e s).
Proof.
  intros H.
  destruct (handlePointerMove_inProgress side e s)
    as [Heq | (p & wp & l & Hp & _ & _ & Hnew)].
  - apply (inkHasPoints_ext side s); [apply handlePointerMove_ink | exact Heq | exact H].
  - pose proof (handlePointerMove_ink side e s) as Hi.
    unfold ink, inkHasPoints in *. apply ink_inv in Hi as (-> & -> & ->).
    destruct H as (H1 & H2 & H3 & _). repeat split; auto.
    intros q Hq. rewrite Hnew in Hq. injection Hq as <-.
    unfold hasPoint, Array_push. cbn [Path.points].
    intros Hnil. apply app_eq_nil in Hnil as [_ Hnil]. discriminate.
Qed.

Lemma handlePointerDown_inkHasPoints (side : Side) (e : PointerEvent) (s : State) :
  inkHasPoints side s -> inkHasPoints side (handlePointerDown e s).
Proof.
  intros H. pose proof (handlePointerDown_ink side e s) as Hi.
  unfold ink, inkHasPoints in *. apply ink_inv in Hi as (-> & -> & ->).
  destruct H as (H1 & H2 & H3 & H4). repeat split; auto.
  intros q Hq. apply handlePointerDown_inProgress in Hq as [Hq | [wp Hq]].
  - auto.
  - unfold hasPoint. rewrite Hq. discriminate.
Qed.

Lemma handlePointerUp_inkHasPoints (side : Side) (e : PointerEvent) (s : State) :
  inkHasPoints sideLeft s -> inkHasPoints sideRight s ->
  inkHasPoints side (handlePointerUp e s).
Proof.
  intros (L1 & L2 & L3 & L4) (R1 & R2 & R3 & R4). fields.
  unfold handlePointerUp.
  destruct (isMiddleMousePanning s && _).
  { destruct side; repeat split; assumption. }
  unfold commitPath. fields.
  destruct (currentPath s) as [p |] eqn:Hp; unfold commitRefPath; fields;
    destruct (currentRefPath s) as [q |] eqn:Hq; fields;
    destruct (Map_values _) as [| p0 [| ? ?]];
    destruct side; unfold inkHasPoints; fields;
    repeat split;
    try assumption; try (intros ? ?; discriminate);
    try (intros ? ?; congruence);
    try (apply Forall_push; eauto); now constructor.
Qed.

Lemma handleUndo_inkHasPoints (side0 side : Side) (s : State) :
  inkHasPoints side s -> inkHasPoints side (undo side0 s).
Proof.
  intros (H1 & H2 & H3 & H4).
  destruct side0; unfold undo, handleUndo, handleRefUndo.
  - destruct (Array_pop (history s)) as [rest [top |]] eqn:E;
      [| repeat split; assumption].
    destruct side; unfold inkHasPoints; fields; [| repeat split; assumption].
    destruct (Forall_pop _ _ _ _ E H2). repeat split; auto using Forall_push.
  - destruct (Array_pop (refHistory s)) as [rest [top |]] eqn:E;
      [| repeat split; assumption].
    destruct side; unfold inkHasPoints; fields; [repeat split; assumption |].
    destruct (Forall_pop _ _ _ _ E H2). repeat split; auto using Forall_push.
Qed.

Lemma handleRedo_inkHasPoints (side0 side : Side) (s : State) :
  inkHasPoints side s -> inkHasPoints side (redo side0 s).
Proof.
  intros (H1 & H2 & H3 & H4).
  destruct side0; unfold redo, handleRedo, handleRefRedo.
  - destruct (Array_pop (redoStack s)) as [rest [top |]] eqn:E;
      [| repeat split; assumption].
    destruct side; unfold inkHasPoints; fields; [| repeat split; assumption].
    destruct (Forall_pop _ _ _ _ E H3). repeat split; auto using Forall_push.
  - destruct (Array_pop (refRedoStack s)) as [rest [top |]] eqn:E;
      [| repeat split; assumption].
    destruct side; unfold inkHasPoints; fields; [repeat split; assumption |].
    destruct (Forall_pop _ _ _ _ E H3). repeat split; auto using Forall_push.
Qed.

Lemma handleClear_inkHasPoints (side0 side : Side) (s : State) :
  inkHasPoints side s -> inkHasPoints side (clear side0 s).
Proof.
  intros (H1 & H2 & H3 & H4).
  destruct side0, side; unfold clear, handleClear, handleRefClear, inkHasPoints;
    fields; repeat split; auto using Forall_push.
Qed.

Lemma recenter_frame (side0 : Side) (s : State) :
  forall side,
    ink side (recenter side0 s) = ink side s /\
    inProgress side (recenter side0 s) = inProgress side s.
Proof.
  intros side. destruct side0; unfold recenter, recenterImage, recenterReferenceImage.
  - destruct (image s); destruct side; split; reflexivity.
  - destruct (referenceImage s); destruct side; split; reflexivity.
Qed.

Lemma handleResize_frame (r : Rect.t) (s : State) :
  forall side,
    ink side (handleResize r s) = ink side s /\
    inProgress side (handleResize r s) = inProgress side s.
Proof.
  intros side. unfold handleResize. cbv zeta. fields.
  destruct (image s); fields; destruct (referenceImage s);
    destruct side; split; reflexivity.
Qed.

(** The pair of invariants, one per pane, under any action. *)
Lemma act_inkHasPoints (a : App) (x : Action) :
  (forall side, inkHasPoints side (appState a)) ->
  forall side, inkHasPoints side (appState (act a x)).
Proof.
  intros H side. pose proof (H sideLeft) as HL. pose proof (H sideRight) as HR.
  pose proof (H side) as Hs.
  destruct x; cbn [act]; fields.
  - destruct i; cbn [step].
    + now apply handlePointerDown_inkHasPoints.
    + now apply handlePointerMove_inkHasPoints.
    + now apply handlePointerUp_inkHasPoints.
  - apply (inkHasPoints_ext side (appState a)); [| | exact Hs];
      unfold handleWheel; case_scrutinee; destruct side; reflexivity.
  - unfold handleDoubleClick.
    destruct (_ && _);
      [ destruct (recenter_frame sideRight (appState a) side)
      | destruct (recenter_frame sideLeft (appState a) side) ];
      now apply (inkHasPoints_ext side (appState a)).
  - exact Hs.
  - unfold handleSliderMove. destruct (negb _); [exact Hs |].
    apply (inkHasPoints_ext side (appState a)); [| | exact Hs];
      destruct side; reflexivity.
  - exact Hs.
  - unfold handleKeyDown.
    destruct (_ && _ && _); [now apply (handleUndo_inkHasPoints sideLeft) |].
    destruct (_ && _); [now apply (handleRedo_inkHasPoints sideLeft) | exact Hs].
  - destruct (handleResize_frame r (appState a) side).
    now apply (inkHasPoints_ext side (appState a)).
  - now apply handleUndo_inkHasPoints.
  - now apply handleRedo_inkHasPoints.
  - now apply handleClear_inkHasPoints.
  - destruct Hs as (H1 & H2 & H3 & H4).
    destruct side; unfold inkHasPoints, handleFile; fields; repeat split; auto.
  - destruct Hs as (H1 & H2 & H3 & H4).
    destruct side; unfold inkHasPoints, handleReferenceFile; fields;
      repeat split; auto.
  - apply (inkHasPoints_ext side (appState a)); [| | exact Hs];
      destruct side; reflexivity.
  - apply (inkHasPoints_ext side (appState a)); [| | exact Hs];
      destruct side; reflexivity.
  - apply (inkHasPoints_ext side (appState a)); [| | exact Hs];
      destruct side; reflexivity.
  - apply (inkHasPoints_ext side (appState a)); [| | exact Hs];
      destruct side; reflexivity.
Qed.

Lemma perform_invariant (P : App -> Prop) (actions : list Action) (a : App) :
  (forall a x, P a -> P (act a x)) -> P a -> P (perform actions a).
Proof.
  intros Hstep. revert a.
  induction actions as [| x actions IH]; intros a Ha; [exact Ha |].
  cbn [perform fold_left]. apply IH. now apply Hstep.
Qed.

Lemma perform_inkHasPoints (r : Rect.t) (actions : list Action) (side : Side) :
  inkHasPoints side (appState (perform actions (mounted r))).
Proof.
  revert side.
  apply (perform_invariant (fun a => forall side, inkHasPoints side (appState a))).
  - exact act_inkHasPoints.
  - intros []; repeat split; try constructor; intros ? ?; discriminate.
Qed.

(** X4.  From the mounted component on, whatever the user does, every
    path of either pane has at least one point: the strokes shown, the
    entries of the history and redo stacks, and the stroke in progress. *)
Theorem every_path_has_a_point (r : Rect.t) (actions : list Action)
    (side : Side) :
  let s := appState (perform actions (mounted r)) in
  Forall hasPoint (strokes side s) /\
  Forall (Forall hasPoint) (undoStack side s) /\
  Forall (Forall hasPoint) (redoEntries side s) /\
  (forall p, inProgress side s = Some p -> hasPoint p).
Proof. exact (perform_inkHasPoints r actions side). Qed.

(* ------------------------------------------------------------------ *)
(** ** The pointer registry and the pan flags *)

Lemma Map_set_keys (id : Z) (e : PointerEvent) (m : PointerMap) :
  map fst (Map_set id e m) =
  if Map_has id m then map fst m else map fst m ++ [id].
Proof.
  induction m as [| [key v] rest IH]; [reflexivity |].
  cbn [Map_set Map_has existsb fst]. destruct (Z.eqb key id) eqn:E.
  - reflexivity.
  - cbn [map fst orb]. rewrite IH. fold (Map_has id rest).
    destruct (Map_has id rest); reflexivity.
Qed.

Lemma Map_has_In (id : Z) (m : PointerMap) :
  Map_has id m = true <-> In id (map fst m).
Proof.
  unfold Map_has. rewrite existsb_exists, in_map_iff. split.
  - intros ([key v] & Hin & Heq). exists (key, v).
    apply Z.eqb_eq in Heq. split; [exact Heq | exact Hin].
  - intros ([key v] & Heq & Hin). exists (key, v).
    split; [exact Hin | now apply Z.eqb_eq].
Qed.

Lemma NoDup_snoc {A : Type} (l : list A) (v : A) :
  NoDup l -> ~ In v l -> NoDup (l ++ [v]).
Proof.
  induction l as [| a l IH]; intros Hnd Hin.
  - constructor; [intros [] | constructor].
  - inversion Hnd as [| ? ? Ha Hl]; subst. cbn. constructor.
    + rewrite in_app_iff. intros [H | [H | []]]; [auto |].
      apply Hin. now left.
    + apply IH; [exact Hl |]. intros H. apply Hin. now right.
Qed.

Lemma Map_set_NoDup (id : Z) (e : PointerEvent) (m : PointerMap) :
  NoDup (map fst m) -> NoDup (map fst (Map_set id e m)).
Proof.
  intros H. rewrite Map_set_keys. destruct (Map_has id m) eqn:E; [exact H |].
  apply NoDup_snoc; [exact H |]. rewrite <- Map_has_In, E. discriminate.
Qed.

Lemma Map_delete_keys (id : Z) (m : PointerMap) :
  map fst (Map_delete id m) = filter (fun k => negb (Z.eqb k id)) (map fst m).
Proof.
  induction m as [| [key v] rest IH]; [reflexivity |].
  cbn [Map_delete filter map fst]. destruct (negb (Z.eqb key id));
    cbn [map fst]; fold (Map_delete id rest); now rewrite IH.
Qed.

Lemma Map_delete_NoDup (id : Z) (m : PointerMap) :
  NoDup (map fst m) -> NoDup (map fst (Map_delete id m)).
Proof. intros H. rewrite Map_delete_keys. now apply NoDup_filter. Qed.

Lemma Map_delete_has (id : Z) (m : PointerMap) :
  Map_has id (Map_delete id m) = false.
Proof.
  destruct (Map_has id (Map_delete id m)) eqn:E; [| reflexivity].
  apply Map_has_In in E. rewrite Map_delete_keys in E.
  apply filter_In in E as [_ E]. rewrite Z.eqb_refl in E. discriminate.
Qed.

Lemma handlePointerDown_pointers (e : PointerEvent) (s : State) :
  pointers (handlePointerDown e s) = pointers s \/
  pointers (handlePointerDown e s) = Map_set (pointerId e) e (pointers s).
Proof.
  unfold handlePointerDown.
  repeat case_scrutinee; fields; auto.
Qed.

Lemma handlePointerMove_pointers (e : PointerEvent) (s : State) :
  pointers (handlePointerMove e s) = pointers s \/
  Map_has (pointerId e) (pointers s) = true /\
  pointers (handlePointerMove e s) = Map_set (pointerId e) e (pointers s).
Proof.
  unfold handlePointerMove.
  destruct (isMiddleMousePanning s).
  { left. destruct (middleMouseLastPos s); [| reflexivity].
    unfold set_activeTransform. destruct (activeSide s); reflexivity. }
  destruct (Map_has _ _) eqn:Hh; [| now left].
  right. split; [reflexivity |]. cbn [negb]. fields.
  unfold pinchMove, drawMove, set_activeTransform. fields.
  repeat case_scrutinee; reflexivity.
Qed.

Lemma handlePointerUp_pointers (e : PointerEvent) (s : State) :
  (releases e s ->
   pointers (handlePointerUp e s) = Map_delete (pointerId e) (pointers s)) /\
  (~ releases e s -> pointers (handlePointerUp e s) = pointers s).
Proof.
  unfold releases, handlePointerUp.
  destruct (isMiddleMousePanning s && _).
  - split; [discriminate | reflexivity].
  - split; [intros _ | intros H; now contradiction H].
    unfold commitPath, commitRefPath. fields.
    repeat (case_scrutinee; fields); reflexivity.
Qed.

(** Actions other than pointer events leave the registry and the pan
    flags alone. *)
Lemma act_gesture_frame (a : App) (x : Action) :
  (forall i, x <> Pointer i) ->
  pointers (appState (act a x)) = pointers (appState a) /\
  isMiddleMousePanning (appState (act a x)) = isMiddleMousePanning (appState a) /\
  middleMouseLastPos (appState (act a x)) = middleMouseLastPos (appState a).
Proof.
  intros Hx. destruct x; cbn [act]; fields;
    try (now contradiction (Hx i));
    unfold handleWheel, handleDoubleClick, recenterImage, recenterReferenceImage,
      handleSliderMove, handleSliderDown, handleSliderUp, handleKeyDown,
      handleResize, undo, redo, clear, handleUndo, handleRedo, handleRefUndo,
      handleRefRedo, handleClear, handleRefClear, handleFile,
      handleReferenceFile, toggleCompare;
    cbv zeta; fields;
    repeat (case_scrutinee; fields); repeat split; reflexivity.
Qed.

Lemma act_registered (a : App) (x : Action) :
  NoDup (registered (appState a)) -> NoDup (registered (appState (act a x))).
Proof.
  unfold registered. intros H.
  destruct x as [[e | e | e] | | | | | | | | | | | | | | | |].
  1: { cbn [act step]; fields.
       destruct (handlePointerDown_pointers e (appState a)) as [-> | ->];
         [exact H | now apply Map_set_NoDup]. }
  1: { cbn [act step]; fields.
       destruct (handlePointerMove_pointers e (appState a)) as [-> | [_ ->]];
         [exact H | now apply Map_set_NoDup]. }
  1: { cbn [act step]; fields.
       destruct (handlePointerUp_pointers e (appState a)) as [Hr Hn].
       unfold releases in *.
       destruct (isMiddleMousePanning (appState a) && (button e =? 1)%Z).
       - rewrite Hn by discriminate. exact H.
       - rewrite Hr by reflexivity. now apply Map_delete_NoDup. }
  all: match goal with
       | |- NoDup (map fst (pointers (appState (act ?a0 ?x)))) =>
           destruct (act_gesture_frame a0 x) as [-> _];
             [intros; discriminate | exact H]
       end.
Qed.

Lemma act_middle (a : App) (x : Action) :
  (isMiddleMousePanning (appState a) = true ->
   middleMouseLastPos (appState a) <> None) ->
  isMiddleMousePanning (appState (act a x)) = true ->
  middleMouseLastPos (appState (act a x)) <> None.
Proof.
  intros H.
  destruct x as [[e | e | e] | | | | | | | | | | | | | | | |].
  1: { cbn [act step]; fields. unfold handlePointerDown.
       repeat (case_scrutinee; fields); try exact H; discriminate. }
  1: { cbn [act step]; fields. unfold handlePointerMove.
       destruct (isMiddleMousePanning (appState a)) eqn:Hm.
       - destruct (middleMouseLastPos (appState a)) eqn:Hl.
         + intros _. unfold set_activeTransform.
           destruct (activeSide (appState a)); discriminate.
         + intros _. now contradiction (H eq_refl).
       - unfold pinchMove, drawMove, set_activeTransform. fields.
         repeat (case_scrutinee; fields); congruence. }
  1: { cbn [act step]; fields. unfold handlePointerUp.
       destruct (isMiddleMousePanning (appState a) && _); [discriminate |].
       unfold commitPath, commitRefPath. fields.
       repeat (case_scrutinee; fields); exact H. }
  all: match goal with
       | |- isMiddleMousePanning (appState (act ?a0 ?x)) = true -> _ =>
           destruct (act_gesture_frame a0 x) as (_ & -> & ->);
             [intros; discriminate | exact H]
       end.
Qed.

(** X5.  From the mounted component on, whatever the user does: a pointer
    id is registered at most once; while the middle button pans, the last
    position that [handlePointerMove] reads is set; and a stroke in
    progress has a last point for [handlePointerMove] to read.  The move
    handler never reads a field of [null] or of [undefined]. *)
Theorem move_handler_reads_are_defined (r : Rect.t) (actions : list Action) :
  let s := appState (perform actions (mounted r)) in
  NoDup (registered s) /\
  (isMiddleMousePanning s = true -> exists p, middleMouseLastPos s = Some p) /\
  (forall side p,
     inProgress side s = Some p -> exists l, lastPoint (Path.points p) = Some l).
Proof.
  cbv zeta. split; [| split].
  - apply (perform_invariant (fun a => NoDup (registered (appState a)))).
    + intros a x. apply act_registered.
    + constructor.
  - intros Hm.
    assert (H : middleMouseLastPos (appState (perform actions (mounted r))) <> None).
    { revert Hm.
      apply (perform_invariant
               (fun a => isMiddleMousePanning (appState a) = true ->
                         middleMouseLastPos (appState a) <> None)).
      - intros a x. apply act_middle.
      - discriminate. }
    destruct (middleMouseLastPos _) as [p |]; [now exists p | now contradiction H].
  - intros side p Hp.
    destruct (perform_inkHasPoints r actions side) as (_ & _ & _ & H).
    specialize (H p Hp). unfold hasPoint in H.
    destruct (Path.points p) as [| a l]; [now contradiction H |].
    eexists. reflexivity.
Qed.

(** X6.  A pointer move never registers or unregisters a pointer, and a
    pointer-down registers at most the pointer that went down. *)
Theorem moves_keep_the_registry (e : PointerEvent) (s : State) :
  registered (handlePointerMove e s) = registered s /\
  (registered (handlePointerDown e s) = registered s \/
   registered (handlePointerDown e s) = registered s ++ [pointerId e]).
Proof.
  unfold registered. split.
  - destruct (handlePointerMove_pointers e s) as [-> | [Hh ->]]; [reflexivity |].
    now rewrite Map_set_keys, Hh.
  - destruct (handlePointerDown_pointers e s) as [-> | ->]; [now left |].
    rewrite Map_set_keys. destruct (Map_has _ _); auto.
Qed.

(* ------------------------------------------------------------------ *)
(** ** Releases, the hand tool, and how a stroke grows *)

(** X7.  A release (pointer up, cancel or leave) that is not the release
    of a middle-button pan ends the stroke in progress of either pane,
    unregisters the pointer, adds to each pane's strokes exactly the
    stroke that was in progress there, and leaves the ink of a pane
    without one as it is. *)
Theorem release_ends_every_stroke (e : PointerEvent) (s : State) :
  releases e s ->
  let s' := handlePointerUp e s in
  noStroke s' /\
  Map_has (pointerId e) (pointers s') = false /\
  forall side,
    strokes side s' = strokes side s ++ inProgressList side s /\
    (inProgress side s = None -> ink side s' = ink side s).
Proof.
  intros Hrel. cbv zeta.
  destruct (handlePointerUp_pointers e s) as [Hp _]. rewrite (Hp Hrel).
  split; [| split; [apply Map_delete_has |]].
  - unfold releases in Hrel. unfold handlePointerUp. rewrite Hrel.
    unfold commitPath, commitRefPath, noStroke. fields.
    repeat (case_scrutinee; fields); split; reflexivity || assumption.
  - intros side. unfold inProgressList. split.
    + destruct (inProgress side s) as [p |] eqn:Hip.
      * pose proof (handlePointerUp_commit side e s p Hrel Hip) as H.
        unfold ink in H. apply ink_inv in H as (-> & _). reflexivity.
      * rewrite app_nil_r.
        destruct side; fields.
        -- pose proof (handlePointerUp_leftInk e s Hrel) as H.
           rewrite Hip in H. unfold leftInk in H.
           now apply ink_inv in H as (-> & _).
        -- pose proof (handlePointerUp_rightInk e s Hrel) as H.
           rewrite Hip in H. unfold rightInk in H.
           now apply ink_inv in H as (-> & _).
    + intros Hip. destruct side; fields.
      * rewrite ink_left, (handlePointerUp_leftInk e s Hrel), Hip. reflexivity.
      * rewrite ink_right, (handlePointerUp_rightInk e s Hrel), Hip. reflexivity.
Qed.

Lemma release_ends_every_stroke_witness :
  releases (pointerAt 1 405 305) (drawing sideLeft) /\
  let s' := handlePointerUp (pointerAt 1 405 305) (drawing sideLeft) in
  noStroke s' /\
  Map_has (pointerId (pointerAt 1 405 305)) (pointers s') = false /\
  forall side,
    strokes side s' =
      strokes side (drawing sideLeft) ++ inProgressList side (drawing sideLeft) /\
    (inProgress side (drawing sideLeft) = None ->
     ink side s' = ink side (drawing sideLeft)).
Proof.
  split; [reflexivity |].
  apply (release_ends_every_stroke (pointerAt 1 405 305) (drawing sideLeft)).
  reflexivity.
Defined.

Lemma step_tool (s : State) (i : Input) : tool (step s i) = tool s.
Proof.
  destruct i; cbn [step];
    unfold handlePointerDown, handlePointerMove, handlePointerUp, pinchMove,
      drawMove, commitPath, commitRefPath, set_activeTransform;
    fields; repeat (case_scrutinee; fields); reflexivity.
Qed.

Lemma handlePointerDown_hand (e : PointerEvent) (s : State) :
  tool s = hand -> noStroke s -> noStroke (handlePointerDown e s).
Proof.
  intros Ht [HL HR]. unfold handlePointerDown, noStroke. fields. rewrite Ht.
  cbn [Tool_eqb].
  repeat (case_scrutinee; fields); split; assumption || reflexivity.
Qed.

(** X8.  With the hand tool selected, no sequence of pointer events
    draws: no stroke is begun, and the ink of both panes stays as it is. *)
Theorem hand_tool_never_draws (inputs : list Input) (s : State) :
  tool s = hand -> noStroke s ->
  noStroke (run inputs s) /\ forall side, ink side (run inputs s) = ink side s.
Proof.
  revert s. induction inputs as [| i inputs IH]; intros s Ht Hs.
  - split; [exact Hs | reflexivity].
  - cbn [run fold_left]. fold (run inputs (step s i)).
    assert (Hi : noStroke (step s i) /\ forall side, ink side (step s i) = ink side s).
    { destruct i as [e | e | e]; cbn [step].
      - split; [now apply handlePointerDown_hand |].
        intros side. apply handlePointerDown_ink.
      - split; [now apply handlePointerMove_noStroke |].
        intros side. apply handlePointerMove_ink.
      - now apply handlePointerUp_noStroke. }
    destruct Hi as [Hn Hk].
    destruct (IH (step s i)) as [Hn' Hk']; [now rewrite step_tool | exact Hn |].
    split; [exact Hn' |]. intros side. now rewrite Hk', Hk.
Qed.

Lemma hand_tool_never_draws_witness :
  let s := set_tool hand (initialState screen) in
  let inputs := [Down (pointerAt 1 100 100); Move (pointerAt 1 300 200);
                 Up (pointerAt 1 300 200)] in
  noStroke (run inputs s) /\ forall side, ink side (run inputs s) = ink side s.
Proof.
  cbv zeta.
  apply (hand_tool_never_draws
           [Down (pointerAt 1 100 100); Move (pointerAt 1 300 200);
            Up (pointerAt 1 300 200)]
           (set_tool hand (initialState screen))).
  - reflexivity.
  - split; reflexivity.
Defined.

(** X9.  A pointer move never drops or rewrites a point of a stroke in
    progress, nor its colour, width or kind: the stroke stays as it is, or
    one point is appended that is farther from the stroke's last point
    than the minimal spacing (3 with the magnet tool, 1 otherwise).  A pane
    without a stroke in progress stays without one. *)
Theorem move_only_appends (side : Side) (e : PointerEvent) (s : State) :
  let s' := handlePointerMove e s in
  (inProgress side s = None -> inProgress side s' = None) /\
  (forall p,
     inProgress side s = Some p ->
     exists p',
       inProgress side s' = Some p' /\
       Path.color p' = Path.color p /\ Path.size p' = Path.size p /\
       Path.isEraser p' = Path.isEraser p /\
       (Path.points p' = Path.points p \/
        exists wp l,
          Path.points p' = Path.points p ++ [wp] /\
          lastPoint (Path.points p) = Some l /\
          (Math_hypot (Point.x wp - Point.x l) (Point.y wp - Point.y l)
             >? (if Tool_eqb (tool s) magnet then Fin 3 else Fin 1))%num = true)).
Proof.
  cbv zeta.
  destruct (handlePointerMove_inProgress side e s)
    as [Heq | (q & wp & l & Hq & Hl & Hd & Hnew)].
  - rewrite Heq. split; [auto |].
    intros p Hp. exists p. repeat split; auto.
  - split; [intros Hn; rewrite Hn in Hq; discriminate |].
    intros p Hp. rewrite Hq in Hp. injection Hp as <-.
    eexists. split; [exact Hnew |]. cbn [Path.color Path.size Path.isEraser Path.points].
    repeat split. right. exists wp, l. repeat split; assumption.
Qed.

(* ------------------------------------------------------------------ *)
(** ** Panning, picking and painting *)

Lemma toClient_fin (side : Side) (s : State) (l t w h sp x y k dpr wx wy : R) :
  rect s = Rect.mk (Fin l) (Fin t) (Fin w) (Fin h) ->
  sliderPos s = Fin sp ->
  transformOf side s = Transform.mk (Fin x) (Fin y) (Fin k) -> dpr <> 0 ->
  toClient side s (Fin dpr) (Point.mk (Fin wx) (Fin wy)) =
  Point.mk (Fin (l + paintCx side (isComparing s) w sp + k * (wx + x)))
           (Fin (t + h / 2 + k * (wy + y))).
Proof.
  intros Hr Hs Ht Hd.
  destruct side;
    unfold toClient, workspaceToClient, referenceToClient, canvasToClient,
      workspaceMatrix, drawWorkspace, drawReference, paintCx;
    cbn [transformOf] in Ht; rewrite ?Hr, ?Hs, ?Ht;
    [destruct (isComparing s); rewrite ?Hr, ?Hs, ?Ht |];
    cbn [Rect.left Rect.top Rect.width Rect.height
         Transform.x Transform.y Transform.k];
    cbn [nmul nsub nadd nneg]; rewrite !ndiv_fin by lra;
    cbn [nmul nsub nadd nneg]; rewrite Ctx_apply_pane;
    cbn [Point.x Point.y]; rewrite !ndiv_fin by assumption;
    cbn [nadd]; f_equal; f_equal; field; assumption.
Qed.

Lemma addPan_fin (dx dy x y k : R) :
  k <> 0 ->
  addPan (Fin dx) (Fin dy) (Transform.mk (Fin x) (Fin y) (Fin k)) =
  Transform.mk (Fin (x + dx / k)) (Fin (y + dy / k)) (Fin k).
Proof.
  intros Hk. unfold addPan. cbn [Transform.x Transform.y Transform.k].
  rewrite !ndiv_fin by assumption. reflexivity.
Qed.

(** A pan of the active pane by [(dx, dy)] screen pixels: what is picked
    at a position is what was picked [(dx, dy)] before it, and what is
    painted moves by [(dx, dy)]. *)
Lemma pan_moves_the_picture (side : Side) (s s' : State)
    (l t w h sp x y k dx dy : R) :
  rect s = Rect.mk (Fin l) (Fin t) (Fin w) (Fin h) ->
  sliderPos s = Fin sp ->
  rect s' = rect s -> sliderPos s' = sliderPos s ->
  isComparing s' = isComparing s ->
  transformOf side s = Transform.mk (Fin x) (Fin y) (Fin k) -> k <> 0 ->
  transformOf side s' = addPan (Fin dx) (Fin dy) (transformOf side s) ->
  (forall cX cY,
     toWorld side s' (Fin cX) (Fin cY) = toWorld side s (Fin (cX - dx)) (Fin (cY - dy))) /\
  (forall dpr wx wy,
     dpr <> 0 ->
     toClient side s' (Fin dpr) (Point.mk (Fin wx) (Fin wy)) =
     shifted (Fin dx) (Fin dy) (toClient side s (Fin dpr) (Point.mk (Fin wx) (Fin wy)))).
Proof.
  intros Hr Hs Hr' Hs' Hc Ht Hk Ht'.
  rewrite Ht, addPan_fin in Ht' by assumption.
  rewrite Hr in Hr'. rewrite Hs in Hs'.
  split.
  - intros cX cY.
    rewrite (toWorld_fin side s' l t w h sp _ _ k cX cY Hr' Hs' Ht' Hk).
    rewrite (toWorld_fin side s l t w h sp x y k _ _ Hr Hs Ht Hk).
    f_equal; f_equal; field; assumption.
  - intros dpr wx wy Hd.
    rewrite (toClient_fin side s' l t w h sp _ _ k dpr wx wy Hr' Hs' Ht' Hd).
    rewrite (toClient_fin side s l t w h sp x y k dpr wx wy Hr Hs Ht Hd).
    rewrite Hc. unfold shifted. cbn [Point.x Point.y nadd].
    f_equal; f_equal; field; assumption.
Qed.

Lemma handlePointerMove_isComparing (e : PointerEvent) (s : State) :
  isComparing (handlePointerMove e s) = isComparing s.
Proof.
  unfold handlePointerMove, pinchMove, drawMove, set_activeTransform. fields.
  repeat (case_scrutinee; fields); reflexivity.
Qed.

Lemma hand_move_transform (e : PointerEvent) (p : Point.t) (s : State) :
  handDragging e p s \/ middleDragging p s ->
  transformOf (activeSide s) (handlePointerMove e s) =
  addPan (clientX e - Point.x p)%num (clientY e - Point.y p)%num
         (transformOf (activeSide s) s).
Proof.
  intros [(Hm & Ht & (e0 & Hp) & Hl) | (Hm & Hl)]; unfold handlePointerMove;
    rewrite Hm.
  - rewrite Hp. cbn [Map_has existsb fst Map_set]. rewrite Z.eqb_refl.
    cbn [orb negb]. fields. cbn [Map_values map snd]. rewrite Ht, Hl.
    cbn [Tool_eqb]. unfold set_activeTransform, activeTransform. fields.
    destruct (activeSide s); reflexivity.
  - rewrite Hl. unfold set_activeTransform, activeTransform.
    destruct (activeSide s); reflexivity.
Qed.

(** X10.  Panning with the hand tool, and with the middle button, keeps
    the picture under the pointer: the world point picked at the pointer
    after the move is the one that was picked at its last position before,
    and every point of the pane is painted displaced by exactly the
    pointer's displacement. *)
Theorem pan_keeps_the_grabbed_point (e : PointerEvent) (p : Point.t) (s : State) :
  handDragging e p s \/ middleDragging p s ->
  finitePane (activeSide s) s -> finitePoint p -> finitePoint (positionOf e) ->
  let side := activeSide s in
  let s' := handlePointerMove e s in
  toWorld side s' (clientX e) (clientY e) = toWorld side s (Point.x p) (Point.y p) /\
  forall dpr wx wy,
    dpr <> 0 ->
    toClient side s' (Fin dpr) (Point.mk (Fin wx) (Fin wy)) =
    shifted (clientX e - Point.x p)%num (clientY e - Point.y p)%num
      (toClient side s (Fin dpr) (Point.mk (Fin wx) (Fin wy))).
Proof.
  intros Hdrag ((l & t & w & h & sp & Hr & Hs) & (x & y & k & Ht & Hk))
    (px & py & ->) (cX & cY & He).
  cbv zeta. unfold positionOf in He. injection He as HeX HeY.
  pose proof (hand_move_transform e _ s Hdrag) as Hmove.
  rewrite HeX, HeY in *. cbn [Point.x Point.y] in *. rewrite !nsub_fin in *.
  destruct (handlePointerMove_layout e s) as [Hr' Hs'].
  destruct (pan_moves_the_picture (activeSide s) s (handlePointerMove e s)
              l t w h sp x y k (cX - px) (cY - py) Hr Hs Hr' Hs'
              (handlePointerMove_isComparing e s) Ht Hk Hmove) as [Hpick Hpaint].
  split.
  - rewrite Hpick. f_equal; f_equal; ring.
  - exact Hpaint.
Qed.

Lemma pan_keeps_the_grabbed_point_witness :
  let e := pointerAt 1 300 200 in
  let p := Point.mk (Fin 100) (Fin 100) in
  let side := activeSide panning in
  let s' := handlePointerMove e panning in
  toWorld side s' (clientX e) (clientY e) =
    toWorld side panning (Point.x p) (Point.y p) /\
  forall dpr wx wy,
    dpr <> 0 ->
    toClient side s' (Fin dpr) (Point.mk (Fin wx) (Fin wy)) =
    shifted (clientX e - Point.x p)%num (clientY e - Point.y p)%num
      (toClient side panning (Fin dpr) (Point.mk (Fin wx) (Fin wy))).
Proof.
  apply (pan_keeps_the_grabbed_point (pointerAt 1 300 200)
           (Point.mk (Fin 100) (Fin 100)) panning).
  - left. repeat split. now exists (pointerAt 1 100 100).
  - split.
    + exists 0, 0, 800, 600, 0.5. split; reflexivity.
    + exists 0, 0, 1. split; [reflexivity | lra].
  - now exists 100, 100.
  - now exists 300, 200.
Defined.

(** X11.  Where picking and painting agree (the reference pane, and the
    workspace outside comparison mode) and the ink of the pane is painted
    (the workspace always; the reference pane in comparison mode with a
    reference image), they are inverse to each other: the point picked
    under a cursor is placed by [draw] at that cursor's position, and the
    point placed at a position is the one picked there. *)
Theorem pick_and_paint_are_inverse (side : Side) (s : State)
    (dpr cX cY wx wy : R) :
  finitePane side s -> dpr <> 0 ->
  side = sideRight \/ isComparing s = false ->
  inkIsPainted side s = true ->
  paintedAt side s (Fin dpr) (toWorld side s (Fin cX) (Fin cY)) =
    Some (Point.mk (Fin cX) (Fin cY)) /\
  (forall X Y,
     paintedAt side s (Fin dpr) (Point.mk (Fin wx) (Fin wy)) = Some (Point.mk X Y) ->
     toWorld side s X Y = Point.mk (Fin wx) (Fin wy)).
Proof.
  intros ((l & t & w & h & sp & Hr & Hs) & (x & y & k & Ht & Hk)) Hd Hside Hp.
  unfold paintedAt. rewrite Hp.
  assert (Hcx : paintCx side (isComparing s) w sp = pickCx side w sp).
  { destruct Hside as [-> | ->]; [reflexivity | now destruct side]. }
  split.
  - rewrite (toWorld_fin side s l t w h sp x y k cX cY Hr Hs Ht Hk).
    rewrite (toClient_fin side s l t w h sp x y k dpr _ _ Hr Hs Ht Hd).
    rewrite Hcx. do 2 f_equal; f_equal; field; assumption.
  - intros X Y.
    rewrite (toClient_fin side s l t w h sp x y k dpr wx wy Hr Hs Ht Hd).
    intros H. injection H as <- <-.
    rewrite (toWorld_fin side s l t w h sp x y k _ _ Hr Hs Ht Hk).
    rewrite Hcx. f_equal; f_equal; field; assumption.
Qed.

(** The reference pane after the load of a 400 x 100 reference image. *)
Lemma pick_and_paint_are_inverse_witness :
  inkIsPainted sideRight referenceLoaded = true /\
  paintedAt sideRight referenceLoaded (Fin 2)
    (toWorld sideRight referenceLoaded (Fin 700) (Fin 300)) =
    Some (Point.mk (Fin 700) (Fin 300)) /\
  (forall X Y,
     paintedAt sideRight referenceLoaded (Fin 2) (Point.mk (Fin 10) (Fin 20))
       = Some (Point.mk X Y) ->
     toWorld sideRight referenceLoaded X Y = Point.mk (Fin 10) (Fin 20)).
Proof.
  split; [reflexivity |].
  apply (pick_and_paint_are_inverse sideRight referenceLoaded 2 700 300 10 20).
  - split.
    + exists 0, 0, 800, 600, 0.5. split; reflexivity.
    + eexists 0, 0, _. split.
      * change (transformOf sideRight referenceLoaded)
          with (Transform.mk (Fin 0) (Fin 0)
                  (scaleFit (Fin 800 * (Fin 1 - Fin 0.5))%num (Fin 600)
                     (greyImage 400 100))).
        unfold scaleFit, of_Z.
        cbn [greyImage flatImage Image.width Image.height nmul nsub nadd nneg].
        rewrite !ndiv_fin by lra. reflexivity.
      * unfold Rmin. destruct (Rle_dec _ _); lra.
  - lra.
  - now left.
  - reflexivity.
Defined.

Lemma getCenter_fin (p0 p1 : PointerEvent) (x0 y0 x1 y1 : R) :
  positionOf p0 = Point.mk (Fin x0) (Fin y0) ->
  positionOf p1 = Point.mk (Fin x1) (Fin y1) ->
  getCenter p0 p1 = Point.mk (Fin ((x0 + x1) / 2)) (Fin ((y0 + y1) / 2)).
Proof.
  unfold positionOf, getCenter. intros H0 H1.
  injection H0 as -> ->. injection H1 as -> ->.
  cbn [nadd]. rewrite !ndiv_fin by lra. reflexivity.
Qed.

(** X12.  A two-finger move that keeps the distance between the fingers
    does not zoom a pane whose scale is within [0.1, 10], and pans it so
    that the world point under the midpoint of the fingers stays under
    it. *)
Theorem two_finger_drag_keeps_the_midpoint (e p0 p1 : PointerEvent)
    (c : Point.t) (s : State) (d : R) :
  isMiddleMousePanning s = false ->
  Map_has (pointerId e) (pointers s) = true ->
  Map_values (Map_set (pointerId e) e (pointers s)) = [p0; p1] ->
  lastDist (gestureState s) = Fin d -> getDist p0 p1 = Fin d -> d <> 0 ->
  lastCenter (gestureState s) = Some c ->
  finitePoint c -> finitePoint (getCenter p0 p1) ->
  finitePane (activeSide s) s -> kInRange (activeSide s) s ->
  let side := activeSide s in
  let s' := handlePointerMove e s in
  let m := getCenter p0 p1 in
  Transform.k (transformOf side s') = Transform.k (transformOf side s) /\
  toWorld side s' (Point.x m) (Point.y m) = toWorld side s (Point.x c) (Point.y c).
Proof.
  intros Hm Hh Hv Hld Hd Hd0 Hlc (cx & cy & ->) (mx & my & Hmid)
    ((l & t & w & h & sp & Hr & Hs) & (x & y & k & Ht & Hk)) (k0 & Hk0 & Hrange).
  cbv zeta.
  rewrite Ht in Hk0. cbn [Transform.k] in Hk0. injection Hk0 as <-.
  assert (Hmove : transformOf (activeSide s) (handlePointerMove e s) =
                  addPan (Fin (mx - cx)) (Fin (my - cy)) (transformOf (activeSide s) s)).
  { rewrite (handlePointerMove_pinch e s p0 p1 Hm Hh Hv).
    rewrite pinchMove_transformOf. fields.
    replace (Side_eqb (activeSide s) (activeSide s)) with true
      by (now destruct (activeSide s)).
    unfold pinchZoom, pinchDelta. fields. rewrite Hld, Hd, Hlc, Hmid.
    rewrite nor_fin, ndiv_fin by assumption.
    cbn [Point.x Point.y]. rewrite !nsub_fin.
    replace (transformOf (activeSide s)
               (set_pointers (Map_set (pointerId e) e (pointers s)) s))
      with (transformOf (activeSide s) s) by (now destruct (activeSide s)).
    rewrite Ht. unfold scaleBy. cbn [Transform.x Transform.y Transform.k nmul].
    rewrite clampK_fin.
    replace (Rmax 0.1 (Rmin (k * (d / d)) 10)) with k; [reflexivity |].
    replace (k * (d / d)) with k by (field; assumption).
    rewrite Rmin_left, Rmax_right by lra. reflexivity. }
  split.
  - rewrite Hmove, Ht, addPan_fin by assumption. reflexivity.
  - destruct (handlePointerMove_layout e s) as [Hr' Hs'].
    destruct (pan_moves_the_picture (activeSide s) s (handlePointerMove e s)
                l t w h sp x y k (mx - cx) (my - cy) Hr Hs Hr' Hs'
                (handlePointerMove_isComparing e s) Ht Hk Hmove) as [Hpick _].
    rewrite Hmid. cbn [Point.x Point.y]. rewrite Hpick.
    f_equal; f_equal; ring.
Qed.

Lemma two_finger_drag_keeps_the_midpoint_witness :
  let p0 := pointerAt 1 300 300 in
  let c := getCenter (pointerAt 1 300 300) (pointerAt 2 500 300) in
  let side := activeSide pinching in
  let s' := handlePointerMove swung pinching in
  let m := getCenter p0 swung in
  Transform.k (transformOf side s') = Transform.k (transformOf side pinching) /\
  toWorld side s' (Point.x m) (Point.y m) =
    toWorld side pinching (Point.x c) (Point.y c).
Proof.
  assert (H200 : forall a b, a - b = 200 \/ a - b = -200 -> Fin (Rabs (a - b)) = Fin 200).
  { intros a b H. f_equal. unfold Rabs. destruct (Rcase_abs _); lra. }
  apply (two_finger_drag_keeps_the_midpoint swung (pointerAt 1 300 300) swung
           (getCenter (pointerAt 1 300 300) (pointerAt 2 500 300)) pinching 200).
  - reflexivity.
  - reflexivity.
  - reflexivity.
  - change (lastDist (gestureState pinching))
      with (getDist (pointerAt 1 300 300) (pointerAt 2 500 300)).
    rewrite getDist_level. apply H200. lra.
  - unfold swung. rewrite getDist_level. apply H200. lra.
  - lra.
  - reflexivity.
  - eexists _, _. now apply (getCenter_fin _ _ 300 300 500 300).
  - eexists _, _. now apply (getCenter_fin _ _ 300 300 100 300).
  - split.
    + exists 0, 0, 800, 600, 0.5. split; reflexivity.
    + exists 0, 0, 1. split; [reflexivity | lra].
  - exists 1. split; [reflexivity | lra].
Defined.

(* ------------------------------------------------------------------ *)
(** ** The comparison slider *)

Lemma clamp01 (v : num) :
  Math_max (Fin 0) (Math_min (Fin 1) v) = NaN /\ v = NaN \/
  exists p, Math_max (Fin 0) (Math_min (Fin 1) v) = Fin p /\ 0 <= p <= 1.
Proof.
  destruct v as [r | | |]; cbn [Math_max Math_min].
  - right. eexists. split; [reflexivity |].
    split; [apply Rmax_l |].
    apply Rmax_lub; [lra | apply Rmin_l].
  - right. eexists. split; [reflexivity |].
    split; [apply Rmax_l | apply Rmax_lub; lra].
  - right. exists 0. split; [reflexivity | lra].
  - now left.
Qed.

Lemma act_sliderPos (a : App) (x : Action) :
  (forall e, x <> SliderMove e) ->
  sliderPos (appState (act a x)) = sliderPos (appState a).
Proof.
  intros Hx. destruct x as [[e | e | e] | | | | | | | | | | | | | | | |];
    cbn [act step]; fields;
    try (now contradiction (Hx e));
    unfold handlePointerDown, handlePointerMove, handlePointerUp, pinchMove,
      drawMove, commitPath, commitRefPath, set_activeTransform,
      handleWheel, handleDoubleClick, recenterImage, recenterReferenceImage,
      handleSliderDown, handleSliderUp, handleKeyDown,
      handleResize, undo, redo, clear, handleUndo, handleRedo, handleRefUndo,
      handleRefRedo, handleClear, handleRefClear, handleFile,
      handleReferenceFile, toggleCompare;
    cbv zeta; fields;
    repeat (case_scrutinee; fields); reflexivity.
Qed.

(** X13.  The comparison slider.  A slider move does nothing unless the
    slider is being dragged, and never touches the ink, the strokes in
    progress, the transforms or the images.  While dragging, a finite
    pointer position over a container of finite, non-zero width puts the
    slider between 0 and 1; and from the mounted component on, whatever
    the user does, the slider position is between 0 and 1 or is NaN. *)
Theorem slider_stays_between_0_and_1 (e : PointerEvent) (a : App) :
  let a' := handleSliderMove e a in
  (isDraggingSlider a = false -> a' = a) /\
  (forall side, paneData side (appState a') = paneData side (appState a)) /\
  (isDraggingSlider a = true ->
   finiteLayout (appState a) -> Rect.width (rect (appState a)) <> Fin 0 ->
   is_finite (clientX e) = true ->
   sliderInRange (appState a')) /\
  (forall r actions,
     let s := appState (perform actions (mounted r)) in
     sliderPos s = NaN \/ sliderInRange s).
Proof.
  cbv zeta. unfold handleSliderMove. repeat split.
  - now intros ->.
  - destruct (negb _); now destruct side.
  - intros -> (l & t & w & h & sp & Hr & Hs) Hw He. cbn [negb]. fields.
    unfold sliderInRange. fields.
    destruct (clamp01 (xPct (appState a) (clientX e))) as [[_ Hnan] | Hp];
      [| exact Hp].
    exfalso. unfold xPct in Hnan. rewrite Hr in *.
    cbn [Rect.left Rect.width] in *.
    destruct (clientX e) as [cx | | |]; try discriminate.
    rewrite nsub_fin, ndiv_fin in Hnan; [discriminate |].
    intros ->. now apply Hw.
  - intros r actions.
    apply (perform_invariant
             (fun a => sliderPos (appState a) = NaN \/ sliderInRange (appState a))).
    + intros a0 x H. unfold sliderInRange in *.
      destruct x;
        try (rewrite act_sliderPos by (intros; discriminate); exact H).
      cbn [act]. unfold handleSliderMove. destruct (negb _); [exact H |].
      fields.
      destruct (clamp01 (xPct (appState a0) (clientX e0))) as [[Hn _] | Hp];
        [now left | now right].
    + right. exists 0.5. split; [reflexivity | lra].
Qed.

(* ------------------------------------------------------------------ *)
(** ** Fitting an image into its pane *)

Lemma scaleFit_fin (aw h : R) (img : Image.t) :
  goodImage img ->
  scaleFit (Fin aw) (Fin h) img =
  Fin (Rmin (aw / IZR (Image.width img)) (h / IZR (Image.height img)) * 0.9).
Proof.
  intros [Hw Hh]. unfold scaleFit, of_Z.
  apply IZR_lt in Hw, Hh.
  rewrite !ndiv_fin by lra. reflexivity.
Qed.

Lemma availWidth_fin (side : Side) (s : State) (l t w h sp : R) :
  rect s = Rect.mk (Fin l) (Fin t) (Fin w) (Fin h) -> sliderPos s = Fin sp ->
  availWidth side s = Fin (paneWidth side (isComparing s) w sp).
Proof.
  intros Hr Hs.
  destruct side; unfold availWidth, workspaceAvailW, referenceAvailW, paneWidth;
    rewrite Hr, Hs; cbn [Rect.width];
    [destruct (isComparing s) |]; reflexivity.
Qed.

Lemma fit_shows_image (side : Side) (img : Image.t) (s : State) :
  goodLayout s -> goodImage img ->
  transformOf side s = fit side img s ->
  shownWhole side img s.
Proof.
  intros (l & t & w & h & sp & Hr & Hs & Hw & Hh & Hsp) Himg Ht.
  exists l, t, w, h, sp. split; [exact Hr | split; [exact Hs |]].
  intros dpr u v Hd Hu Hv.
  unfold fit in Ht.
  rewrite (availWidth_fin side s l t w h sp Hr Hs), Hr in Ht.
  cbn [Rect.height] in Ht. rewrite scaleFit_fin in Ht by exact Himg.
  rewrite (toClient_fin side s l t w h sp 0 0 _ dpr u v Hr Hs Ht Hd).
  eexists _, _. split; [reflexivity |]. cbv zeta.
  destruct Himg as [Hwi Hhi]. apply IZR_lt in Hwi, Hhi.
  set (wi := IZR (Image.width img)) in *.
  set (hi := IZR (Image.height img)) in *.
  set (pw := paneWidth side (isComparing s) w sp).
  assert (Hpw : 0 <= pw).
  { unfold pw, paneWidth. destruct side; [destruct (isComparing s) |]; nra. }
  assert (Hcx : paintCx side (isComparing s) w sp = paneOffset side w sp + pw / 2).
  { unfold pw, paintCx, paneOffset, paneWidth.
    destruct side; [destruct (isComparing s) |]; lra. }
  rewrite Hcx.
  set (m := Rmin (pw / wi) (h / hi)).
  assert (Hm0 : 0 <= m).
  { unfold m. apply Rmin_glb; apply Rmult_le_pos; try lra;
      apply Rlt_le, Rinv_0_lt_compat; lra. }
  assert (Hmw : m * wi <= pw).
  { apply (Rle_trans _ (pw / wi * wi)); [| right; field; lra].
    apply Rmult_le_compat_r; [lra | apply Rmin_l]. }
  assert (Hmh : m * hi <= h).
  { apply (Rle_trans _ (h / hi * hi)); [| right; field; lra].
    apply Rmult_le_compat_r; [lra | apply Rmin_r]. }
  assert (Hu' : - (wi / 2) <= u <= wi / 2).
  { unfold Rabs in Hu. destruct (Rcase_abs u); lra. }
  assert (Hv' : - (hi / 2) <= v <= hi / 2).
  { unfold Rabs in Hv. destruct (Rcase_abs v); lra. }
  assert (Hku : - (0.45 * pw) <= m * 0.9 * (u + 0) <= 0.45 * pw) by nra.
  assert (Hkv : - (0.45 * h) <= m * 0.9 * (v + 0) <= 0.45 * h) by nra.
  lra.
Qed.

Lemma goodLayout_layout (s s' : State) :
  rect s' = rect s -> sliderPos s' = sliderPos s -> goodLayout s -> goodLayout s'.
Proof.
  intros Hr Hs (l & t & w & h & sp & H). exists l, t, w, h, sp.
  now rewrite Hr, Hs.
Qed.



Lemma handleResize_transformOf (r : Rect.t) (side : Side) (img : Image.t)
    (s : State) :
  imageOf side s = Some img ->
  transformOf side (handleResize r s) = fit side img (handleResize r s) /\
  rect (handleResize r s) = r /\
  sliderPos (handleResize r s) = sliderPos s.
Proof.
  intros Hi. unfold handleResize. cbv zeta. fields.
  destruct side; fields.
  - rewrite Hi. fields. destruct (referenceImage s); repeat split.
  - destruct (image s); fields; rewrite Hi; repeat split.
Qed.



(* ------------------------------------------------------------------ *)
(** ** Painting the paths, and the export *)

Lemma pointAt_In (pts : list Point.t) (i : nat) :
  (i < List.length pts)%nat -> In (pointAt pts i) pts.
Proof. intros H. unfold pointAt. now apply nth_In. Qed.

Lemma pointAt_last (p : Point.t) (rest : list Point.t) :
  pointAt (p :: rest) (List.length rest) = last rest p.
Proof.
  unfold pointAt. revert p. induction rest as [| q rest IH]; intros p.
  - reflexivity.
  - change (nth (List.length (q :: rest)) (p :: q :: rest) (Point.mk NaN NaN))
      with (nth (List.length rest) (q :: rest) (Point.mk NaN NaN)).
    rewrite IH. now rewrite last_cons_default.
Qed.

Lemma renderPathToContext_hasPoint (ctx : Canvas.t) (p : Path.t) :
  hasPoint p ->
  renderPathToContext ctx p =
  Canvas.mk Canvas.source_over (Canvas.style (strokeOf p)) (Path.size p)
    (pathSegments (Path.points p)) (Canvas.painted ctx ++ [strokeOf p]).
Proof.
  unfold hasPoint, renderPathToContext. intros H.
  destruct (Path.points p) as [| a l] eqn:E; [now contradiction H |].
  cbn [List.length Nat.ltb Nat.leb]. unfold strokeOf. rewrite E. reflexivity.
Qed.

Lemma renderPaths_painted (ps : list Path.t) (ctx : Canvas.t) :
  Forall hasPoint ps ->
  Canvas.painted (fold_left renderPathToContext ps ctx) =
    Canvas.painted ctx ++ map strokeOf ps /\
  (Canvas.globalCompositeOperation ctx = Canvas.source_over ->
   Canvas.globalCompositeOperation (fold_left renderPathToContext ps ctx)
     = Canvas.source_over).
Proof.
  intros H. revert ctx. induction H as [| p ps Hp Hps IH]; intros ctx.
  - cbn. now rewrite app_nil_r.
  - cbn [fold_left map]. rewrite (renderPathToContext_hasPoint ctx p Hp).
    destruct (IH (Canvas.mk Canvas.source_over (Canvas.style (strokeOf p))
                    (Path.size p) (pathSegments (Path.points p))
                    (Canvas.painted ctx ++ [strokeOf p]))) as [IH1 IH2].
    split; [| intros _; now apply IH2].
    rewrite IH1. cbn [Canvas.painted]. now rewrite <- app_assoc.
Qed.

Lemma renderInk_painted (ctx : Canvas.t) (ps : list Path.t)
    (current : option Path.t) :
  Forall hasPoint ps -> (forall p, current = Some p -> hasPoint p) ->
  Canvas.painted (renderInk ctx ps current) =
  Canvas.painted ctx ++
  map strokeOf (ps ++ match current with Some p => [p] | None => [] end).
Proof.
  intros Hs Hc. unfold renderInk.
  destruct (renderPaths_painted ps ctx Hs) as [Hp _].
  destruct current as [p |].
  - rewrite renderPathToContext_hasPoint by now apply Hc.
    cbn [Canvas.painted]. now rewrite Hp, map_app, app_assoc.
  - now rewrite Hp, app_nil_r.
Qed.

(** X16.  From the mounted component on, whatever the user does, one call
    of [draw] strokes, in this order: every path of the workspace once,
    the committed strokes in the order in which they were drawn and then
    the stroke in progress; in comparison mode with a reference image,
    every path of the reference pane likewise; in comparison mode, the
    divider.  Without a reference image, and outside comparison mode, no
    stroke of the reference pane is painted.  Each path is stroked with
    its own width, an eraser stroke with [destination-out] and the others
    with [source-over] and their colour, and [draw] leaves the compositing
    mode as it found it. *)
Theorem ink_is_painted_in_order (r : Rect.t) (actions : list Action)
    (dpr canvasWidth canvasHeight : num) (ctx : Canvas.t) :
  let s := appState (perform actions (mounted r)) in
  let ctx' := draw s dpr canvasWidth canvasHeight ctx in
  Canvas.painted ctx' =
    Canvas.painted ctx ++ paintedInk sideLeft s ++
    (if isComparing s then
       paintedInk sideRight s ++
       [Canvas.mkStroke (Canvas.globalCompositeOperation ctx) "#FFFFFF"
          (Fin 4 * dpr)%num
          (dividerPath (canvasWidth * sliderPos s)%num canvasHeight)]
     else []) /\
  (isComparing s = false \/ referenceImage s = None ->
   paintedInk sideRight s = []) /\
  Canvas.globalCompositeOperation ctx' = Canvas.globalCompositeOperation ctx.
Proof.
  cbv zeta.
  destruct (perform_inkHasPoints r actions sideLeft) as (HL & _ & _ & HLc).
  destruct (perform_inkHasPoints r actions sideRight) as (HR & _ & _ & HRc).
  set (s := appState (perform actions (mounted r))) in *.
  cbn [strokes inProgress] in HL, HLc, HR, HRc.
  unfold draw, drawWorkspaceInk, drawReferenceInk, clipTo, Canvas.restore,
    paintedInk, inkIsPainted, inProgressList.
  cbn [strokes inProgress].
  split; [| split].
  - destruct (isComparing s); cbn [negb andb].
    + cbv zeta.
      cbn [Canvas.painted Canvas.globalCompositeOperation Canvas.strokeStyle
           Canvas.lineWidth Canvas.currentSubpath].
      destruct (referenceImage s) as [img |]; cbn [isSome];
        cbn [Canvas.painted Canvas.globalCompositeOperation Canvas.strokeStyle
             Canvas.lineWidth Canvas.currentSubpath];
        rewrite ?renderInk_painted by assumption;
        cbn [Canvas.painted]; rewrite ?renderInk_painted by assumption;
        cbn [Canvas.painted]; rewrite <- ?app_assoc; reflexivity.
    + cbn [Canvas.painted]. rewrite renderInk_painted by assumption.
      now rewrite app_nil_r.
  - intros [-> | ->]; [reflexivity | now rewrite andb_false_r].
  - destruct (isComparing s); cbn [negb]; [cbv zeta |];
      destruct (referenceImage s); reflexivity.
Qed.

Lemma last_app_singleton {A : Type} (l : list A) (v d : A) :
  last (l ++ [v]) d = v.
Proof. apply last_last. Qed.

(** X17.  The outline that is painted for a path of [n >= 1] points:
    it begins with a move to the first point and has [max 2 (n - 1)]
    segments, the pen ends on the last point, and the control point of
    every curve is a point of the path. *)
Theorem path_outline (p : Point.t) (rest : list Point.t) :
  let pts := p :: rest in
  let segs := pathSegments pts in
  hd_error segs = Some (Canvas.MoveTo (Point.x p) (Point.y p)) /\
  List.length segs = Nat.max 2 (List.length pts - 1) /\
  Canvas.endOf (last segs (Canvas.MoveTo NaN NaN)) = last rest p /\
  forall g c, In g segs -> Canvas.controlOf g = Some c -> In c pts.
Proof.
  cbv zeta. unfold pathSegments.
  destruct rest as [| q rest].
  - cbn. split; [reflexivity | split; [reflexivity | split; [now destruct p |]]].
    intros g c [<- | [<- | []]]; discriminate.
  - change (List.length (p :: q :: rest)) with (S (S (List.length rest))).
    cbn [Nat.ltb Nat.leb Nat.sub]. rewrite !Nat.sub_0_r.
    split; [reflexivity | split; [| split]].
    + cbn [List.length]. rewrite length_app, length_map, length_seq.
      cbn [List.length]. lia.
    + rewrite app_comm_cons, last_app_singleton. cbn [Canvas.endOf].
      replace (List.length rest + 1)%nat with (List.length (q :: rest))
        by (cbn [List.length]; lia).
      rewrite pointAt_last, !last_cons_default. now destruct (last rest q).
    + intros g c [<- | Hin]; [discriminate |].
      apply in_app_iff in Hin as [Hin | [<- | []]].
      * apply in_map_iff in Hin as (i & <- & Hi). apply in_seq in Hi.
        unfold curveThrough. cbn [Canvas.controlOf]. intros H. injection H as <-.
        replace (Point.mk (Point.x (pointAt (p :: q :: rest) i))
                          (Point.y (pointAt (p :: q :: rest) i)))
          with (pointAt (p :: q :: rest) i)
          by (now destruct (pointAt (p :: q :: rest) i)).
        apply pointAt_In. cbn [List.length]. lia.
      * cbn [Canvas.controlOf]. intros H. injection H as <-.
        replace (Point.mk (Point.x (pointAt (p :: q :: rest) (List.length rest)))
                          (Point.y (pointAt (p :: q :: rest) (List.length rest))))
          with (pointAt (p :: q :: rest) (List.length rest))
          by (now destruct (pointAt (p :: q :: rest) (List.length rest))).
        apply pointAt_In. cbn [List.length]. lia.
Qed.

Lemma Ctx_apply_export (w h qx qy : R) :
  Ctx.apply (exportMatrix (Fin w) (Fin h)) (Point.mk (Fin qx) (Fin qy)) =
  Point.mk (Fin (qx + w / 2)) (Fin (qy + h / 2)).
Proof.
  unfold exportMatrix, Ctx.apply, Ctx.translate, Ctx.identity.
  rewrite !ndiv_fin by lra.
  cbn [Ctx.a Ctx.d Ctx.e Ctx.f Point.x Point.y nmul nadd].
  f_equal; f_equal; ring.
Qed.

(** X18.  The export is registered with the screen.  A stroke point that
    is seen on screen over a pixel of the pane's image is painted over
    that same pixel in the exported picture, whatever the zoom, the pan,
    the slider and the device pixel ratio; and the export of the
    workspace does not depend on the view at all. *)
Theorem export_matches_the_screen (side : Side) (img : Image.t) (s : State)
    (dpr qx qy ux uy : R) :
  imageOf side s = Some img -> finitePane side s -> dpr <> 0 ->
  toClient side s (Fin dpr) (Point.mk (Fin qx) (Fin qy)) =
  toClient side s (Fin dpr) (imagePixelToWorld img (Point.mk (Fin ux) (Fin uy))) ->
  Ctx.apply (exportMatrix (of_Z (Image.width img)) (of_Z (Image.height img)))
            (Point.mk (Fin qx) (Fin qy)) = Point.mk (Fin ux) (Fin uy) /\
  (forall t sp c iw ih,
     handleSave (set_isComparing c (set_sliderPos sp (set_transform t s))) iw ih =
     handleSave s iw ih) /\
  (forall t sp c,
     handleSaveRef (set_isComparing c (set_sliderPos sp (set_refTransform t s))) =
     handleSaveRef s).
Proof.
  intros Hi ((l & t & w & h & sp & Hr & Hs) & (x & y & k & Ht & Hk)) Hd Heq.
  split; [| split; reflexivity].
  unfold imagePixelToWorld, of_Z in *. cbn [Point.x Point.y nneg] in Heq.
  rewrite !ndiv_fin in Heq by lra. cbn [nadd] in Heq.
  rewrite !(toClient_fin side s l t w h sp x y k dpr _ _ Hr Hs Ht Hd) in Heq.
  injection Heq as Hx Hy.
  rewrite Ctx_apply_export.
  assert (Hqx : qx = ux + - IZR (Image.width img) / 2).
  { apply (Rmult_eq_reg_l k); [lra | exact Hk]. }
  assert (Hqy : qy = uy + - IZR (Image.height img) / 2).
  { apply (Rmult_eq_reg_l k); [lra | exact Hk]. }
  rewrite Hqx, Hqy. f_equal; f_equal; field.
Qed.

Lemma export_matches_the_screen_witness :
  let img := greyImage 400 100 in
  let s := handleFile img (initialState screen) in
  Ctx.apply (exportMatrix (of_Z (Image.width img)) (of_Z (Image.height img)))
            (Point.mk (Fin (-190)) (Fin (-30))) = Point.mk (Fin 10) (Fin 20) /\
  (forall t sp c iw ih,
     handleSave (set_isComparing c (set_sliderPos sp (set_transform t s))) iw ih =
     handleSave s iw ih) /\
  (forall t sp c,
     handleSaveRef (set_isComparing c (set_sliderPos sp (set_refTransform t s))) =
     handleSaveRef s).
Proof.
  assert (Hfit : scaleFit (Fin 800) (Fin 600) (greyImage 400 100) = Fin 1.8).
  { rewrite scaleFit_fin by (split; reflexivity).
    cbn [greyImage flatImage Image.width Image.height].
    rewrite Rmin_left by lra. f_equal. lra. }
  apply (export_matches_the_screen sideLeft (greyImage 400 100)
           (handleFile (greyImage 400 100) (initialState screen)) 1 (-190) (-30) 10 20).
  - reflexivity.
  - split.
    + exists 0, 0, 800, 600, 0.5. split; reflexivity.
    + exists 0, 0, 1.8. split; [| lra].
      change (transformOf sideLeft
                (handleFile (greyImage 400 100) (initialState screen)))
        with (Transform.mk (Fin 0) (Fin 0)
                (scaleFit (Fin 800) (Fin 600) (greyImage 400 100))).
      now rewrite Hfit.
  - lra.
  - unfold imagePixelToWorld, of_Z.
    cbn [greyImage flatImage Image.width Image.height Point.x Point.y nneg].
    rewrite !ndiv_fin by lra. cbn [nadd].
    do 2 f_equal; f_equal; lra.
Defined.

(* ------------------------------------------------------------------ *)
(** ** The redraw scheduler *)

Lemma Redraw_step_bounds (r : Redraw.t) (ev : Redraw.Event) :
  let r' := Redraw.step r ev in
  (Redraw.draws r' + Redraw.pending r' <=
     Redraw.draws r + Redraw.pending r +
     (if Redraw.isRequest ev then 1 else 0))%nat /\
  (Redraw.draws r' <= Redraw.draws r + (if Redraw.isFrame ev then 1 else 0))%nat.
Proof.
  cbv zeta. unfold Redraw.pending.
  destruct ev; cbn [Redraw.step Redraw.isRequest Redraw.isFrame];
    unfold Redraw.requestRedraw, Redraw.frame, Redraw.cancel;
    destruct (Redraw.animFrameRef r) eqn:E;
    cbn [Redraw.animFrameRef Redraw.draws]; rewrite ?E; lia.
Qed.

(** X19.  Redraws are coalesced.  Over any sequence of redraw requests,
    animation frames and cancellations, [draw] runs at most once per
    frame and at most once per request; and any number of requests
    followed by a frame makes [draw] run exactly once at that frame. *)
Theorem redraws_are_coalesced (evs : list Redraw.Event) (n : nat) (r : Redraw.t) :
  (Redraw.draws (Redraw.run evs Redraw.idle)
     <= List.length (filter Redraw.isFrame evs))%nat /\
  (Redraw.draws (Redraw.run evs Redraw.idle)
     <= List.length (filter Redraw.isRequest evs))%nat /\
  let r' := Redraw.run (repeat Redraw.Request (S n) ++ [Redraw.Frame]) r in
  Redraw.draws r' = S (Redraw.draws r) /\ Redraw.animFrameRef r' = None.
Proof.
  assert (Hgen : forall evs r,
    (Redraw.draws (Redraw.run evs r) + Redraw.pending (Redraw.run evs r)
     <= Redraw.draws r + Redraw.pending r
        + List.length (filter Redraw.isRequest evs))%nat /\
    (Redraw.draws (Redraw.run evs r)
     <= Redraw.draws r + List.length (filter Redraw.isFrame evs))%nat).
  { clear. induction evs as [| ev evs IH]; intros r.
    - cbn. lia.
    - cbn [Redraw.run fold_left filter]. fold (Redraw.run evs (Redraw.step r ev)).
      destruct (IH (Redraw.step r ev)) as [IH1 IH2].
      destruct (Redraw_step_bounds r ev) as (H1 & H2). cbv zeta in H1, H2.
      destruct (Redraw.isRequest ev), (Redraw.isFrame ev);
        cbn [List.length]; lia. }
  destruct (Hgen evs Redraw.idle) as [H1 H2].
  cbn [Redraw.idle Redraw.draws Redraw.animFrameRef Redraw.pending] in H1, H2.
  split; [lia | split; [lia |]].
  cbv zeta. unfold Redraw.run. rewrite fold_left_app.
  assert (Hreq : forall m r0,
            Redraw.animFrameRef r0 <> None ->
            fold_left Redraw.step (repeat Redraw.Request m) r0 = r0).
  { clear. induction m as [| m IH]; intros r0 H0; [reflexivity |].
    cbn [repeat fold_left Redraw.step]. unfold Redraw.requestRedraw.
    destruct (Redraw.animFrameRef r0) eqn:E; [| now contradiction H0].
    apply IH. now rewrite E. }
  cbn [repeat fold_left Redraw.step].
  assert (Hfirst : Redraw.animFrameRef (Redraw.requestRedraw r) <> None /\
                   Redraw.draws (Redraw.requestRedraw r) = Redraw.draws r).
  { unfold Redraw.requestRedraw. destruct (Redraw.animFrameRef r) eqn:E.
    - split; [now rewrite E | reflexivity].
    - split; [discriminate | reflexivity]. }
  destruct Hfirst as [Hp Hd]. rewrite (Hreq n _ Hp).
  unfold Redraw.frame.
  destruct (Redraw.animFrameRef (Redraw.requestRedraw r)); [| now contradiction Hp].
  cbn [Redraw.draws Redraw.animFrameRef]. now rewrite Hd.
Qed.

(* ------------------------------------------------------------------ *)
(** ** The scan of the edge-snap analyzer *)

Lemma nlt_trans (a b c : num) :
  (a <? b)%num = true -> (b <? c)%num = true -> (a <? c)%num = true.
Proof.
  destruct a as [u | | |], b as [v | | |], c as [w | | |];
    cbn [nlt]; try discriminate; try reflexivity.
  rewrite !Rlt_b_spec. lra.
Qed.

(** A better score than [m] was recorded, so what does not beat [m] does
    not beat it either. *)
Lemma not_better_after_update (m m' c : num) :
  (m' >? m)%num = true -> (c >? m)%num = false -> (c >? m')%num = false.
Proof.
  unfold ngt. intros H1 H2.
  destruct (m' <? c)%num eqn:E; [| reflexivity].
  now rewrite (nlt_trans m m' c H1 E) in H2.
Qed.

Section ScanBest.

Variable data : Z -> option Z.
Variables padStartX padStartY padW imgX imgY : Z.
Variables dirX dirY perpX perpY : num.
Variable hasDirection : bool.

Let strong (px py : Z) : Prop :=
  (edgeStrength data padStartX padStartY padW px py <? Fin 5)%num = false.
Let scoreOf :=
  score data padStartX padStartY padW imgX imgY dirX dirY perpX perpY hasDirection.
Let visitOf :=
  visit data padStartX padStartY padW imgX imgY dirX dirY perpX perpY hasDirection.

(** What the loops maintain over the set [V] of the candidates visited. *)
Let best_of (V : Z -> Z -> Prop) (best : num * Z * Z) : Prop :=
  ((fst (fst best) = Fin (-1) /\ snd (fst best) = imgX /\ snd best = imgY) \/
   (V (snd (fst best)) (snd best) /\ strong (snd (fst best)) (snd best) /\
    fst (fst best) = scoreOf (snd (fst best)) (snd best))) /\
  forall px py, V px py -> strong px py ->
                (scoreOf px py >? fst (fst best))%num = false.

Lemma best_of_ext (V V' : Z -> Z -> Prop) (best : num * Z * Z) :
  (forall x y, V x y <-> V' x y) -> best_of V best -> best_of V' best.
Proof.
  intros Hext [[H0 | (Hv & Hs & Hm)] Hall]; split.
  - now left.
  - intros px py Hp. apply Hall. now apply Hext.
  - right. split; [now apply Hext | now split].
  - intros px py Hp. apply Hall. now apply Hext.
Qed.

Lemma visit_best_of (V : Z -> Z -> Prop) (best : num * Z * Z) (px py : Z) :
  best_of V best ->
  best_of (fun x y => V x y \/ (x = px /\ y = py)) (visitOf py best px).
Proof.
  destruct best as [[m bx] by_]. intros [Hwho Hall]. cbn [fst snd] in *.
  unfold visitOf, visit. fold scoreOf.
  destruct (edgeStrength data padStartX padStartY padW px py <? Fin 5)%num eqn:Hweak.
  - split; cbn [fst snd].
    + destruct Hwho as [H0 | (Hv & Hs & Hm)]; [now left | right; auto].
    + intros qx qy [Hq | [-> ->]] Hstrong; [now apply Hall |].
      unfold strong in Hstrong. congruence.
  - destruct (scoreOf px py >? m)%num eqn:Hbetter.
    + split; cbn [fst snd].
      * right. split; [now right | split; [exact Hweak | reflexivity]].
      * intros qx qy [Hq | [-> ->]] Hstrong.
        -- apply (not_better_after_update m); [exact Hbetter | now apply Hall].
        -- unfold ngt. destruct (scoreOf px py) as [u | | |];
             cbn [nlt]; try reflexivity.
           apply Rlt_b_false. lra.
    + split; cbn [fst snd].
      * destruct Hwho as [H0 | (Hv & Hs & Hm)]; [now left | right; auto].
      * intros qx qy [Hq | [-> ->]] Hstrong; [now apply Hall | exact Hbetter].
Qed.

Lemma row_best_of (cols : list Z) (py : Z) (V : Z -> Z -> Prop)
    (best : num * Z * Z) :
  best_of V best ->
  best_of (fun x y => V x y \/ (In x cols /\ y = py))
          (fold_left (visitOf py) cols best).
Proof.
  revert V best. induction cols as [| px cols IH]; intros V best H.
  - cbn [fold_left]. apply (best_of_ext V); [| exact H].
    intros x y. cbn [In]. tauto.
  - cbn [fold_left].
    apply (best_of_ext (fun x y => (V x y \/ (x = px /\ y = py)) \/
                                   (In x cols /\ y = py))).
    + intros x y. cbn [In]. split.
      * intros [[Hv | [-> ->]] | [Hi ->]]; auto.
      * intros [Hv | [[<- | Hi] ->]]; auto.
    + apply IH. now apply visit_best_of.
Qed.

Lemma rows_best_of (cols rows : list Z) (V : Z -> Z -> Prop)
    (best : num * Z * Z) :
  best_of V best ->
  best_of (fun x y => V x y \/ (In x cols /\ In y rows))
          (fold_left (fun b py => fold_left (visitOf py) cols b) rows best).
Proof.
  revert V best. induction rows as [| py rows IH]; intros V best H.
  - cbn [fold_left]. apply (best_of_ext V); [| exact H].
    intros x y. cbn [In]. tauto.
  - cbn [fold_left].
    apply (best_of_ext (fun x y => (V x y \/ (In x cols /\ y = py)) \/
                                   (In x cols /\ In y rows))).
    + intros x y. cbn [In]. split.
      * intros [[Hv | [Hi ->]] | [Hi Hj]]; auto.
      * intros [Hv | [Hi [<- | Hj]]]; auto.
    + apply IH. now apply row_best_of.
Qed.

Lemma scan_best_of (startX startY endX endY : Z) :
  best_of (fun x y => (startX <= x < endX)%Z /\ (startY <= y < endY)%Z)
    (scan data padStartX padStartY padW imgX imgY dirX dirY perpX perpY
          hasDirection startX startY endX endY).
Proof.
  unfold scan, scanRow. fold visitOf.
  apply (best_of_ext (fun x y => False \/
                        (In x (Zrange startX endX) /\ In y (Zrange startY endY)))).
  - intros x y. rewrite !In_Zrange. tauto.
  - apply (rows_best_of (Zrange startX endX) (Zrange startY endY)
             (fun _ _ => False)).
    split; cbn [fst snd]; [now left | intros ? ? []].
Qed.

End ScanBest.

(** X20.  What the two loops of [snapToEdge] find.  Either no candidate
    was taken, and the result is the cursor pixel with the score -1; or
    the result is a candidate of the window that reaches the strength
    floor of 5, with its own score.  In both cases no candidate of the
    window that reaches the floor has a higher score than the result. *)
Theorem scan_finds_the_best_candidate (data : Z -> option Z)
    (padStartX padStartY padW imgX imgY : Z) (dirX dirY perpX perpY : num)
    (hasDirection : bool) (startX startY endX endY : Z) :
  let strength := edgeStrength data padStartX padStartY padW in
  let scoreOf :=
    score data padStartX padStartY padW imgX imgY dirX dirY perpX perpY
          hasDirection in
  let best :=
    scan data padStartX padStartY padW imgX imgY dirX dirY perpX perpY
         hasDirection startX startY endX endY in
  let maxScore := fst (fst best) in
  let bestX := snd (fst best) in
  let bestY := snd best in
  ((maxScore = Fin (-1) /\ bestX = imgX /\ bestY = imgY) \/
   ((startX <= bestX < endX)%Z /\ (startY <= bestY < endY)%Z /\
    (strength bestX bestY <? Fin 5)%num = false /\
    maxScore = scoreOf bestX bestY)) /\
  forall px py,
    (startX <= px < endX)%Z -> (startY <= py < endY)%Z ->
    (strength px py <? Fin 5)%num = false ->
    (scoreOf px py >? maxScore)%num = false.
Proof.
  cbv zeta.
  destruct (scan_best_of data padStartX padStartY padW imgX imgY
              dirX dirY perpX perpY hasDirection startX startY endX endY)
    as [Hwho Hall].
  split.
  - destruct Hwho as [H0 | ((Hx & Hy) & Hs & Hm)]; [now left | right; auto].
  - intros px py Hx Hy Hs. apply Hall; [now split | exact Hs].
Qed.

(* ------------------------------------------------------------------ *)
(** ** The window read from the analysis canvas *)

Lemma getImageData_at (img : Image.t) (sx sy sw sh lx ly c : Z) :
  (0 <= lx < sw)%Z -> (0 <= ly < sh)%Z -> (0 <= c < 4)%Z ->
  getImageData img sx sy sw sh ((ly * sw + lx) * 4 + c)%Z
  = Some (canvasPixel img (sx + lx) (sy + ly) c).
Proof.
  intros Hlx Hly Hc. unfold getImageData.
  assert (Hq : (((ly * sw + lx) * 4 + c) / 4 = ly * sw + lx)%Z).
  { rewrite Z.div_add_l by lia. rewrite Z.div_small by lia. lia. }
  assert (Hr : (((ly * sw + lx) * 4 + c) mod 4 = c)%Z).
  { rewrite Z.add_comm, Z.mod_add by lia. apply Z.mod_small. lia. }
  assert (Hqq : ((ly * sw + lx) / sw = ly)%Z).
  { rewrite Z.div_add_l by lia. rewrite Z.div_small by lia. lia. }
  assert (Hqr : ((ly * sw + lx) mod sw = lx)%Z).
  { rewrite Z.add_comm, Z.mod_add by lia. apply Z.mod_small. lia. }
  rewrite Hq, Hr, Hqq, Hqr.
  assert (Hin : ((0 <=? (ly * sw + lx) * 4 + c)
                 && ((ly * sw + lx) * 4 + c <? 4 * sw * sh))%Z%bool = true).
  { apply andb_true_iff. split; [apply Z.leb_le | apply Z.ltb_lt]; nia. }
  now rewrite Hin.
Qed.

Lemma canvasPixel_inside (img : Image.t) (px py c : Z) :
  (0 <= px < Image.width img)%Z -> (0 <= py < Image.height img)%Z ->
  canvasPixel img px py c = Image.pixel img px py c.
Proof.
  intros Hx Hy. unfold canvasPixel.
  assert (Hb : ((0 <=? px) && (px <? Image.width img)
                && (0 <=? py) && (py <? Image.height img))%Z%bool = true).
  { repeat (apply andb_true_iff; split);
      (apply Z.leb_le || apply Z.ltb_lt); lia. }
  now rewrite Hb.
Qed.

(** The reads of a candidate and of its neighbours. *)
Lemma window_read (img : Image.t) (imgX imgY px py dx dy c : Z) :
  let '(startX, startY, endX, endY) := snapWindow img imgX imgY in
  let '(padStartX, padStartY, padW, padH) :=
    snapPad img startX startY endX endY in
  (startX <= px < endX)%Z -> (startY <= py < endY)%Z ->
  (-1 <= dx <= 1)%Z -> (-1 <= dy <= 1)%Z -> (0 <= c < 4)%Z ->
  getImageData img padStartX padStartY padW padH
    (((py + dy - padStartY) * padW + (px + dx - padStartX)) * 4 + c)%Z
  = Some (Image.pixel img (px + dx) (py + dy) c).
Proof.
  unfold snapWindow, snapPad. cbv zeta. intros Hx Hy Hdx Hdy Hc.
  rewrite getImageData_at by lia.
  rewrite canvasPixel_inside by lia.
  do 2 f_equal; lia.
Qed.

Section WindowReads.

Variable img : Image.t.
Variables padStartX padStartY padW padH : Z.
Variables loX hiX loY hiY : Z.

Let data := getImageData img padStartX padStartY padW padH.

Hypothesis Hread :
  forall qx qy c,
    (loX <= qx <= hiX)%Z -> (loY <= qy <= hiY)%Z -> (0 <= c < 4)%Z ->
    data (((qy - padStartY) * padW + (qx - padStartX)) * 4 + c)%Z
    = Some (Image.pixel img qx qy c).

Lemma window_lum_fin (qx qy : Z) :
  (loX <= qx <= hiX)%Z -> (loY <= qy <= hiY)%Z ->
  exists r, lum data padStartX padStartY padW qx qy = Fin r.
Proof.
  intros Hx Hy. unfold lum. cbv zeta.
  pose proof (Hread qx qy 0 Hx Hy ltac:(lia)) as H0. rewrite Z.add_0_r in H0.
  rewrite H0, !Hread by lia.
  unfold elt, of_Z. rewrite ndiv_fin by lra. cbn [nmul nadd].
  eexists. reflexivity.
Qed.

Lemma window_edgeStrength_fin (px py : Z) :
  (loX < px < hiX)%Z -> (loY < py < hiY)%Z ->
  exists r, edgeStrength data padStartX padStartY padW px py = Fin r.
Proof.
  intros Hx Hy. unfold edgeStrength, gradMag, gradX, gradY, alphaGrad.
  destruct (window_lum_fin (px + 1) py) as [l1 ->]; [lia | lia |].
  destruct (window_lum_fin (px - 1) py) as [l2 ->]; [lia | lia |].
  destruct (window_lum_fin px (py + 1)) as [l3 ->]; [lia | lia |].
  destruct (window_lum_fin px (py - 1)) as [l4 ->]; [lia | lia |].
  cbv zeta.
  replace (px - 1 - padStartX)%Z with ((px - 1) - padStartX)%Z by lia.
  replace (px + 1 - padStartX)%Z with ((px + 1) - padStartX)%Z by lia.
  replace (py - 1 - padStartY)%Z with ((py - 1) - padStartY)%Z by lia.
  replace (py + 1 - padStartY)%Z with ((py + 1) - padStartY)%Z by lia.
  rewrite !Hread by lia.
  unfold elt_or_0, of_Z. rewrite !nsub_fin, !hypot_fin, ndiv_fin by lra.
  cbn [nmul nadd]. eexists. reflexivity.
Qed.

End WindowReads.

(** X21.  Every read of the analyzer is inside the window it has fetched.
    For a candidate of the window, the array index that the code computes
    for channel [c] of the candidate or of one of its eight neighbours
    holds that channel of that pixel of the image; so the edge strength of
    a candidate is a finite number, never the NaN of a read past the
    array. *)
Theorem candidate_reads_stay_in_the_window (img : Image.t)
    (imgX imgY startX startY endX endY px py : Z) :
  snapWindow img imgX imgY = (startX, startY, endX, endY) ->
  (startX <= px < endX)%Z -> (startY <= py < endY)%Z ->
  (forall dx dy c,
     (-1 <= dx <= 1)%Z -> (-1 <= dy <= 1)%Z -> (0 <= c < 4)%Z ->
     let '(padStartX, padStartY, padW, padH) :=
       snapPad img startX startY endX endY in
     getImageData img padStartX padStartY padW padH
       (((py + dy - padStartY) * padW + (px + dx - padStartX)) * 4 + c)%Z
     = Some (Image.pixel img (px + dx) (py + dy) c)) /\
  exists r, candidateStrength img startX startY endX endY px py = Fin r.
Proof.
  intros Hwin Hx Hy.
  assert (Hreads : forall qx qy c,
            (px - 1 <= qx <= px + 1)%Z -> (py - 1 <= qy <= py + 1)%Z ->
            (0 <= c < 4)%Z ->
            let '(padStartX, padStartY, padW, padH) :=
              snapPad img startX startY endX endY in
            getImageData img padStartX padStartY padW padH
              (((qy - padStartY) * padW + (qx - padStartX)) * 4 + c)%Z
            = Some (Image.pixel img qx qy c)).
  { intros qx qy c Hqx Hqy Hc.
    pose proof (window_read img imgX imgY px py (qx - px) (qy - py) c) as H.
    rewrite Hwin in H.
    destruct (snapPad img startX startY endX endY) as [[[psx psy] pw] ph].
    replace (px + (qx - px))%Z with qx in H by lia.
    replace (py + (qy - py))%Z with qy in H by lia.
    apply H; lia. }
  split.
  - intros dx dy c Hdx Hdy Hc.
    specialize (Hreads (px + dx)%Z (py + dy)%Z c).
    destruct (snapPad img startX startY endX endY) as [[[psx psy] pw] ph].
    apply Hreads; lia.
  - unfold candidateStrength.
    destruct (snapPad img startX startY endX endY) as [[[psx psy] pw] ph].
    apply (window_edgeStrength_fin img psx psy pw ph
             (px - 1) (px + 1) (py - 1) (py + 1)); [| lia | lia].
    intros qx qy c Hqx Hqy Hc. now apply Hreads.
Qed.

Lemma candidate_reads_stay_in_the_window_witness :
  (forall dx dy c,
     (-1 <= dx <= 1)%Z -> (-1 <= dy <= 1)%Z -> (0 <= c < 4)%Z ->
     let '(padStartX, padStartY, padW, padH) :=
       snapPad (greyImage 100 100) 42 42 58 58 in
     getImageData (greyImage 100 100) padStartX padStartY padW padH
       (((50 + dy - padStartY) * padW + (50 + dx - padStartX)) * 4 + c)%Z
     = Some (Image.pixel (greyImage 100 100) (50 + dx) (50 + dy) c)) /\
  exists r, candidateStrength (greyImage 100 100) 42 42 58 58 50 50 = Fin r.
Proof.
  apply (candidate_reads_stay_in_the_window (greyImage 100 100)
           50 50 42 42 58 58 50 50).
  - reflexivity.
  - lia.
  - lia.
Defined.

(* ------------------------------------------------------------------ *)
(** ** When the analyzer leaves the point unsnapped *)

Section WindowValues.

Variable img : Image.t.
Variables padStartX padStartY padW padH : Z.
Variables loX hiX loY hiY : Z.

Let data := getImageData img padStartX padStartY padW padH.

Hypothesis Hread :
  forall qx qy c,
    (loX <= qx <= hiX)%Z -> (loY <= qy <= hiY)%Z -> (0 <= c < 4)%Z ->
    data (((qy - padStartY) * padW + (qx - padStartX)) * 4 + c)%Z
    = Some (Image.pixel img qx qy c).

Lemma window_lum_value (qx qy : Z) :
  (loX <= qx <= hiX)%Z -> (loY <= qy <= hiY)%Z ->
  lum data padStartX padStartY padW qx qy = Fin (pixelLum img qx qy).
Proof.
  intros Hx Hy. unfold lum. cbv zeta.
  pose proof (Hread qx qy 0 Hx Hy ltac:(lia)) as H0. rewrite Z.add_0_r in H0.
  rewrite H0, !Hread by lia.
  unfold elt, of_Z. rewrite ndiv_fin by lra. cbn [nmul nadd].
  reflexivity.
Qed.

Lemma window_edgeStrength_value (px py : Z) :
  (loX < px < hiX)%Z -> (loY < py < hiY)%Z ->
  edgeStrength data padStartX padStartY padW px py = Fin (pixelStrength img px py).
Proof.
  intros Hx Hy. unfold edgeStrength, gradMag, gradX, gradY, alphaGrad.
  rewrite !window_lum_value by lia.
  cbv zeta.
  replace (px - 1 - padStartX)%Z with ((px - 1) - padStartX)%Z by lia.
  replace (px + 1 - padStartX)%Z with ((px + 1) - padStartX)%Z by lia.
  replace (py - 1 - padStartY)%Z with ((py - 1) - padStartY)%Z by lia.
  replace (py + 1 - padStartY)%Z with ((py + 1) - padStartY)%Z by lia.
  rewrite !Hread by lia.
  unfold elt_or_0, of_Z. rewrite !nsub_fin, !hypot_fin, ndiv_fin by lra.
  cbn [nmul nadd]. reflexivity.
Qed.

End WindowValues.

(** The strength of a candidate of the window is the strength of the
    pixel in exact arithmetic. *)
Lemma candidateStrength_value (img : Image.t)
    (imgX imgY startX startY endX endY px py : Z) :
  snapWindow img imgX imgY = (startX, startY, endX, endY) ->
  (startX <= px < endX)%Z -> (startY <= py < endY)%Z ->
  candidateStrength img startX startY endX endY px py =
  Fin (pixelStrength img px py).
Proof.
  intros Hwin Hx Hy.
  assert (Hreads : forall qx qy c,
            (px - 1 <= qx <= px + 1)%Z -> (py - 1 <= qy <= py + 1)%Z ->
            (0 <= c < 4)%Z ->
            let '(padStartX, padStartY, padW, padH) :=
              snapPad img startX startY endX endY in
            getImageData img padStartX padStartY padW padH
              (((qy - padStartY) * padW + (qx - padStartX)) * 4 + c)%Z
            = Some (Image.pixel img qx qy c)).
  { intros qx qy c Hqx Hqy Hc.
    pose proof (window_read img imgX imgY px py (qx - px) (qy - py) c) as H.
    rewrite Hwin in H.
    destruct (snapPad img startX startY endX endY) as [[[psx psy] pw] ph].
    replace (px + (qx - px))%Z with qx in H by lia.
    replace (py + (qy - py))%Z with qy in H by lia.
    apply H; lia. }
  unfold candidateStrength.
  destruct (snapPad img startX startY endX endY) as [[[psx psy] pw] ph].
  apply (window_edgeStrength_value img psx psy pw ph
           (px - 1) (px + 1) (py - 1) (py + 1)); [| lia | lia].
  intros qx qy c Hqx Hqy Hc. now apply Hreads.
Qed.

(** Without a drawing direction the score of a candidate is its strength
    less five times its distance from the cursor pixel. *)
Lemma candidateScore_no_direction (img : Image.t) (wx wy : R)
    (startX startY endX endY px py : Z) :
  snapWindow img (fst (cursorPixel img wx wy)) (snd (cursorPixel img wx wy))
    = (startX, startY, endX, endY) ->
  candidateScore img None wx wy px py =
  (candidateStrength img startX startY endX endY px py
   - Math_hypot (of_Z (px - fst (cursorPixel img wx wy)))
                (of_Z (py - snd (cursorPixel img wx wy))) * Fin 5)%num.
Proof.
  intros Hwin. unfold candidateScore, candidateStrength, score.
  destruct (cursorPixel img wx wy) as [imgX imgY]. cbn [fst snd] in *.
  cbn [drawingDirection]. rewrite Hwin.
  destruct (snapPad _ _ _ _ _) as [[[padStartX padStartY] padW] padH].
  reflexivity.
Qed.

(** [snapToEdge] on a finite cursor, by the result of its scan. *)
Lemma snapToEdge_by_scan (wx wy : R) (img : Image.t)
    (prev : option (list Point.t)) (startX startY endX endY : Z)
    (maxScore : num) (bestX bestY : Z) :
  snapWindow img (fst (cursorPixel img wx wy)) (snd (cursorPixel img wx wy))
    = (startX, startY, endX, endY) ->
  snapScan img prev wx wy = (maxScore, bestX, bestY) ->
  snapToEdge (Fin wx) (Fin wy) (Some img) prev =
  if ((endX - startX <=? 2) || (endY - startY <=? 2))%Z%bool
  then Point.mk (Fin wx) (Fin wy)
  else if (maxScore <? Fin 5)%num then Point.mk (Fin wx) (Fin wy)
  else
    let snapX := IZR bestX - IZR (Image.width img) / 2 in
    let snapY := IZR bestY - IZR (Image.height img) / 2 in
    let snapDx := snapX - wx in
    let snapDy := snapY - wy in
    let snapDist := sqrt (snapDx * snapDx + snapDy * snapDy) in
    if Rlt_b 6 snapDist then
      Point.mk (Fin (wx + snapDx * (6 / snapDist)))
               (Fin (wy + snapDy * (6 / snapDist)))
    else Point.mk (Fin snapX) (Fin snapY).
Proof.
  intros Hwin Hscan. rewrite snapToEdge_fin. unfold snapScan in Hscan.
  destruct (cursorPixel img wx wy) as [imgX imgY]. cbn [fst snd] in Hwin.
  destruct (drawingDirection prev) as [[dirX dirY] hasDirection].
  rewrite Hwin in *.
  destruct (_ || _)%bool; [reflexivity |].
  destruct (snapPad _ _ _ _ _) as [[[padStartX padStartY] padW] padH].
  cbv zeta in *. now rewrite Hscan.
Qed.

(** What the scan of [snapToEdge] ends with, in terms of the candidates of
    the window. *)
Lemma snapScan_best (wx wy : R) (img : Image.t) (prev : option (list Point.t))
    (startX startY endX endY : Z) (maxScore : num) (bestX bestY : Z) :
  snapWindow img (fst (cursorPixel img wx wy)) (snd (cursorPixel img wx wy))
    = (startX, startY, endX, endY) ->
  snapScan img prev wx wy = (maxScore, bestX, bestY) ->
  (maxScore = Fin (-1) \/
   ((startX <= bestX < endX)%Z /\ (startY <= bestY < endY)%Z /\
    (candidateStrength img startX startY endX endY bestX bestY <? Fin 5)%num = false /\
    maxScore = candidateScore img prev wx wy bestX bestY)) /\
  forall px py,
    (startX <= px < endX)%Z -> (startY <= py < endY)%Z ->
    (candidateStrength img startX startY endX endY px py <? Fin 5)%num = false ->
    (candidateScore img prev wx wy px py >? maxScore)%num = false.
Proof.
  intros Hwin Hscan.
  unfold snapScan in Hscan. unfold candidateStrength, candidateScore.
  destruct (cursorPixel img wx wy) as [imgX imgY]. cbn [fst snd] in Hwin.
  destruct (drawingDirection prev) as [[dirX dirY] hasDirection].
  rewrite Hwin in *.
  destruct (snapPad _ _ _ _ _) as [[[padStartX padStartY] padW] padH].
  cbv zeta in Hscan.
  destruct (scan_best_of (getImageData img padStartX padStartY padW padH)
              padStartX padStartY padW imgX imgY dirX dirY
              (if hasDirection then nneg dirY else Fin 0)
              (if hasDirection then dirX else Fin 0)
              hasDirection startX startY endX endY)
    as [Hwho Hall].
  rewrite Hscan in Hwho, Hall. cbn [fst snd] in Hwho, Hall.
  split.
  - destruct Hwho as [(H0 & _) | ((Hx & Hy) & Hs & Hm)]; [now left | right; auto].
  - intros px py Hx Hy Hs. apply Hall; [now split | exact Hs].
Qed.

Lemma nle_not_lt (a v : R) (n : num) :
  (Fin a <=? n)%num = true -> v <= a -> (n <? Fin v)%num = false.
Proof.
  destruct n as [u | | |]; cbn [nle nlt]; try discriminate; try reflexivity.
  unfold Rle_b. destruct (Rle_dec a u); [| discriminate].
  intros _ H. apply Rlt_b_false. lra.
Qed.

Lemma nlt_nle_trans (a c : num) (u v : R) :
  (a <? Fin u)%num = true -> (Fin v <=? c)%num = true -> u <= v ->
  (a <? c)%num = true.
Proof.
  destruct a as [x | | |], c as [z | | |]; cbn [nle nlt];
    try discriminate; try reflexivity.
  rewrite Rlt_b_spec. unfold Rle_b. destruct (Rle_dec v z); [| discriminate].
  intros H1 _ H2. apply Rlt_b_true. lra.
Qed.

(** No candidate that reaches the strength floor scores 5: the cursor is
    returned. *)
Lemma snapToEdge_weak_scores (wx wy : R) (img : Image.t)
    (prev : option (list Point.t)) (startX startY endX endY : Z) :
  snapWindow img (fst (cursorPixel img wx wy)) (snd (cursorPixel img wx wy))
    = (startX, startY, endX, endY) ->
  (forall px py,
     (startX <= px < endX)%Z -> (startY <= py < endY)%Z ->
     (candidateStrength img startX startY endX endY px py <? Fin 5)%num = true \/
     (candidateScore img prev wx wy px py <? Fin 5)%num = true) ->
  snapToEdge (Fin wx) (Fin wy) (Some img) prev = Point.mk (Fin wx) (Fin wy).
Proof.
  intros Hwin Hweak.
  destruct (snapScan img prev wx wy) as [[maxScore bestX] bestY] eqn:Hscan.
  rewrite (snapToEdge_by_scan wx wy img prev _ _ _ _ _ _ _ Hwin Hscan).
  destruct (_ || _)%bool; [reflexivity |].
  destruct (snapScan_best wx wy img prev _ _ _ _ _ _ _ Hwin Hscan)
    as [[-> | (Hx & Hy & Hs & ->)] _].
  - cbn [nlt]. now rewrite Rlt_b_true by lra.
  - destruct (Hweak bestX bestY Hx Hy) as [Hw | ->]; [congruence | reflexivity].
Qed.

(** The cursor is returned although the window has not collapsed: then
    the cursor is the world point of its own pixel, or no candidate
    reaches 5 by the margin in both strength and score. *)
Lemma returned_cursor_only_if (wx wy : R) (img : Image.t)
    (prev : option (list Point.t)) (startX startY endX endY : Z) :
  snapWindow img (fst (cursorPixel img wx wy)) (snd (cursorPixel img wx wy))
    = (startX, startY, endX, endY) ->
  snapToEdge (Fin wx) (Fin wy) (Some img) prev = Point.mk (Fin wx) (Fin wy) ->
  (endX - startX <= 2)%Z \/ (endY - startY <= 2)%Z \/
  pixelWorld img (fst (cursorPixel img wx wy)) (snd (cursorPixel img wx wy))
    = (wx, wy) \/
  forall px py,
    (startX <= px < endX)%Z -> (startY <= py < endY)%Z ->
    (Fin (5 + scoreMargin)
       <=? candidateStrength img startX startY endX endY px py)%num = false \/
    (Fin (5 + scoreMargin) <=? candidateScore img prev wx wy px py)%num = false.
Proof.
  intros Hwin Hres.
  destruct (snapScan img prev wx wy) as [[maxScore bestX] bestY] eqn:Hscan.
  rewrite (snapToEdge_by_scan wx wy img prev _ _ _ _ _ _ _ Hwin Hscan) in Hres.
  destruct ((endX - startX <=? 2) || (endY - startY <=? 2))%Z%bool eqn:Hsmall.
  { apply orb_true_iff in Hsmall as [H | H]; apply Z.leb_le in H; auto. }
  right. right.
  destruct (maxScore <? Fin 5)%num eqn:Hms.
  - right. intros px py Hx Hy.
    destruct (Fin (5 + scoreMargin)
                <=? candidateStrength img startX startY endX endY px py)%num
      eqn:Hst; [right | now left].
    destruct (snapScan_best wx wy img prev _ _ _ _ _ _ _ Hwin Hscan) as [_ Hall].
    assert (Hstrong : (candidateStrength img startX startY endX endY px py
                         <? Fin 5)%num = false).
    { apply (nle_not_lt _ _ _ Hst). unfold scoreMargin. lra. }
    specialize (Hall px py Hx Hy Hstrong). unfold ngt in Hall.
    destruct (Fin (5 + scoreMargin) <=? candidateScore img prev wx wy px py)%num
      eqn:Hsc; [| reflexivity].
    rewrite (nlt_nle_trans maxScore _ 5 (5 + scoreMargin) Hms Hsc) in Hall;
      [discriminate | unfold scoreMargin; lra].
  - left. cbv zeta in Hres.
    set (dx := IZR bestX - IZR (Image.width img) / 2 - wx) in *.
    set (dy := IZR bestY - IZR (Image.height img) / 2 - wy) in *.
    destruct (Rlt_b 6 (sqrt (dx * dx + dy * dy))) eqn:Hfar.
    + exfalso. apply Rlt_b_spec in Hfar.
      injection Hres as Hx Hy.
      assert (Hq : 6 / sqrt (dx * dx + dy * dy) <> 0).
      { apply Rgt_not_eq. apply Rdiv_lt_0_compat; lra. }
      assert (Hdx : dx = 0).
      { destruct (Rmult_integral dx (6 / sqrt (dx * dx + dy * dy))); [lra | auto | contradiction]. }
      assert (Hdy : dy = 0).
      { destruct (Rmult_integral dy (6 / sqrt (dx * dx + dy * dy))); [lra | auto | contradiction]. }
      rewrite Hdx, Hdy, sqrt_sum_sq_0 in Hfar. lra.
    + injection Hres as Hx Hy.
      assert (Hcx : fst (cursorPixel img wx wy) = bestX).
      { unfold cursorPixel. cbn [fst].
        replace (wx + IZR (Image.width img) / 2) with (IZR bestX) by lra.
        apply round_half_up_IZR. }
      assert (Hcy : snd (cursorPixel img wx wy) = bestY).
      { unfold cursorPixel. cbn [snd].
        replace (wy + IZR (Image.height img) / 2) with (IZR bestY) by lra.
        apply round_half_up_IZR. }
      rewrite Hcx, Hcy. unfold pixelWorld. f_equal; lra.
Qed.

(** *** An edge too far away to snap to *)

Lemma edge_pixelLum (qx qy : Z) :
  pixelLum edgeImage qx qy =
  IZR (if ((qx =? 4) && (qy =? 2))%Z%bool then 138 else 128).
Proof.
  unfold pixelLum, edgeImage. cbn [Image.pixel].
  change ((0 =? 3)%Z) with false. change ((1 =? 3)%Z) with false.
  change ((2 =? 3)%Z) with false. change ((3 =? 3)%Z) with true.
  cbv iota. destruct ((qx =? 4) && (qy =? 2))%Z%bool; lra.
Qed.

Ltac eval_pixels :=
  repeat match goal with
         | |- context [IZR ?z] =>
             lazymatch z with
             | Zpos _ => fail
             | Zneg _ => fail
             | Z0 => fail
             | _ => let v := eval vm_compute in z in change (IZR z) with (IZR v)
             end
         end.

Lemma edge_pixelStrength (px py : Z) :
  (1 <= px < 4)%Z -> (1 <= py < 4)%Z ->
  pixelStrength edgeImage px py =
  if ((px =? 3) && (py =? 2))%Z%bool then 10 else 0.
Proof.
  intros Hx Hy.
  assert (Hpx : px = 1%Z \/ px = 2%Z \/ px = 3%Z) by lia.
  assert (Hpy : py = 1%Z \/ py = 2%Z \/ py = 3%Z) by lia.
  unfold pixelStrength. rewrite !edge_pixelLum. cbv zeta.
  rewrite <- !minus_IZR.
  destruct Hpx as [-> | [-> | ->]]; destruct Hpy as [-> | [-> | ->]];
    eval_pixels; cbn [Z.eqb Pos.eqb andb];
    rewrite ?sqrt_sum_sq_0, ?(sqrt_sq_0_r 10) by lra; lra.
Qed.




(* ------------------------------------------------------------------ *)
(** ** The drawing direction *)

Lemma directionLoop_fin (len : nat) (pts : list Point.t) :
  Forall finitePoint pts ->
  forall (i : nat) (a b c : R),
  exists a' b' c',
    directionLoop len i pts (Fin a, Fin b, Fin c) = (Fin a', Fin b', Fin c').
Proof.
  induction pts as [| p rest IH]; intros Hfin i a b c.
  - eexists _, _, _. reflexivity.
  - inversion Hfin as [| ? ? (px & py & ->) Hrest]; subst.
    destruct rest as [| q rest'].
    + eexists _, _, _. reflexivity.
    + pose proof Hrest as Hrest'.
      inversion Hrest' as [| ? ? (qx & qy & ->) _]; subst.
      cbn [directionLoop Point.x Point.y]. rewrite !nsub_fin, hypot_fin.
      cbn [nlt]. unfold Rlt_b.
      destruct (Rlt_dec _ 0.5) as [Hshort | Hlong].
      * apply IH. exact Hrest.
      * unfold of_nat. rewrite !ndiv_fin by lra. cbn [nmul nadd].
        apply IH. exact Hrest.
Qed.

Lemma finitePoint_skipn (n : nat) (pts : list Point.t) :
  Forall finitePoint pts -> Forall finitePoint (skipn n pts).
Proof.
  revert pts. induction n as [| n IH]; intros pts H; [exact H |].
  destruct pts as [| p pts]; [constructor |].
  apply IH. now inversion H.
Qed.

(** X22.  The drawing direction of a stroke of finite points is a pair of
    finite numbers; when a direction is established it is a unit vector,
    and fewer than three points never establish one. *)
Theorem drawing_direction_is_a_unit_vector (pts : list Point.t) :
  Forall finitePoint pts ->
  exists a b d,
    drawingDirection (Some pts) = (Fin a, Fin b, d) /\
    (d = true -> a * a + b * b = 1) /\
    ((List.length pts < 3)%nat -> d = false).
Proof.
  intros Hfin. unfold drawingDirection.
  destruct (3 <=? List.length pts)%nat eqn:Hlen.
  2: { exists 0, 0, false. repeat split. discriminate. }
  apply Nat.leb_le in Hlen.
  destruct (directionLoop_fin (List.length pts)
              (skipn (List.length pts - Nat.min (List.length pts) 25) pts)
              (finitePoint_skipn _ pts Hfin)
              (List.length pts - Nat.min (List.length pts) 25) 0 0 0)
    as (a & b & c & ->).
  change ((Fin c >? Fin 0)%num) with (Rlt_b 0 c). unfold Rlt_b.
  destruct (Rlt_dec 0 c) as [Hc | Hc].
  2: { exists a, b, false. repeat split. discriminate. }
  cbv zeta. rewrite !ndiv_fin by lra. rewrite hypot_fin.
  set (L := sqrt (a / c * (a / c) + b / c * (b / c))).
  change ((Fin L >? Fin 0.1)%num) with (Rlt_b 0.1 L). unfold Rlt_b.
  destruct (Rlt_dec 0.1 L) as [HL | HL].
  2: { exists (a / c), (b / c), false. repeat split. discriminate. }
  rewrite !ndiv_fin by lra.
  exists (a / c / L), (b / c / L), true. split; [reflexivity | split; [| lia]].
  intros _.
  assert (HLL : L * L = a / c * (a / c) + b / c * (b / c)).
  { apply sqrt_sqrt. nra. }
  replace (a / c / L * (a / c / L) + b / c / L * (b / c / L))
    with ((a / c * (a / c) + b / c * (b / c)) / (L * L)) by (field; lra).
  rewrite <- HLL. field. nra.
Qed.

Lemma drawing_direction_is_a_unit_vector_witness :
  exists a b d,
    drawingDirection (Some (Path.points stroke3)) = (Fin a, Fin b, d) /\
    (d = true -> a * a + b * b = 1) /\
    ((List.length (Path.points stroke3) < 3)%nat -> d = false).
Proof.
  apply (drawing_direction_is_a_unit_vector (Path.points stroke3)).
  repeat constructor; eexists _, _; reflexivity.
Defined.

(* ------------------------------------------------------------------ *)
(** ** The magnet *)

Lemma snapToEdge_near (wx wy : R) (targetImage : option Image.t)
    (prevPoints : option (list Point.t)) :
  exists rx ry,
    snapToEdge (Fin wx) (Fin wy) targetImage prevPoints = Point.mk (Fin rx) (Fin ry) /\
    sqrt ((rx - wx) * (rx - wx) + (ry - wy) * (ry - wy)) <= 6.
Proof.
  assert (Hraw : exists rx ry,
             Point.mk (Fin wx) (Fin wy) = Point.mk (Fin rx) (Fin ry) /\
             sqrt ((rx - wx) * (rx - wx) + (ry - wy) * (ry - wy)) <= 6).
  { exists wx, wy. split; [reflexivity |].
    fold (distance wx wy wx wy). rewrite distance_self. lra. }
  destruct targetImage as [img |]; [| exact Hraw].
  rewrite snapToEdge_fin.
  destruct (cursorPixel img wx wy) as [imgX imgY].
  destruct (drawingDirection prevPoints) as [[dirX dirY] hasDirection].
  destruct (snapWindow _ _ _) as [[[startX startY] endX] endY].
  destruct (_ || _)%bool; [exact Hraw |].
  destruct (snapPad _ _ _ _ _) as [[[padStartX padStartY] padW] padH].
  cbv zeta.
  destruct (scan _ _ _ _ _ _ _ _ _ _ _ _ _ _ _) as [[maxScore bestX] bestY].
  destruct (maxScore <? Fin 5)%num; [exact Hraw |].
  unfold Rlt_b. destruct (Rlt_dec 6 _) as [Hlt | Hge].
  - eexists _, _. split; [reflexivity |].
    match goal with |- sqrt ?e <= 6 =>
      change (sqrt e) with
        (distance (wx + (IZR bestX - IZR (Image.width img) / 2 - wx)
                        * (6 / sqrt ((IZR bestX - IZR (Image.width img) / 2 - wx)
                                     * (IZR bestX - IZR (Image.width img) / 2 - wx)
                                     + (IZR bestY - IZR (Image.height img) / 2 - wy)
                                       * (IZR bestY - IZR (Image.height img) / 2 - wy))))
                  (wy + (IZR bestY - IZR (Image.height img) / 2 - wy)
                        * (6 / sqrt ((IZR bestX - IZR (Image.width img) / 2 - wx)
                                     * (IZR bestX - IZR (Image.width img) / 2 - wx)
                                     + (IZR bestY - IZR (Image.height img) / 2 - wy)
                                       * (IZR bestY - IZR (Image.height img) / 2 - wy))))
                  wx wy)
    end.
    rewrite distance_clamped by exact Hlt. lra.
  - eexists _, _. split; [reflexivity |]. lra.
Qed.

Lemma sqrt_clamped (dx dy m : R) :
  0 < m -> m < sqrt (dx * dx + dy * dy) ->
  sqrt ((dx * (m / sqrt (dx * dx + dy * dy))) * (dx * (m / sqrt (dx * dx + dy * dy)))
        + (dy * (m / sqrt (dx * dx + dy * dy))) * (dy * (m / sqrt (dx * dx + dy * dy))))
  = m.
Proof.
  intros Hm H. set (d := sqrt (dx * dx + dy * dy)) in *.
  rewrite sqrt_sum_sq_scale.
  - fold d. field. lra.
  - apply Rlt_le, Rdiv_lt_0_compat; lra.
Qed.

Lemma within_intro (d px py qx qy : R) :
  sqrt ((px - qx) * (px - qx) + (py - qy) * (py - qy)) <= d ->
  within d (Point.mk (Fin px) (Fin py)) (Point.mk (Fin qx) (Fin qy)).
Proof. intros H. exists px, py, qx, qy. repeat split. exact H. Qed.

(** X23.  The magnet never pulls far from the cursor.  For a finite
    cursor, the point that a magnet-assisted move proposes is at most 4
    world units from it, and the seed point of a magnet stroke at most
    4.2 (70% of the snap limit of 6), whatever the image. *)
Theorem magnet_stays_near_the_cursor (rx ry : R) :
  (forall targetImg pp,
     (forall l, lastPoint pp = Some l -> finitePoint l) ->
     within 4 (magnetPoint (Point.mk (Fin rx) (Fin ry)) targetImg pp)
              (Point.mk (Fin rx) (Fin ry))) /\
  (forall side s e,
     toWorld side s (clientX e) (clientY e) = Point.mk (Fin rx) (Fin ry) ->
     within 4.2 (seedPoint side s e) (Point.mk (Fin rx) (Fin ry))).
Proof.
  split.
  - intros targetImg pp Hlast. unfold magnetPoint. cbn [Point.x Point.y].
    destruct (snapToEdge_near rx ry targetImg (Some pp)) as (sx & sy & -> & _).
    destruct (lastPoint pp) as [l |];
      [destruct (Hlast l eq_refl) as (lx & ly & ->) |];
      cbv zeta; cbn [Point.x Point.y nmul nadd];
      rewrite !nsub_fin, hypot_fin; cbn [ngt nlt]; unfold Rlt_b;
      (destruct (Rlt_dec 4 _) as [Hfar | Hnear];
       [ rewrite ndiv_fin by lra; cbn [nmul nadd]; apply within_intro;
         match goal with
         | |- sqrt ((rx + ?dx * ?c - rx) * _ + (ry + ?dy * _ - ry) * _) <= 4 =>
             replace (rx + dx * c - rx) with (dx * c) by ring;
             replace (ry + dy * c - ry) with (dy * c) by ring
         end;
         rewrite sqrt_clamped by lra; lra
       | apply within_intro; lra ]).
  - intros side s e Hw. unfold seedPoint. rewrite Hw. cbn [Point.x Point.y].
    destruct (Tool_eqb (tool s) magnet && isSome (imageOf side s)).
    + destruct (snapToEdge_near rx ry (imageOf side s) None) as (sx & sy & -> & Hd).
      cbn [Point.x Point.y nmul nadd]. apply within_intro.
      replace (rx * 0.3 + sx * 0.7 - rx) with ((sx - rx) * 0.7) by lra.
      replace (ry * 0.3 + sy * 0.7 - ry) with ((sy - ry) * 0.7) by lra.
      rewrite sqrt_sum_sq_scale by lra. lra.
    + apply within_intro.
      replace (rx - rx) with 0 by ring. replace (ry - ry) with 0 by ring.
      rewrite sqrt_sum_sq_0. lra.
Qed.

(* ------------------------------------------------------------------ *)
(** ** Keyboard shortcuts, and a whole stroke *)

Lemma handleKeyDown_cases (e : KeyEvent) (s : State) :
  handleKeyDown e s = s \/
  handleKeyDown e s = undo sideLeft s \/
  handleKeyDown e s = redo sideLeft s.
Proof.
  unfold handleKeyDown. destruct (_ && _ && _); [now right; left |].
  destruct (_ && _); [now right; right | now left].
Qed.

Lemma workspace_history_frame (s : State) :
  (paneData sideRight (handleUndo s) = paneData sideRight s /\
   inProgress sideLeft (handleUndo s) = inProgress sideLeft s /\
   transform (handleUndo s) = transform s) /\
  (paneData sideRight (handleRedo s) = paneData sideRight s /\
   inProgress sideLeft (handleRedo s) = inProgress sideLeft s /\
   transform (handleRedo s) = transform s).
Proof.
  unfold handleUndo, handleRedo.
  destruct (Array_pop (history s)) as [? [? |]],
    (Array_pop (redoStack s)) as [? [? |]]; repeat split.
Qed.

(** X24.  The keyboard shortcuts act on the workspace history only.  No
    sequence of key presses changes the workspace's timeline, its stroke
    in progress or its transform, nor anything of the reference pane; and
    a key pressed without Ctrl or Cmd does nothing. *)
Theorem keyboard_walks_the_workspace_timeline (keys : list KeyEvent) (s : State) :
  let s' := typeKeys keys s in
  timeline sideLeft s' = timeline sideLeft s /\
  inProgress sideLeft s' = inProgress sideLeft s /\
  transform s' = transform s /\
  paneData sideRight s' = paneData sideRight s /\
  (forall e, ctrlKey e || metaKey e = false -> handleKeyDown e s = s).
Proof.
  cbv zeta. split; [| split; [| split; [| split]]].
  5: { intros e He. unfold handleKeyDown. now rewrite He. }
  all: revert s; induction keys as [| e keys IH]; intros s; [reflexivity |];
    unfold typeKeys in *; cbn [fold_left]; rewrite IH;
    destruct (workspace_history_frame s) as [(U1 & U2 & U3) (R1 & R2 & R3)];
    destruct (handleKeyDown_cases e s) as [-> | [-> | ->]];
    try reflexivity; try assumption.
  - apply (timeline_undo sideLeft).
  - apply (timeline_redo sideLeft).
Qed.

Lemma handlePointerMove_isMiddle (e : PointerEvent) (s : State) :
  isMiddleMousePanning (handlePointerMove e s) = isMiddleMousePanning s.
Proof.
  unfold handlePointerMove, pinchMove, drawMove, set_activeTransform. fields.
  repeat (case_scrutinee; fields); reflexivity || assumption.
Qed.

Lemma hd_error_push {A : Type} (l : list A) (v : A) :
  l <> [] -> hd_error (Array_push l v) = hd_error l.
Proof. destruct l; [intros H; now contradiction H | reflexivity]. Qed.

Lemma moves_keep_the_style (side : Side) (moves : list Input) (s : State)
    (p : Path.t) :
  forallb isMove moves = true ->
  inProgress side s = Some p -> hasPoint p ->
  exists p',
    inProgress side (run moves s) = Some p' /\ hasPoint p' /\
    Path.color p' = Path.color p /\ Path.size p' = Path.size p /\
    Path.isEraser p' = Path.isEraser p /\
    hd_error (Path.points p') = hd_error (Path.points p) /\
    isMiddleMousePanning (run moves s) = isMiddleMousePanning s /\
    ink side (run moves s) = ink side s.
Proof.
  revert s p. induction moves as [| i moves IH]; intros s p Hm Hp Hh.
  - exists p. repeat split; auto.
  - cbn [forallb] in Hm. apply andb_true_iff in Hm as [Hi Hm].
    destruct i as [e | e | e]; try discriminate.
    cbn [run fold_left step]. fold (run moves (handlePointerMove e s)).
    assert (Hstep : exists q,
              inProgress side (handlePointerMove e s) = Some q /\ hasPoint q /\
              Path.color q = Path.color p /\ Path.size q = Path.size p /\
              Path.isEraser q = Path.isEraser p /\
              hd_error (Path.points q) = hd_error (Path.points p)).
    { destruct (handlePointerMove_inProgress side e s)
        as [Heq | (q & wp & l & Hq & _ & _ & Hnew)].
      - exists p. rewrite Heq. repeat split; auto.
      - rewrite Hq in Hp. injection Hp as ->.
        eexists. split; [exact Hnew |].
        cbn [Path.points Path.color Path.size Path.isEraser].
        repeat split.
        + unfold hasPoint, Array_push. cbn [Path.points].
          intros Hnil. apply app_eq_nil in Hnil as [_ Hnil]. discriminate.
        + now apply hd_error_push. }
    destruct Hstep as (q & Hq & Hqh & Hc & Hs & He & Hd).
    destruct (IH (handlePointerMove e s) q Hm Hq Hqh)
      as (p' & H1 & H2 & H3 & H4 & H5 & H6 & H7 & H8).
    exists p'. repeat split; try congruence.
    + now rewrite H7, handlePointerMove_isMiddle.
    + now rewrite H8, handlePointerMove_ink.
Qed.

Lemma is_finite_inv (a : num) : is_finite a = true -> exists r, a = Fin r.
Proof. destruct a; try discriminate. intros _. now eexists. Qed.

Lemma toWorld_finite (side : Side) (s : State) (e : PointerEvent) :
  finitePane side s -> finiteEvent e = true ->
  finitePoint (toWorld side s (clientX e) (clientY e)).
Proof.
  intros ((l & t & w & h & sp & Hr & Hs) & (x & y & k & Ht & Hk)) He.
  unfold finiteEvent in He. apply andb_true_iff in He as [Hx Hy].
  apply is_finite_inv in Hx as [cX ->]. apply is_finite_inv in Hy as [cY ->].
  rewrite (toWorld_fin side s l t w h sp x y k cX cY Hr Hs Ht Hk).
  now eexists _, _.
Qed.

Lemma seedPoint_near (side : Side) (s : State) (e : PointerEvent) :
  finitePoint (toWorld side s (clientX e) (clientY e)) ->
  within 4.2 (seedPoint side s e) (toWorld side s (clientX e) (clientY e)) /\
  (Tool_eqb (tool s) magnet && isSome (imageOf side s) = false ->
   seedPoint side s e = toWorld side s (clientX e) (clientY e)).
Proof.
  intros (rx & ry & Hw). unfold seedPoint. rewrite Hw. cbn [Point.x Point.y].
  destruct (Tool_eqb (tool s) magnet && isSome (imageOf side s)).
  - split; [| discriminate].
    destruct (snapToEdge_near rx ry (imageOf side s) None) as (sx & sy & -> & Hd).
    cbn [Point.x Point.y nmul nadd]. apply within_intro.
    replace (rx * 0.3 + sx * 0.7 - rx) with ((sx - rx) * 0.7) by lra.
    replace (ry * 0.3 + sy * 0.7 - ry) with ((sy - ry) * 0.7) by lra.
    rewrite sqrt_sum_sq_scale by lra. lra.
  - split; [| reflexivity]. apply within_intro.
    replace (rx - rx) with 0 by ring. replace (ry - ry) with 0 by ring.
    rewrite sqrt_sum_sq_0. lra.
Qed.



(* ------------------------------------------------------------------ *)
(** ** The ink arrays are never shared *)

(** X26.  From a freshly mounted pane on, after any sequence of commits,
    undos, redos, clears and image loads performed on the array objects as
    the code performs them (with [push] in place, and with a copy on every
    push to a stack), no array is held twice, by [paths.current] or by an
    entry of a stack, and the arrays hold what the same operations compute
    on lists.  A later stroke never changes an entry of the history or of
    the redo stack. *)
Theorem ink_arrays_are_never_shared (ops : list InkOp) :
  let k := fold_left refsApply ops Refs.initial in
  Refs.separate k /\
  Refs.view k = fold_left inkApply ops ([], [], []).
Proof.
  cbv zeta.
  assert (Hgen : forall ops k,
            Refs.separate k ->
            Refs.separate (fold_left refsApply ops k) /\
            Refs.view (fold_left refsApply ops k)
              = fold_left inkApply ops (Refs.view k)).
  { clear. induction ops as [| op ops IH]; intros k Hk; [now split |].
    cbn [fold_left].
    destruct (Refs_simulation k
                (match op with opCommit p => p | _ => dot end))
      as (_ & Hstep).
    destruct (Hstep Hk) as ((Hc1 & Hc2) & (Hu1 & Hu2) & (Hr1 & Hr2)
                            & (Hcl1 & Hcl2) & (Hl1 & Hl2)).
    destruct op as [p | | | |]; cbn [refsApply inkApply].
    - destruct (IH _ Hc2) as [H1 H2]. split; [exact H1 | now rewrite H2, Hc1].
    - destruct (IH _ Hu2) as [H1 H2]. split; [exact H1 | now rewrite H2, Hu1].
    - destruct (IH _ Hr2) as [H1 H2]. split; [exact H1 | now rewrite H2, Hr1].
    - destruct (IH _ Hcl2) as [H1 H2]. split; [exact H1 | now rewrite H2, Hcl1].
    - destruct (IH _ Hl2) as [H1 H2]. split; [exact H1 | now rewrite H2, Hl1]. }
  destruct (Refs_simulation Refs.initial dot) as (Hinit & _).
  apply (Hgen ops Refs.initial Hinit).
Qed.
